(** * survive.py: entity simulation and collision engine

    A shallow embedding of [src/survive.py] (a pygame survival shooter) and
    the properties of its entity model, projectile life cycle, camera draw
    group and frame loop.

    Conventions of the embedding.
    - Python [int] is [Z].  Python [float] is idealised as an exact number:
      a rational [Q], or, where [math.sqrt] is involved, a [Surd]
      (a rational multiple of the square root of a rational).  No rounding
      error is modelled: one operation of the code ([a - dt], [a + dt],
      [ms / 1000]) is the same operation on exact numbers.  A double can
      differ from the exact number in its last place, which shows where a
      float is cut to a pixel count or a sum of many steps meets a
      threshold; properties of such values are stated with closed bounds or
      a margin of a millisecond, not as the exact value.
    - A pygame [Rect] holds four integers, here unbounded; every float
      handed to it is cut to an integer toward zero, as pygame's C conversion
      does.
    - The values of [cos], [sin], [atan2] and the sizes of loaded or rotated
      images come from outside: the record [Assets] and the per-pass
      [Input].
    - A sprite that called [Sprite.kill()] has left all its groups; the
      embedding records that in the sprite's [alive] flag and a group is the
      list of its members in insertion order.
    - The image dictionary [_imgs] is a [gmap] from priority to
      (image, remaining time). *)

From stdpp Require Import base option list gmap strings.
From Stdlib Require Import ZArith QArith Qround Lia Lqa.

Local Open Scope Z_scope.

(** ** Exact numbers standing for Python floats *)

Definition Qlt_bool (a b : Q) : bool := negb (Qle_bool b a).

(** Python's [max(a, b)] with two arguments: [b] only when [b > a]. *)
Definition py_max (a b : Q) : Q := if Qlt_bool a b then b else a.

(** [int(x)] of a float, and pygame's float-to-int conversion: cut toward 0. *)
Definition Qtrunc (q : Q) : Z := Z.quot (Qnum q) (Zpos (Qden q)).

(** [coef * sqrt(radicand)], with [radicand >= 0]. *)
Record Surd := mkSurd { coef : Q; radicand : Q }.

Definition Surd_of_Q (q : Q) : Surd := mkSurd q 1.

(** [math.sqrt(q)] *)
Definition Surd_sqrt (q : Q) : Surd := mkSurd 1 q.

Definition Surd_is_zero (s : Surd) : bool :=
  Qeq_bool (coef s) 0 || Qeq_bool (radicand s) 0.

(** [x / s]: [None] is Python's ZeroDivisionError.
    x / (c * sqrt r) = (x / (c * r)) * sqrt r. *)
Definition Q_div_Surd (x : Q) (s : Surd) : option Surd :=
  if Surd_is_zero s then None
  else Some (mkSurd (x / (coef s * radicand s))%Q (radicand s)).

Definition Surd_mul_Q (s : Surd) (q : Q) : Surd :=
  mkSurd (coef s * q)%Q (radicand s).

(** Cut toward zero: the integer part of |c| * sqrt r is the integer square
    root of the integer part of c^2 * r. *)
Definition Surd_trunc (s : Surd) : Z :=
  let m := Z.sqrt (Qfloor (coef s * coef s * radicand s)%Q) in
  if Qlt_bool (coef s) 0 then - m else m.

(** [s < k] for a rational [k]. *)
Definition Surd_lt_bool (s : Surd) (k : Q) : bool :=
  let sq := (coef s * coef s * radicand s)%Q in
  if Qlt_bool 0 k then
    if Qle_bool (coef s) 0 then true else Qlt_bool sq (k * k)%Q
  else
    if Qle_bool 0 (coef s) then false else Qlt_bool (k * k)%Q sq.

(** ** pygame.Rect and Surface *)

Record Rect := mkRect { rx : Z; ry : Z; rw : Z; rh : Z }.

Record Surface := mkSurface { surf_name : string; surf_w : Z; surf_h : Z }.

(** [Surface.get_rect()] *)
Definition get_rect (s : Surface) : Rect := mkRect 0 0 (surf_w s) (surf_h s).

(** [Rect.move_ip(dx, dy)] with integer arguments. *)
Definition move_ip (dx dy : Z) (r : Rect) : Rect :=
  mkRect (rx r + dx) (ry r + dy) (rw r) (rh r).

(** [Rect.move_ip] with float arguments. *)
Definition move_ip_Q (dx dy : Q) (r : Rect) : Rect :=
  move_ip (Qtrunc dx) (Qtrunc dy) r.

Definition move_ip_Surd (dx dy : Surd) (r : Rect) : Rect :=
  move_ip (Surd_trunc dx) (Surd_trunc dy) r.

Definition centerx (r : Rect) : Z := rx r + Z.quot (rw r) 2.
Definition centery (r : Rect) : Z := ry r + Z.quot (rh r) 2.
Definition center (r : Rect) : Z * Z := (centerx r, centery r).
Definition midbottom (r : Rect) : Z * Z := (centerx r, ry r + rh r).

(** [rect.center = (cx, cy)] *)
Definition set_center (p : Z * Z) (r : Rect) : Rect :=
  mkRect (fst p - Z.quot (rw r) 2) (snd p - Z.quot (rh r) 2) (rw r) (rh r).

(** [Rect.colliderect]: empty rectangles collide with nothing; otherwise the
    open intervals must overlap on both axes (sizes may be negative). *)
Definition colliderect (a b : Rect) : bool :=
  if (rw a =? 0) || (rh a =? 0) || (rw b =? 0) || (rh b =? 0) then false
  else
    (Z.min (rx a) (rx a + rw a) <? Z.max (rx b) (rx b + rw b)) &&
    (Z.min (ry a) (ry a + rh a) <? Z.max (ry b) (ry b + rh b)) &&
    (Z.min (rx b) (rx b + rw b) <? Z.max (rx a) (rx a + rw a)) &&
    (Z.min (ry b) (ry b + rh b) <? Z.max (ry a) (ry a + rh a)).

(** ** Python dict with integer keys *)

(** [max(d)]: the largest key, [None] for the empty dict. *)
Definition dict_max {V} (m : gmap Z V) : option Z :=
  foldr (fun k acc => match acc with
                      | None => Some k
                      | Some j => Some (Z.max k j)
                      end) None ((map_to_list m).*1).

(** ** Character *)

(** The class of a character and the attributes its subclass adds. *)
Inductive Kind :=
| KCharacter
| KPlayer (dire : Z * Z) (speed : Z) (attack_interval : Q) (attack_number : Z)
| KEnemy (_score : Z) (speed : Z)
| KBOSS (_score : Z) (speed : Z) (_attack_interval_tmr : Q).

Record Character := mkCharacter {
  kind : Kind;
  hp : Z;
  max_invincible_tick : Q;
  invincible_tmr : Q;
  _imgs : gmap Z (Surface * option Q);
  image : option Surface;
  rect : Rect;
  alive : bool
}.

Definition with_kind (k : Kind) (c : Character) : Character :=
  mkCharacter k (hp c) (max_invincible_tick c) (invincible_tmr c)
              (_imgs c) (image c) (rect c) (alive c).
Definition with_hp (h : Z) (c : Character) : Character :=
  mkCharacter (kind c) h (max_invincible_tick c) (invincible_tmr c)
              (_imgs c) (image c) (rect c) (alive c).
Definition with_invincible_tmr (t : Q) (c : Character) : Character :=
  mkCharacter (kind c) (hp c) (max_invincible_tick c) t
              (_imgs c) (image c) (rect c) (alive c).
Definition with_imgs (m : gmap Z (Surface * option Q)) (c : Character) : Character :=
  mkCharacter (kind c) (hp c) (max_invincible_tick c) (invincible_tmr c)
              m (image c) (rect c) (alive c).
Definition with_image (i : option Surface) (c : Character) : Character :=
  mkCharacter (kind c) (hp c) (max_invincible_tick c) (invincible_tmr c)
              (_imgs c) i (rect c) (alive c).
Definition with_rect (r : Rect) (c : Character) : Character :=
  mkCharacter (kind c) (hp c) (max_invincible_tick c) (invincible_tmr c)
              (_imgs c) (image c) r (alive c).
Definition with_alive (a : bool) (c : Character) : Character :=
  mkCharacter (kind c) (hp c) (max_invincible_tick c) (invincible_tmr c)
              (_imgs c) (image c) (rect c) a.

(** [issubclass(type(c), Enemy_Base)] *)
Definition is_Enemy_Base (c : Character) : bool :=
  match kind c with
  | KEnemy _ _ | KBOSS _ _ _ => true
  | _ => false
  end.

(** [Enemy_Base.get_score] *)
Definition get_score (c : Character) : Z :=
  match kind c with
  | KEnemy s _ | KBOSS s _ _ => s
  | _ => 0
  end.

(** [Character.set_image] *)
Definition set_image (img : Surface) (priority : Z) (valid_time : option Q)
    (c : Character) : Character :=
  with_imgs (<[priority := (img, valid_time)]> (_imgs c)) c.

(** [Character.__init__] followed by the subclass's own attributes. *)
Definition Character_init (k : Kind) (img : Surface) (position : Z * Z)
    (hp0 : Z) (max_invincible_sec : Q) : Character :=
  mkCharacter k hp0 max_invincible_sec (-1)%Q
              {[ 0 := (img, None) ]} None
              (set_center position (get_rect img)) true.

(** The images the program loads or derives with pygame's transforms.  Their
    pixel sizes, and the values of the trigonometric calls, are inputs of the
    embedding. *)
Record Assets := mkAssets {
  (** [rotozoom(load("ex05/fig/{num}.png"), 0, IMAGE_SCALE)] *)
  fig : Z -> Surface;
  (** [Player.move_imgs], keyed by the eight non-zero directions *)
  move_imgs : Z * Z -> Surface;
  (** [rotozoom(load("ex05/fig/alien2.png"), 0.0, 3.0)] *)
  alien2 : Surface;
  (** [rotozoom(load("ex05/fig/flame.png"), 0, 0.1)] *)
  flame_png : Surface;
  (** [load("ex05/fig/background.png")] *)
  background_png : Surface;
  (** [rotozoom(image, degrees(atan2(-vy, vx)), 1)] *)
  rotated : Surface -> Surd -> Surd -> Surface;
  (** [(cos(rad), sin(rad))] for beam [i] of [gen_beams] around the
      direction [(dx, dy)] *)
  beam_dir : Surd -> Surd -> Z -> Surd * Surd
}.

Section Entities.

Variable assets : Assets.

(** [Sprite.kill()], overridden to do nothing by [Player]. *)
Definition kill (c : Character) : Character :=
  match kind c with
  | KPlayer _ _ _ _ => c
  | _ => with_alive false c
  end.

(** [Player.change_img] *)
Definition change_img (num priority : Z) (life : option Q) (c : Character)
    : Character :=
  set_image (fig assets num) priority life c.

(** [Character.damaged], overridden by [Player]. *)
Definition damaged (c : Character) : Character :=
  match kind c with
  | KPlayer _ _ _ _ => change_img 8 5 (Some 2%Q) c
  | _ => c
  end.

(** [Character.give_damage]; the returned [hp] is the [hp] field of the
    result. *)
Definition give_damage (dmg : Z) (c : Character) : Character :=
  let c1 :=
    if Qle_bool (invincible_tmr c) 0 then
      damaged (with_invincible_tmr (max_invincible_tick c)
                 (with_hp (hp c - dmg) c))
    else c in
  if hp c1 <=? 0 then kill c1 else c1.

(** [Character.update] *)
Definition Character_update (delta_time : Q) (c : Character) : Character :=
  let c1 :=
    with_invincible_tmr (py_max (invincible_tmr c - delta_time) (-1))%Q c in
  match dict_max (_imgs c1) with
  | None => c1
  | Some idx =>
    match _imgs c1 !! idx with
    | None => c1
    | Some (img, valid_time) =>
      let c2 := with_image (Some img) c1 in
      match valid_time with
      | None => c2
      | Some t =>
        if Qlt_bool t 0 then with_imgs (delete idx (_imgs c2)) c2
        else with_imgs (<[idx := (img, Some (t - delta_time)%Q)]> (_imgs c2)) c2
      end
    end
  end.

(** [calc_orientation]; [None] is the ZeroDivisionError of a zero norm. *)
Definition calc_orientation (org dst : Q * Q) : option (Surd * Surd) :=
  let x_diff := (fst dst - fst org)%Q in
  let y_diff := (snd dst - snd org)%Q in
  let norm := Surd_sqrt (x_diff * x_diff + y_diff * y_diff)%Q in
  match Q_div_Surd x_diff norm, Q_div_Surd y_diff norm with
  | Some x, Some y => Some (x, y)
  | _, _ => None
  end.

(** [calc_norm] *)
Definition calc_norm (org dst : Rect) : Surd :=
  let x_diff := centerx dst - centerx org in
  let y_diff := centery dst - centery org in
  Surd_sqrt (inject_Z (x_diff * x_diff + y_diff * y_diff)).

Definition Zpair_to_Q (p : Z * Z) : Q * Q := (inject_Z (fst p), inject_Z (snd p)).

(** A [Rect] passed where a coordinate pair is expected is read through
    its first two items, [x] and [y]. *)
Definition Rect_as_pair (r : Rect) : Q * Q := (inject_Z (rx r), inject_Z (ry r)).

(** ** Player *)

Definition K_w : Z := 119.
Definition K_s : Z := 115.
Definition K_a : Z := 97.
Definition K_d : Z := 100.

(** [Player.delta], in the dict's insertion order. *)
Definition delta : list (Z * (Z * Z)) :=
  [(K_w, (0, -1)); (K_s, (0, 1)); (K_a, (-1, 0)); (K_d, (1, 0))].

(** [Player.__init__] *)
Definition Player_init (xy : Z * Z) : Character :=
  Character_init (KPlayer (1, 0) 500 (2 # 10) 1) (move_imgs assets (1, 0))
                 xy 50 2.

Definition Player_move (key_lst : Z -> bool) (speed : Z) (dtime : Q)
    (st : Rect * (Z * Z)) (entry : Z * (Z * Z)) : Rect * (Z * Z) :=
  let '(r, (sx, sy)) := st in
  let '(k, (mx, my)) := entry in
  if key_lst k then
    (move_ip_Q (inject_Z speed * inject_Z mx * dtime)
               (inject_Z speed * inject_Z my * dtime) r,
     (sx + mx, sy + my))
  else st.

(** [Player.update] *)
Definition Player_update (key_lst : Z -> bool) (dtime : Q) (p : Character)
    : Character :=
  let p1 := Character_update dtime p in
  match kind p1 with
  | KPlayer dire speed attack_interval attack_number =>
    let '(r, sum_mv) :=
      foldl (Player_move key_lst speed dtime) (rect p1, (0, 0)) delta in
    let p2 := with_rect r p1 in
    if negb ((fst sum_mv =? 0) && (snd sum_mv =? 0)) then
      set_image (move_imgs assets sum_mv) 0 None
        (with_kind (KPlayer sum_mv speed attack_interval attack_number) p2)
    else p2
  | _ => p1
  end.

(** ** Bullet *)

(** The sprite groups of [main]. *)
Inductive GroupId :=
| G_background | G_player_group | G_bullets | G_enemies | G_boss | G_flame.

Record Bullet := mkBullet {
  vx : Surd;
  vy : Surd;
  b_image : Surface;
  b_rect : Rect;
  speed : Z;
  life_tmr : Q;
  attackable_group : GroupId;
  damage : Z;
  max_life_sec : Q;
  b_alive : bool
}.

Definition b_with_rect (r : Rect) (b : Bullet) : Bullet :=
  mkBullet (vx b) (vy b) (b_image b) r (speed b) (life_tmr b)
           (attackable_group b) (damage b) (max_life_sec b) (b_alive b).
Definition b_with_life_tmr (t : Q) (b : Bullet) : Bullet :=
  mkBullet (vx b) (vy b) (b_image b) (b_rect b) (speed b) t
           (attackable_group b) (damage b) (max_life_sec b) (b_alive b).
(** [Sprite.kill()] on a bullet *)
Definition b_kill (b : Bullet) : Bullet :=
  mkBullet (vx b) (vy b) (b_image b) (b_rect b) (speed b) (life_tmr b)
           (attackable_group b) (damage b) (max_life_sec b) false.

(** [Bullet.__init__] *)
Definition Bullet_init (img : Surface) (position : Z * Z)
    (direction : Surd * Surd) (grp : GroupId) (spd : Z) (dmg : Z)
    (life_sec : Q) (is_fix_rotation_img : bool) : Bullet :=
  let img' :=
    if is_fix_rotation_img then img
    else rotated assets img (fst direction) (snd direction) in
  mkBullet (fst direction) (snd direction) img'
           (set_center position (get_rect img')) spd 0 grp dmg life_sec true.

(** What the frame loop writes to the outside, and the calls of
    [Score.score_up], each with the target whose defeat it rewards (before
    and after the hit). *)
Inductive Text := TGameOver | TGameClear | TCountdown (n : Z) | TScore (n : Z).

Inductive Event :=
| EvPrintFps (fps : Z)
| EvSound
| EvBlit (img : option Surface) (at_rect : Rect)
| EvText (t : Text)
| EvDisplayUpdate
| EvSleep (sec : Z)
| EvGroupUpdate (g : GroupId)
| EvPlayerUpdate
| EvScoreUp (before after : Character) (add : Z).

(** The collision loop of [Bullet.update] over the members of the target
    group, in the group's order.  [spritecollide] collects the overlapping
    members before the loop body runs; the body changes neither rectangle, so
    testing each member when it is reached selects the same members.  A
    member that is hit and dies keeps its place here with [alive = false]. *)
Fixpoint Bullet_hits (b : Bullet) (grp : list Character) (score : Z)
    : Bullet * list Character * Z * list Event :=
  match grp with
  | [] => (b, [], score, [])
  | t :: rest =>
    if colliderect (b_rect b) (rect t) then
      let b1 := b_kill b in
      let t1 := give_damage (damage b) t in
      let '(score1, ev) :=
        if (hp t1 <=? 0) && is_Enemy_Base t1
        then (score + get_score t1, [EvScoreUp t t1 (get_score t1)])
        else (score, []) in
      let '(b2, rest', score2, ev') := Bullet_hits b1 rest score1 in
      (b2, t1 :: rest', score2, ev ++ ev')
    else
      let '(b2, rest', score2, ev') := Bullet_hits b rest score in
      (b2, t :: rest', score2, ev')
  end.

(** The first half of [Bullet.update]: move, expiry check, ageing. *)
Definition Bullet_advance (dtime : Q) (b : Bullet) : Bullet :=
  let b1 :=
    b_with_rect
      (move_ip_Surd
         (Surd_mul_Q (Surd_mul_Q (vx b) (inject_Z (speed b))) dtime)
         (Surd_mul_Q (Surd_mul_Q (vy b) (inject_Z (speed b))) dtime)
         (b_rect b)) b in
  let b2 := if Qlt_bool (max_life_sec b1) (life_tmr b1) then b_kill b1 else b1 in
  b_with_life_tmr (life_tmr b2 + dtime)%Q b2.

(** [Bullet.update], on the members of its target group; the result keeps
    every member, dead ones marked. *)
Definition Bullet_update_marked (dtime : Q) (b : Bullet) (grp : list Character)
    (score : Z) : Bullet * list Character * Z * list Event :=
  Bullet_hits (Bullet_advance dtime b) grp score.

(** [Bullet.update]: the target group afterwards holds the members that did
    not kill themselves. *)
Definition Bullet_update (dtime : Q) (b : Bullet) (grp : list Character)
    (score : Z) : Bullet * list Character * Z * list Event :=
  let '(b', grp', score', ev) := Bullet_update_marked dtime b grp score in
  (b', filter (fun t => alive t = true) grp', score', ev).

(** [gen_beams] with its fixed [count = 3] *)
Definition gen_beams (img : Surface) (player : Character)
    (direction : Surd * Surd) (grp : GroupId) : list Bullet :=
  map (fun i => Bullet_init img (center (rect player))
                  (beam_dir assets (fst direction) (snd direction) i)
                  grp 500 10 5 false)
      [0; 1; 2].

(** ** Enemy and BOSS *)

(** [Enemy.__init__] *)
Definition Enemy_init (img : Surface) (spawn_point : Z * Z) : Character :=
  Character_init (KEnemy 30 100) img spawn_point 20 0.

(** [BOSS.__init__] *)
Definition BOSS_init (spawn_point : Z * Z) : Character :=
  Character_init (KBOSS 40 100 0) (alien2 assets) spawn_point 50 0.

Definition pursue (spd : Z) (dtime : Q) (target : Rect) (c : Character)
    : option Character :=
  match calc_orientation (Rect_as_pair (rect c)) (Rect_as_pair target) with
  | None => None
  | Some (dx, dy) =>
    Some (with_rect
            (move_ip_Surd (Surd_mul_Q (Surd_mul_Q dx (inject_Z spd)) dtime)
                          (Surd_mul_Q (Surd_mul_Q dy (inject_Z spd)) dtime)
                          (rect c)) c)
  end.

(** [Enemy.update]; [None] is an uncaught ZeroDivisionError. *)
Definition Enemy_update (dtime : Q) (attack_target : Character) (e : Character)
    : option Character :=
  let e1 := Character_update dtime e in
  match kind e1 with
  | KEnemy _ spd =>
    if Surd_lt_bool (calc_norm (rect e1) (rect attack_target)) 50 then Some e1
    else pursue spd dtime (rect attack_target) e1
  | _ => Some e1
  end.

Definition ATTACK_INTERVAL_SEC : Q := 1.

(** [BOSS.update]: the boss afterwards and the bullets it added to its
    [enemy_bullet_group]; [None] is an uncaught ZeroDivisionError.  The
    target's first group is [player_group]. *)
Definition BOSS_update (delta_time : Q) (attack_target : Character)
    (b : Character) : option (Character * list Bullet) :=
  let b1 := Character_update delta_time b in
  match kind b1 with
  | KBOSS sc spd tmr =>
    if Surd_lt_bool (calc_norm (rect b1) (rect attack_target)) 50
    then Some (b1, [])
    else
      match pursue spd delta_time (rect attack_target) b1 with
      | None => None
      | Some b2 =>
        if Qlt_bool ATTACK_INTERVAL_SEC tmr then
          match calc_orientation (Zpair_to_Q (midbottom (rect b2)))
                                 (Zpair_to_Q (center (rect attack_target))) with
          | None => None
          | Some direction =>
            Some (with_kind (KBOSS sc spd (0 + delta_time)%Q) b2,
                  [Bullet_init (flame_png assets) (midbottom (rect b2))
                               direction G_player_group 500 10 5 true])
          end
        else Some (with_kind (KBOSS sc spd (tmr + delta_time)%Q) b2, [])
      end
  | _ => Some (b1, [])
  end.

End Entities.

(** ** Camera and Group_support_camera *)

Record Camera := mkCamera {
  center_pos : Q * Q;
  (** [screen.get_width()] and [screen.get_height()] *)
  screen_w : Z;
  screen_h : Z
}.

(** What [Group.draw] and [Group_support_camera.draw] use of a sprite. *)
Class Sprite (S : Type) := {
  sprite_image : S -> option Surface;
  sprite_rect : S -> Rect;
  sprite_with_rect : Rect -> S -> S
}.

#[export] Instance Character_Sprite : Sprite Character :=
  {| sprite_image := image; sprite_rect := rect; sprite_with_rect := with_rect |}.

#[export] Instance Bullet_Sprite : Sprite Bullet :=
  {| sprite_image := fun b => Some (b_image b);
     sprite_rect := b_rect;
     sprite_with_rect := b_with_rect |}.

Record Background := mkBackground {
  bg_image : Surface;
  bg_rect : Rect;
  offset : Z * Z
}.

#[export] Instance Background_Sprite : Sprite Background :=
  {| sprite_image := fun b => Some (bg_image b);
     sprite_rect := bg_rect;
     sprite_with_rect := fun r b => mkBackground (bg_image b) r (offset b) |}.

Section Draw.

Context {S : Type} `{Sprite S}.

(** One of the two [for sprite in self.sprites(): sprite.rect.move_ip(..)]
    loops. *)
Definition shift_sprites (dx dy : Q) (sprites : list S) : list S :=
  map (fun s => sprite_with_rect (move_ip_Q dx dy (sprite_rect s)) s) sprites.

(** [pygame.sprite.Group.draw]: blit every member at its rectangle. *)
Definition Group_draw (sprites : list S) : list Event :=
  map (fun s => EvBlit (sprite_image s) (sprite_rect s)) sprites.

(** [Group_support_camera.draw]: the members afterwards and the blits. *)
Definition Group_support_camera_draw (camera : Camera) (sprites : list S)
    : list S * list Event :=
  let cx := fst (center_pos camera) in
  let cy := snd (center_pos camera) in
  let w := inject_Z (screen_w camera) in
  let h := inject_Z (screen_h camera) in
  let shifted := shift_sprites (- cx + w / 2)%Q (- cy + h / 2)%Q sprites in
  let rst := Group_draw shifted in
  (shift_sprites (cx - w / 2)%Q (cy - h / 2)%Q shifted, rst).

End Draw.

(** Python's [a // b] for a float or int [a] and an int [b]. *)
Definition floordiv (a : Q) (b : Z) : option Q :=
  if b =? 0 then None else Some (inject_Z (Qfloor (a / inject_Z b))).

(** [Background.update]; [None] is the ZeroDivisionError of an image without
    width or height. *)
Definition Background_update (camera : Camera) (b : Background)
    : option Background :=
  let cx := fst (center_pos camera) in
  let cy := snd (center_pos camera) in
  let width := rw (bg_rect b) in
  let height := rh (bg_rect b) in
  let x_add := if Qeq_bool cx 0 then Some 0%Q else floordiv cx width in
  let y_add := if Qeq_bool cy 0 then Some 0%Q else floordiv cy height in
  match x_add, y_add with
  | Some xa, Some ya =>
    let x_offset := (inject_Z (fst (offset b)) + xa)%Q in
    let y_offset := (inject_Z (snd (offset b)) + ya)%Q in
    Some (mkBackground (bg_image b)
            (mkRect (Qtrunc (x_offset * inject_Z width))
                    (Qtrunc (y_offset * inject_Z height)) width height)
            (offset b))
  | _, _ => None
  end.

(** ** Collision helpers of pygame.sprite *)

(** [spritecollide(sprite, group, True)] on a group of bullets: the members
    that overlap are killed; the result is (hit members, members left). *)
Definition spritecollide_kill (r : Rect) (grp : list Bullet)
    : list Bullet * list Bullet :=
  (filter (fun b => colliderect r (b_rect b) = true) grp,
   filter (fun b => colliderect r (b_rect b) <> true) grp).

(** [groupcollide(flame, bullets, True, True)]: members left in each group. *)
Fixpoint groupcollide_kill_both (ga gb : list Bullet) : list Bullet * list Bullet :=
  match ga with
  | [] => ([], gb)
  | a :: rest =>
    let '(hit, gb1) := spritecollide_kill (b_rect a) gb in
    let '(ga', gb2) := groupcollide_kill_both rest gb1 in
    (match hit with [] => a :: ga' | _ => ga' end, gb2)
  end.

(** [groupcollide(boss, bullets, False, True)]: every boss paired with
    whether it is a key of the returned dict, and the bullets left. *)
Fixpoint groupcollide_kill_b (ga : list Character) (gb : list Bullet)
    : list (Character * bool) * list Bullet :=
  match ga with
  | [] => ([], gb)
  | a :: rest =>
    let '(hit, gb1) := spritecollide_kill (rect a) gb in
    let '(ga', gb2) := groupcollide_kill_b rest gb1 in
    ((a, match hit with [] => false | _ => true end) :: ga', gb2)
  end.

(** ** The frame loop of [main] *)

Record Game := mkGame {
  max_fps : Z;
  dtime : Q;
  gameFlag : bool;
  camera : Camera;
  background : list Background;
  player : Character;
  bullets : list Bullet;
  enemies : list Character;
  boss : list Character;
  flame : list Bullet;
  score : Z;
  clk : Q;
  enemy_spawn_interval_tmr : Q;
  boss_spawn_interval_tmr : Q;
  suvivetime : Q
}.

Inductive PgEvent := QUIT | KEYDOWN (key : Z) | OtherEvent.

Definition K_F1 : Z := 1073741882.
Definition K_F2 : Z := 1073741883.
Definition K_F3 : Z := 1073741884.

(** Everything one pass of the loop reads from outside the program. *)
Record Input := mkInput {
  (** [pg.event.get()] *)
  events : list PgEvent;
  (** [pg.key.get_pressed()], indexed by key code *)
  key_lst : Z -> bool;
  (** [pg.mouse.get_pos()] *)
  mouse_pos : Z * Z;
  (** [(cos(radians(angle)), -sin(radians(angle)))] of the enemy spawn *)
  enemy_spawn_dir : Q * Q;
  (** the scaled zombie image picked by [random.choice] *)
  enemy_img : Surface;
  (** the same pair for the boss spawn *)
  boss_spawn_dir : Q * Q;
  (** [clock.tick(max_fps)], in milliseconds *)
  tick_ms : Z
}.

(** How one pass of the loop ends: it falls through to the next pass, or
    [main] returns (window closed, game over, game clear), or an exception
    leaves it. *)
Inductive Outcome :=
| Continue (g : Game)
| Quit
| GameOver
| GameClear
| ZeroDivisionError.

(** The characters a bullet can hit, by the group it is aimed at. *)
Record Targets := mkTargets {
  t_player : Character;
  t_enemies : list Character;
  t_boss : list Character
}.

Definition members (gid : GroupId) (T : Targets) : list Character :=
  match gid with
  | G_player_group => [t_player T]
  | G_enemies => t_enemies T
  | G_boss => t_boss T
  | _ => []
  end.

Definition put_members (gid : GroupId) (l : list Character) (T : Targets)
    : Targets :=
  match gid with
  | G_player_group => mkTargets (default (t_player T) (head l)) (t_enemies T) (t_boss T)
  | G_enemies => mkTargets (t_player T) l (t_boss T)
  | G_boss => mkTargets (t_player T) (t_enemies T) l
  | _ => T
  end.

Section Main.

Variable assets : Assets.

(** The event loop at the top of a pass: the frame-rate cap afterwards, or
    [None] for [return 0] on QUIT, and what was printed. *)
Fixpoint handle_events (evs : list PgEvent) (fps : Z) : option Z * list Event :=
  match evs with
  | [] => (Some fps, [])
  | QUIT :: _ => (None, [])
  | KEYDOWN key :: rest =>
    let '(fps1, ev1) := if key =? K_F1 then (60, [EvPrintFps 60]) else (fps, []) in
    let '(fps2, ev2) := if key =? K_F2 then (30, [EvPrintFps 30]) else (fps1, []) in
    let '(fps3, ev3) := if key =? K_F3 then (15, [EvPrintFps 15]) else (fps2, []) in
    let '(r, ev4) := handle_events rest fps3 in
    (r, ev1 ++ ev2 ++ ev3 ++ ev4)
  | OtherEvent :: rest => handle_events rest fps
  end.

(** The score thresholds that raise the player's fire rate and beam count. *)
Definition difficulty (sc : Z) (p : Character) : Character :=
  match kind p with
  | KPlayer d s ai an =>
    if (500 <=? sc) && (sc <? 1500) then with_kind (KPlayer d s (1 # 10) an) p
    else if 1500 <=? sc then with_kind (KPlayer d s (1 # 10) 3) p
    else p
  | _ => p
  end.

(** The spawn position, as [rect.center] stores it. *)
Definition spawn_point (cam : Camera) (dir : Q * Q) : Z * Z :=
  (Qtrunc (fst (center_pos cam) + fst dir * 1000),
   Qtrunc (snd (center_pos cam) + snd dir * 1000)).

(** [for _ in spritecollide(player, enemies, False): player.give_damage(10)] *)
Definition player_vs_enemies (p : Character) (es : list Character) : Character :=
  foldl (fun p' _ => give_damage assets 10 p') p
        (filter (fun e => colliderect (rect p) (rect e) = true) es).

(** The loop over the bosses that [groupcollide(boss, bullets, False, True)]
    returned. *)
Fixpoint boss_damage (l : list (Character * bool)) (sc : Z)
    : list Character * Z * list Event :=
  match l with
  | [] => ([], sc, [])
  | (b, false) :: rest =>
    let '(bs, sc', ev) := boss_damage rest sc in (b :: bs, sc', ev)
  | (b, true) :: rest =>
    let b1 := give_damage assets 10 b in
    let '(sc1, ev1) :=
      if hp b1 <=? 0 then (sc + 40, [EvScoreUp b b1 40]) else (sc, []) in
    let '(bs, sc', ev) := boss_damage rest sc1 in
    (b1 :: bs, sc', ev1 ++ ev)
  end.

(** The last steps of both ends of the game: overlay text, one more player
    update and draw, a two second sleep. *)
Definition final_frame (i : Input) (g : Game) (p : Character) (txt : Text)
    (num : Z) : list Event :=
  let p1 := Player_update assets (key_lst i) (dtime g)
              (change_img assets num 10 (Some 250%Q) p) in
  [EvText txt; EvPlayerUpdate]
  ++ snd (Group_support_camera_draw (camera g) [p1])
  ++ [EvDisplayUpdate; EvSleep 2].

(** The attack block: the bullets group and [clk] afterwards; [None] is the
    ZeroDivisionError of [calc_orientation]. *)
Definition fire (i : Input) (cam : Camera) (p : Character) (bs : list Bullet)
    (clk0 : Q) : option (list Bullet * Q) :=
  match kind p with
  | KPlayer _ _ attack_interval attack_number =>
    if Qlt_bool attack_interval clk0 then
      let mx := (inject_Z (fst (mouse_pos i)) - inject_Z (screen_w cam) / 2)%Q in
      let my := (inject_Z (snd (mouse_pos i)) - inject_Z (screen_h cam) / 2)%Q in
      match calc_orientation (Zpair_to_Q (center (rect p)))
              ((mx + fst (center_pos cam))%Q, (my + snd (center_pos cam))%Q) with
      | None => None
      | Some direction =>
        let bullet_img := mkSurface "bullet" 20 10 in
        if attack_number =? 3 then
          Some (bs ++ gen_beams assets bullet_img p direction G_enemies, 0%Q)
        else
          Some (bs ++ [Bullet_init assets bullet_img (center (rect p)) direction
                         G_enemies 1000 10 5 false], 0%Q)
      end
    else Some (bs, clk0)
  | _ => Some (bs, clk0)
  end.

(** [boss.update(dtime)]: the bosses afterwards and the flames they added. *)
Definition update_boss (dt : Q) (target : Character) (bs : list Character)
    : option (list Character * list Bullet) :=
  match mapM (BOSS_update assets dt target) bs with
  | None => None
  | Some l => Some (l.*1, concat (l.*2))
  end.

(** One [Bullet.update] inside [Group.update]: the bullet reads and changes
    the group it is aimed at. *)
Definition bullet_step (dt : Q)
    (st : Targets * Z * list Event * list Bullet) (b : Bullet)
    : Targets * Z * list Event * list Bullet :=
  let '(T, sc, ev, acc) := st in
  let '(b', grp', sc', ev') :=
    Bullet_update assets dt b (members (attackable_group b) T) sc in
  (put_members (attackable_group b) grp' T, sc', ev ++ ev', acc ++ [b']).

(** [group.update(dtime, score)] of a group of bullets: every member of the
    group at the time of the call is updated; the group afterwards holds
    those that did not kill themselves. *)
Definition update_bullets (dt : Q) (T : Targets) (sc : Z) (bs : list Bullet)
    : Targets * Z * list Event * list Bullet :=
  let '(T', sc', ev, acc) := foldl (bullet_step dt) (T, sc, [], []) bs in
  (T', sc', ev, filter (fun b => b_alive b = true) acc).

(** The top of a pass after the event loop: difficulty thresholds, sound,
    the two spawners and the three collision passes. *)
Definition spawn_and_collide (i : Input) (g : Game) : Game * list Event :=
  let p1 := difficulty (score g) (player g) in
  let '(es1, etmr0) :=
    if Qlt_bool (5 # 10) (enemy_spawn_interval_tmr g) then
      (enemies g ++ [Enemy_init (enemy_img i)
                       (spawn_point (camera g) (enemy_spawn_dir i))], 0%Q)
    else (enemies g, enemy_spawn_interval_tmr g) in
  let '(bo1, btmr0) :=
    if Qlt_bool 3 (boss_spawn_interval_tmr g) then
      (boss g ++ [BOSS_init assets
                    (spawn_point (camera g) (boss_spawn_dir i))], 0%Q)
    else (boss g, boss_spawn_interval_tmr g) in
  let '(fl1, bs1) := groupcollide_kill_both (flame g) (bullets g) in
  let p2 := player_vs_enemies p1 es1 in
  let '(crashed, bs2) := groupcollide_kill_b bo1 bs1 in
  let '(bo2, sc1, ev1) := boss_damage crashed (score g) in
  (mkGame (max_fps g) (dtime g) (gameFlag g) (camera g) (background g) p2
          bs2 es1 (filter (fun b => alive b = true) bo2) fl1 sc1 (clk g)
          (etmr0 + dtime g)%Q (btmr0 + dtime g)%Q (suvivetime g),
   EvSound :: ev1).

(** [background.update()] and [background.draw(screen)]; [None] is the
    ZeroDivisionError of [Background.update]. *)
Definition scroll_background (g : Game) : option (Game * list Event) :=
  match mapM (Background_update (camera g)) (background g) with
  | None => None
  | Some bg1 =>
    let '(bg2, d0) := Group_support_camera_draw (camera g) bg1 in
    Some (mkGame (max_fps g) (dtime g) (gameFlag g) (camera g) bg2 (player g)
                 (bullets g) (enemies g) (boss g) (flame g) (score g) (clk g)
                 (enemy_spawn_interval_tmr g) (boss_spawn_interval_tmr g)
                 (suvivetime g),
          EvGroupUpdate G_background :: d0)
  end.

(** The part of a pass after the win/lose checks: player update, camera
    follow, attack, group updates, drawing, timers. *)
Definition play (i : Input) (g : Game) : Outcome * list Event :=
  let p1 := Player_update assets (key_lst i) (dtime g) (player g) in
  let cam := mkCamera (Zpair_to_Q (center (rect p1)))
                      (screen_w (camera g)) (screen_h (camera g)) in
  match fire i cam p1 (bullets g) (clk g) with
  | None => (ZeroDivisionError, [EvPlayerUpdate])
  | Some (bs1, clk1) =>
    match mapM (Enemy_update (dtime g) p1) (enemies g) with
    | None => (ZeroDivisionError, [EvPlayerUpdate; EvGroupUpdate G_enemies])
    | Some es1 =>
      match update_boss (dtime g) p1 (boss g) with
      | None =>
        (ZeroDivisionError,
         [EvPlayerUpdate; EvGroupUpdate G_enemies; EvGroupUpdate G_boss])
      | Some (bo1, new_flames) =>
        let fl1 := flame g ++ new_flames in
        let '(T1, sc1, ev1, bs2) :=
          update_bullets (dtime g) (mkTargets p1 es1 bo1) (score g) bs1 in
        let '(T2, sc2, ev2, fl2) := update_bullets (dtime g) T1 sc1 fl1 in
        let '(pg, d1) := Group_support_camera_draw cam [t_player T2] in
        let '(bs3, d2) := Group_support_camera_draw cam bs2 in
        let '(es3, d3) := Group_support_camera_draw cam (t_enemies T2) in
        let '(bo3, d4) := Group_support_camera_draw cam (t_boss T2) in
        let '(fl3, d5) := Group_support_camera_draw cam fl2 in
        (Continue
           (mkGame (max_fps g) (inject_Z (tick_ms i) / 1000)%Q (gameFlag g)
                   cam (background g) (default (t_player T2) (head pg))
                   bs3 es3 bo3 fl3 sc2 (clk1 + dtime g)%Q
                   (enemy_spawn_interval_tmr g) (boss_spawn_interval_tmr g)
                   (suvivetime g + dtime g)%Q),
         [EvPlayerUpdate; EvGroupUpdate G_enemies; EvGroupUpdate G_boss;
          EvGroupUpdate G_bullets] ++ ev1 ++ [EvGroupUpdate G_flame] ++ ev2
         ++ d1 ++ d2 ++ d3 ++ d4 ++ d5
         ++ [EvText (TScore sc2); EvDisplayUpdate])
      end
    end
  end.

Definition with_max_fps (fps : Z) (g : Game) : Game :=
  mkGame fps (dtime g) (gameFlag g) (camera g) (background g) (player g)
         (bullets g) (enemies g) (boss g) (flame g) (score g) (clk g)
         (enemy_spawn_interval_tmr g) (boss_spawn_interval_tmr g)
         (suvivetime g).

Definition with_gameFlag (flag : bool) (g : Game) : Game :=
  mkGame (max_fps g) (dtime g) flag (camera g) (background g) (player g)
         (bullets g) (enemies g) (boss g) (flame g) (score g) (clk g)
         (enemy_spawn_interval_tmr g) (boss_spawn_interval_tmr g)
         (suvivetime g).

(** The win/lose checks and what follows them. *)
Definition check_phase (i : Input) (g : Game) : Outcome * list Event :=
  if hp (player g) <=? 0 then
    (GameOver, final_frame i g (player g) TGameOver 8)
  else
    let g1 := if 60 <=? Qtrunc (suvivetime g) then with_gameFlag true g else g in
    let countdown := EvText (TCountdown (Qtrunc (60 - suvivetime g))) in
    if gameFlag g1 then
      (GameClear, countdown :: final_frame i g1 (player g1) TGameClear 9)
    else
      let '(out, ev) := play i g1 in (out, countdown :: ev).

(** One pass of the [while True] loop of [main]. *)
Definition frame (i : Input) (g : Game) : Outcome * list Event :=
  match handle_events (events i) (max_fps g) with
  | (None, ev0) => (Quit, ev0)
  | (Some fps, ev0) =>
    let '(g1, ev1) := spawn_and_collide i (with_max_fps fps g) in
    match scroll_background g1 with
    | None => (ZeroDivisionError, ev0 ++ ev1)
    | Some (g2, ev2) =>
      let '(out, ev3) := check_phase i g2 in
      (out, ev0 ++ ev1 ++ ev2 ++ ev3)
    end
  end.

(** [main] up to its loop: the state at the first pass. *)
Definition main_init : Game :=
  let cam := mkCamera (0, 0)%Q 1600 900 in
  mkGame 60 0 false cam
         (flat_map (fun i => map (fun j =>
              mkBackground (background_png assets)
                           (mkRect 0 0 (surf_w (background_png assets))
                                   (surf_h (background_png assets)))
                           (i, j)) [-1; 0; 1]) [-2; -1; 0; 1; 2])
         (Player_init assets (0, 0)) [] [] [] [] 0 0 0 0 0.

(** The loop of [main] over the inputs of successive passes: it stops at the
    first pass that does not fall through.  A run that used up its inputs
    ends in [Continue] with the state reached. *)
Fixpoint run (inputs : list Input) (g : Game) : Outcome * list Event :=
  match inputs with
  | [] => (Continue g, [])
  | i :: rest =>
    match frame i g with
    | (Continue g', ev) =>
      let '(out, ev') := run rest g' in (out, ev ++ ev')
    | (out, ev) => (out, ev)
    end
  end.

End Main.

(** * Sample data *)

Definition demo_surface (name : string) (w h : Z) : Surface := mkSurface name w h.

Definition demo_assets : Assets :=
  mkAssets (fun _ => demo_surface "fig" 58 58)
           (fun _ => demo_surface "move" 58 58)
           (demo_surface "alien2" 300 300)
           (demo_surface "flame" 40 40)
           (demo_surface "background" 1600 900)
           (fun img _ _ => img)
           (fun dx dy _ => (dx, dy)).


(** The sum of a list of time steps. *)
Definition Qsum (l : list Q) : Q := foldr Qplus 0%Q l.

(** A character ticked once per time step of the list. *)
Definition ticks (dts : list Q) (c : Character) : Character :=
  foldl (fun x dt => Character_update dt x) c dts.

(** A bare character with three image layers: a permanent base layer, one
    whose time has run out, and a fresh one on top. *)
Definition layered_character : Character :=
  mkCharacter KCharacter 10 0 (-1)
    (<[5 := (demo_surface "top" 1 1, Some 2%Q)]>
       (<[3 := (demo_surface "stale" 1 1, Some (-1)%Q)]>
          {[ 0 := (demo_surface "base" 1 1, None) ]}))
    None (mkRect 0 0 1 1) true.

(** A character whose top layer has run out. *)
Definition expiring_character : Character :=
  mkCharacter KCharacter 10 0 (-1)
    (<[5 := (demo_surface "top" 1 1, Some (-1)%Q)]>
       {[ 0 := (demo_surface "base" 1 1, None) ]})
    None (mkRect 0 0 1 1) true.

(** What the collision loop of a bullet does to one member of its target
    group. *)
Definition hit (A : Assets) (b : Bullet) (t : Character) : Character :=
  if colliderect (b_rect b) (rect t) then give_damage A (damage b) t else t.

(** The [score_up] call that one member of the target group triggers. *)
Definition hit_events (A : Assets) (b : Bullet) (t : Character) : list Event :=
  if colliderect (b_rect b) (rect t) then
    if (hp (give_damage A (damage b) t) <=? 0)
       && is_Enemy_Base (give_damage A (damage b) t)
    then [EvScoreUp t (give_damage A (damage b) t)
                    (get_score (give_damage A (damage b) t))]
    else []
  else [].

(** The total of the [score_up] calls in a trace. *)
Definition score_adds (ev : list Event) : Z :=
  foldr (fun e acc => match e with
                      | EvScoreUp _ _ add => add + acc
                      | _ => acc
                      end) 0 ev.

(** The square of the number a [Surd] stands for. *)
Definition Surd_sq (s : Surd) : Q := (coef s * coef s * radicand s)%Q.

(** The whole number of pixels [d] a rectangle moves when [move_ip] is handed
    the float [p]: [d] points the way of [p], is never longer than [p] and is
    short of it by at most one pixel.  The bounds are closed on both sides:
    a product that is a whole number [n] in exact arithmetic can come out of
    the double multiplication just below [n], and the rectangle then moves
    [n - 1] pixels. *)
Definition pixel_step (p : Surd) (d : Z) : Prop :=
  ((0 <= coef p)%Q -> 0 <= d) /\
  ((coef p <= 0)%Q -> d <= 0) /\
  (inject_Z (d * d) <= Surd_sq p)%Q /\
  (Surd_sq p <= inject_Z ((Z.abs d + 1) * (Z.abs d + 1)))%Q.

(** [self.speed * self.vx * dtime] and [self.speed * self.vy * dtime], the
    two arguments of the [move_ip] of [Bullet.update]. *)
Definition Bullet_step_x (dt : Q) (b : Bullet) : Surd :=
  Surd_mul_Q (Surd_mul_Q (vx b) (inject_Z (speed b))) dt.
Definition Bullet_step_y (dt : Q) (b : Bullet) : Surd :=
  Surd_mul_Q (Surd_mul_Q (vy b) (inject_Z (speed b))) dt.

(** A bullet ticked [n] times with nothing to hit. *)
Definition free_flight (A : Assets) (dt : Q) (n : nat) (b : Bullet) : Bullet :=
  Nat.iter n (fun x => (Bullet_update_marked A dt x [] 0).1.1.1) b.

(** The projectile of the scenario: at (0,0), direction (1,0), speed 500,
    life span 5 seconds. *)
Definition scenario_bullet : Bullet :=
  Bullet_init demo_assets (demo_surface "bullet" 20 10) (0, 0)
              (Surd_of_Q 1, Surd_of_Q 0) G_enemies 500 10 5 false.

(** Two enemies standing on the same spot. *)
Definition enemy_a : Character := Enemy_init (demo_surface "zonbi1" 100 100) (30, 0).
Definition enemy_b : Character := Enemy_init (demo_surface "zonbi2" 120 90) (40, 0).

(** A bullet past its life span, and an enemy one hit from defeat. *)
Definition expired_bullet : Bullet := b_with_life_tmr 6 scenario_bullet.
Definition weak_enemy : Character := with_hp 10 enemy_a.

(** The laws a sprite's rectangle accessors obey. *)
Class SpriteLaws (S : Type) `{Sprite S} : Prop := {
  sprite_rect_with_rect :
    forall r s, sprite_rect (sprite_with_rect r s) = r;
  sprite_with_rect_twice :
    forall r r' s, sprite_with_rect r (sprite_with_rect r' s) = sprite_with_rect r s;
  sprite_with_rect_same :
    forall s, sprite_with_rect (sprite_rect s) s = s;
  sprite_image_with_rect :
    forall r s, sprite_image (sprite_with_rect r s) = sprite_image s
}.

(** Where [Group_support_camera.draw] blits a sprite. *)
Definition on_screen (cam : Camera) (r : Rect) : Rect :=
  move_ip (Qtrunc (- fst (center_pos cam) + inject_Z (screen_w cam) / 2))
          (Qtrunc (- snd (center_pos cam) + inject_Z (screen_h cam) / 2)) r.

(** A boss and a player 30 pixels apart. *)
Definition near_boss : Character := BOSS_init demo_assets (30, 0).
Definition near_player : Character := Player_init demo_assets (0, 0).

(** An input with no event and no key pressed; the spawners would place an
    enemy to the right and a boss to the left. *)
Definition idle_input (ms : Z) (mouse : Z * Z) : Input :=
  mkInput [] (fun _ => false) mouse (1, 0)%Q (demo_surface "zonbi1" 100 100)
          (-1, 0)%Q ms.

(** A quarter of a second per pass, the pointer in the middle of the
    1600 x 900 window. *)
Definition pointer_at_centre : Input := idle_input 250 (800, 450).

(** A tenth of a second per pass, the pointer at the right edge. *)
Definition aim_right : Input := idle_input 100 (1600, 450).

(** One second per pass, the pointer at the left edge. *)
Definition aim_left : Input := idle_input 1000 (0, 450).

(** Sixty-one seconds per pass. *)
Definition long_pass : Input := idle_input 61000 (0, 450).

(** A large enemy and a small player whose rectangles share their top-left
    corner: the centres are 70 pixels apart. *)
Definition corner_enemy : Character :=
  with_rect (mkRect 0 0 150 150) (Enemy_init (demo_surface "zonbi3" 150 150) (0, 0)).
Definition corner_player : Character :=
  with_rect (mkRect 0 0 50 50) (Player_init demo_assets (0, 0)).

(** The state a run reached, if its last pass fell through. *)
Definition reached (r : Outcome * list Event) : option Game :=
  match r.1 with
  | Continue g => Some g
  | _ => None
  end.

(** ** The phase checks *)

(** The player as the win/lose checks of a pass find it. *)
Definition checked_player (A : Assets) (i : Input) (g : Game) : Character :=
  player (spawn_and_collide A i g).1.

(** The trace of the closing steps of the game. *)
Definition final_events (A : Assets) (i : Input) (g : Game) (txt : Text)
    (num : Z) : list Event :=
  let p := Player_update A (key_lst i) (dtime g)
             (change_img A num 10 (Some 250%Q) (checked_player A i g)) in
  [EvText txt; EvPlayerUpdate;
   EvBlit (image p) (on_screen (camera g) (rect p));
   EvDisplayUpdate; EvSleep 2].

(** A simulation tick of a group of entities.  The background group is
    scenery, not entities. *)
Definition entity_tick (e : Event) : Prop :=
  match e with
  | EvGroupUpdate G_background => False
  | EvGroupUpdate _ => True
  | _ => False
  end.

(** ** The score *)

Definition enemy_ok (e : Character) : Prop :=
  (exists spd, kind e = KEnemy 30 spd) /\ 0 < hp e /\ alive e = true.

Definition boss_ok (b : Character) : Prop :=
  (exists spd tmr, kind b = KBOSS 40 spd tmr) /\ 0 < hp b /\ alive b = true.

Definition player_ok (p : Character) : Prop :=
  (exists d s ai an, kind p = KPlayer d s ai an) /\ alive p = true.

Definition aimed_at (gid : GroupId) (b : Bullet) : Prop :=
  attackable_group b = gid /\ damage b = 10.

(** What holds of the state at the top of every pass of [main]. *)
Record Playing (g : Game) : Prop := mkPlaying {
  playing_flag : gameFlag g = false;
  playing_player : player_ok (player g);
  playing_enemies : Forall enemy_ok (enemies g);
  playing_boss : Forall boss_ok (boss g);
  playing_bullets : Forall (aimed_at G_enemies) (bullets g);
  playing_flame : Forall (aimed_at G_player_group) (flame g)
}.

(** A [score_up] call that rewards a defeat: the target was a living enemy
    or boss in its group, a projectile's hit of 10 took its health to zero
    or below, and the amount is the target's score. *)
Definition kill_event (A : Assets) (e : Event) : Prop :=
  match e with
  | EvScoreUp before after add =>
    (enemy_ok before \/ boss_ok before) /\
    after = give_damage A 10 before /\
    hp after <= 0 /\
    add = get_score before
  | _ => True
  end.

(** A trace without [score_up]. *)
Definition no_score_up (e : Event) : Prop :=
  match e with
  | EvScoreUp _ _ _ => False
  | _ => True
  end.

Definition T_ok (T : Targets) : Prop :=
  player_ok (t_player T) /\ Forall enemy_ok (t_enemies T)
  /\ Forall boss_ok (t_boss T).

(** An event that is neither a group update nor a [score_up]. *)
Definition quiet (e : Event) : Prop :=
  match e with
  | EvScoreUp _ _ _ | EvGroupUpdate _ => False
  | _ => True
  end.

(** The state after two passes of sixty-one seconds, and after eighteen
    passes of one second with the pointer away from the enemies. *)
Definition after_61_seconds : Game :=
  default (main_init demo_assets)
          (reached (run demo_assets [long_pass; long_pass]
                        (main_init demo_assets))).
Definition after_18_seconds : Game :=
  default (main_init demo_assets)
          (reached (run demo_assets (replicate 18 aim_left)
                        (main_init demo_assets))).

(** The states after ten and after twenty passes of a tenth of a second
    with the pointer toward the spawning enemies. *)
Definition after_1_second : Game :=
  default (main_init demo_assets)
          (reached (run demo_assets (replicate 10 aim_right)
                        (main_init demo_assets))).
Definition after_2_seconds : Game :=
  default (main_init demo_assets)
          (reached (run demo_assets (replicate 20 aim_right)
                        (main_init demo_assets))).

(** ** Notions used by the further properties *)

(** The sign of a rational and of the number a [Surd] with a positive
    radicand stands for: 1, 0 or -1. *)
Definition Qsgn (q : Q) : Z := Z.sgn (Qnum q).
Definition Surd_sgn (s : Surd) : Z := Qsgn (coef s).

(** [Player.get_direction] *)
Definition get_direction (p : Character) : Z * Z :=
  match kind p with
  | KPlayer dire _ _ _ => dire
  | _ => (0, 0)
  end.

(** The squared distance between the centres of two rectangles. *)
Definition centre_dist2 (a b : Rect) : Z :=
  (centerx b - centerx a) * (centerx b - centerx a)
  + (centery b - centery a) * (centery b - centery a).

(** The squared length of the move from one rectangle to another. *)
Definition moved2 (a b : Rect) : Z :=
  (rx b - rx a) * (rx b - rx a) + (ry b - ry a) * (ry b - ry a).

(** An enemy far from the player of [near_player]. *)
Definition far_enemy : Character :=
  Enemy_init (demo_surface "zonbi1" 100 100) (300, 400).

(** A boss far from the player whose attack timer has passed one second. *)
Definition far_boss : Character :=
  with_kind (KBOSS 40 100 (3 # 2)) (BOSS_init demo_assets (0, 600)).

(** The net direction along one axis of two opposite keys. *)
Definition key_axis (neg pos : bool) : Z :=
  (if pos then 1 else 0) - (if neg then 1 else 0).

(** Only the key [d] is held down. *)
Definition only_d (k : Z) : bool := k =? K_d.

(** The keys whose presses the event loop handles before it meets a QUIT,
    and the lines one such press makes it print. *)
Fixpoint keys_before_quit (evs : list PgEvent) : list Z :=
  match evs with
  | KEYDOWN key :: rest => key :: keys_before_quit rest
  | OtherEvent :: rest => keys_before_quit rest
  | _ => []
  end.

Definition fps_messages (key : Z) : list Event :=
  (if key =? K_F1 then [EvPrintFps 60] else [])
  ++ (if key =? K_F2 then [EvPrintFps 30] else [])
  ++ (if key =? K_F3 then [EvPrintFps 15] else []).

(** A pass whose event queue holds a key press and then the window's close
    event. *)
Definition closing_input : Input :=
  mkInput [KEYDOWN K_F2; QUIT] (fun _ => false) (0, 0) (1, 0)%Q
          (demo_surface "zonbi1" 100 100) (-1, 0)%Q 16.

(** The background tile of offset (0,0) for the sample assets, and a camera
    centred on (2000, -500). *)
Definition middle_tile : Background :=
  mkBackground (background_png demo_assets) (mkRect 0 0 1600 900) (0, 0).
Definition roaming_camera : Camera := mkCamera (2000, -500)%Q 1600 900.

(** The state one pass after [after_1_second]. *)
Definition after_11_passes : Game :=
  default (main_init demo_assets)
          (reached (run demo_assets (replicate 11 aim_right)
                        (main_init demo_assets))).

(** [clock.tick() / 1000]: the milliseconds of the frame clock as the
    seconds the loop works with, and the total of a list of milliseconds. *)
Definition ms_seconds (ms : Z) : Q := (inject_Z ms / 1000)%Q.
Definition total_ms (ks : list Z) : Z := foldr Z.add 0 ks.

(** The time step a pass hands to the next one. *)
Definition tick_seconds (i : Input) : Q := (inject_Z (tick_ms i) / 1000)%Q.

(** The state a run from the start of [main] has reached after the passes
    of a list of inputs. *)
Definition state_after (inputs : list Input) : Game :=
  default (main_init demo_assets)
          (reached (run demo_assets inputs (main_init demo_assets))).
(** * Properties *)

(** ** Arithmetic of the exact numbers *)

Lemma Qlt_bool_iff (a b : Q) : Qlt_bool a b = true <-> (a < b)%Q.
Proof.
  unfold Qlt_bool. rewrite negb_true_iff.
  destruct (Qle_bool b a) eqn:E.
  - apply Qle_bool_iff in E. split; [discriminate|].
    intros Hlt. exfalso. exact (Qlt_not_le _ _ Hlt E).
  - split; [intros _|reflexivity].
    apply Qnot_le_lt. intros Hle. apply Qle_bool_iff in Hle. congruence.
Qed.

Lemma Qlt_bool_false_iff (a b : Q) : Qlt_bool a b = false <-> (b <= a)%Q.
Proof.
  unfold Qlt_bool. rewrite negb_false_iff. apply Qle_bool_iff.
Qed.

Lemma py_max_lower (a b : Q) : (b <= py_max a b)%Q.
Proof.
  unfold py_max. destruct (Qlt_bool a b) eqn:E.
  - apply Qle_refl.
  - now apply Qlt_bool_false_iff.
Qed.

Lemma py_max_left (a b : Q) : (a <= py_max a b)%Q.
Proof.
  unfold py_max. destruct (Qlt_bool a b) eqn:E.
  - apply Qlt_le_weak. now apply Qlt_bool_iff.
  - apply Qle_refl.
Qed.

Lemma py_max_keeps (a b : Q) : (b <= a)%Q -> py_max a b = a.
Proof.
  intros Hle. unfold py_max.
  apply Qlt_bool_false_iff in Hle. now rewrite Hle.
Qed.

Lemma Qtrunc_opp (q : Q) : Qtrunc (- q) = - Qtrunc q.
Proof.
  unfold Qtrunc. destruct q as [n d]. simpl. apply Z.quot_opp_l. discriminate.
Qed.

(** [Surd_trunc] is the cut toward zero of [coef * sqrt radicand]: its
    square is at most the square of the number, the square of the next
    integer away from zero is above it, and it has the sign of [coef]. *)
Lemma Surd_trunc_bounds (s : Surd) :
  (0 <= radicand s)%Q ->
  (inject_Z (Surd_trunc s * Surd_trunc s) <= coef s * coef s * radicand s)%Q /\
  (coef s * coef s * radicand s
   < inject_Z ((Z.abs (Surd_trunc s) + 1) * (Z.abs (Surd_trunc s) + 1)))%Q /\
  ((coef s < 0)%Q -> Surd_trunc s <= 0) /\
  ((0 <= coef s)%Q -> 0 <= Surd_trunc s).
Proof.
  intros Hr. unfold Surd_trunc.
  set (x := (coef s * coef s * radicand s)%Q).
  assert (Hx : (0 <= x)%Q).
  { unfold x. apply Qmult_le_0_compat; [|exact Hr].
    nra. }
  assert (Ha : 0 <= Qfloor x).
  { change 0 with (Qfloor 0). now apply Qfloor_resp_le. }
  pose proof (Z.sqrt_spec (Qfloor x) Ha) as [Hlo Hhi].
  pose proof (Z.sqrt_nonneg (Qfloor x)) as Hs.
  pose proof (Qfloor_le x) as Hfl. pose proof (Qlt_floor x) as Hfu.
  set (m := Z.sqrt (Qfloor x)) in *.
  assert (H1 : (inject_Z (m * m) <= x)%Q).
  { eapply Qle_trans; [|exact Hfl]. rewrite <- Zle_Qle. exact Hlo. }
  assert (H2 : (x < inject_Z ((m + 1) * (m + 1)))%Q).
  { eapply Qlt_le_trans; [exact Hfu|]. rewrite <- Zle_Qle.
    unfold Z.succ in Hhi. lia. }
  destruct (Qlt_bool (coef s) 0) eqn:E.
  - apply Qlt_bool_iff in E.
    replace (- m * - m) with (m * m) by ring.
    replace (Z.abs (- m)) with m by lia.
    split; [exact H1|]. split; [exact H2|]. split; [lia|]. intros Hc. lra.
  - apply Qlt_bool_false_iff in E.
    replace (Z.abs m) with m by lia.
    split; [exact H1|]. split; [exact H2|]. split; [|lia]. intros Hc. lra.
Qed.

(** The cut is a whole-pixel step of the number. *)
Lemma Surd_trunc_pixel_step (s : Surd) :
  (0 <= radicand s)%Q -> pixel_step s (Surd_trunc s).
Proof.
  intros Hr. destruct (Surd_trunc_bounds s Hr) as (Hlo & Hhi & Hneg & Hpos).
  unfold pixel_step, Surd_sq.
  split; [exact Hpos|]. split; [|split; [exact Hlo|apply Qlt_le_weak, Hhi]].
  intros Hc. destruct (Qlt_le_dec (coef s) 0) as [Hlt|Hge]; [now apply Hneg|].
  assert (Hz : (coef s * coef s * radicand s == 0)%Q).
  { assert (Hc0 : (coef s == 0)%Q) by lra. rewrite Hc0. ring. }
  rewrite Hz in Hlo. rewrite <- (Zle_Qle _ 0) in Hlo. nia.
Qed.

(** On a rational it is the rational's own cut toward zero. *)
Lemma Surd_trunc_of_Q (q : Q) : Surd_trunc (Surd_of_Q q) = Qtrunc q.
Proof.
  unfold Surd_trunc, Surd_of_Q, Qtrunc, Qlt_bool. simpl.
  destruct q as [n d]. unfold Qfloor, Qle_bool. simpl.
  rewrite !Z.mul_1_r, Pos.mul_1_r.
  assert (Hsq : Z.sqrt (n * n / Z.pos (d * d)) = Z.abs n / Z.pos d).
  { apply Z.sqrt_unique.
    pose proof (Z.div_pos (Z.abs n) (Z.pos d) ltac:(lia) ltac:(lia)) as Hk.
    pose proof (Z.mul_div_le (Z.abs n) (Z.pos d) ltac:(lia)) as Hlo.
    pose proof (Z.mul_succ_div_gt (Z.abs n) (Z.pos d) ltac:(lia)) as Hhi.
    rewrite <- (Z.abs_square n).
    pose proof (Z.abs_nonneg n) as Hn.
    generalize dependent (Z.abs n / Z.pos d). generalize dependent (Z.abs n).
    intros a Ha k Hk Hlo Hhi.
    rewrite Pos2Z.inj_mul. unfold Z.succ in *.
    assert (Hd : 0 < Z.pos d * Z.pos d) by (apply Z.mul_pos_pos; lia).
    assert (Hdk : 0 <= Z.pos d * k) by (apply Z.mul_nonneg_nonneg; lia).
    split.
    - apply Z.div_le_lower_bound; [exact Hd|].
      replace (Z.pos d * Z.pos d * (k * k)) with ((Z.pos d * k) * (Z.pos d * k)) by ring.
      apply Z.mul_le_mono_nonneg; lia.
    - apply Z.div_lt_upper_bound; [exact Hd|].
      replace (Z.pos d * Z.pos d * ((k + 1) * (k + 1)))
        with ((Z.pos d * (k + 1)) * (Z.pos d * (k + 1))) by ring.
      apply Z.mul_lt_mono_nonneg; lia. }
  rewrite Hsq. change (0 * Z.pos d) with 0.
  destruct (0 <=? n) eqn:E; simpl.
  - apply Z.leb_le in E. rewrite Z.abs_eq by lia.
    symmetry. apply Z.quot_div_nonneg; lia.
  - apply Z.leb_gt in E. rewrite Z.abs_neq by lia.
    rewrite <- Z.quot_div_nonneg by lia. rewrite Z.quot_opp_l by lia. lia.
Qed.

(** ** The largest key of a dict *)

Lemma foldr_max_spec (l : list Z) (k : Z) :
  foldr (fun k acc => match acc with
                      | None => Some k
                      | Some j => Some (Z.max k j)
                      end) None l = Some k ->
  k ∈ l /\ forall j, j ∈ l -> j <= k.
Proof.
  revert k. induction l as [|a l IH]; intros k; simpl; [discriminate|].
  destruct (foldr _ None l) as [j|] eqn:E.
  - intros [= <-]. destruct (IH j eq_refl) as [Hin Hmax]. split.
    + destruct (Z.max_spec a j) as [[_ ->]|[_ ->]];
        [now apply list_elem_of_further | apply list_elem_of_here].
    + intros i Hi. apply elem_of_cons in Hi as [->|Hi]; [lia|].
      specialize (Hmax i Hi). lia.
  - intros [= <-]. destruct l as [|b l].
    + split; [apply list_elem_of_here|].
      intros i Hi. apply elem_of_cons in Hi as [->|Hi]; [lia|].
      now apply elem_of_nil in Hi.
    + simpl in E. destruct (foldr _ None l); discriminate.
Qed.

Lemma foldr_max_none (l : list Z) :
  foldr (fun k acc => match acc with
                      | None => Some k
                      | Some j => Some (Z.max k j)
                      end) None l = None -> l = [].
Proof.
  destruct l as [|a l]; [reflexivity|]. simpl.
  destruct (foldr _ None l); discriminate.
Qed.

Lemma dict_max_Some {V} (m : gmap Z V) (k : Z) :
  dict_max m = Some k ->
  is_Some (m !! k) /\ forall j, is_Some (m !! j) -> j <= k.
Proof.
  unfold dict_max. intros Hk. apply foldr_max_spec in Hk as [Hin Hmax]. split.
  - apply list_elem_of_fmap in Hin as [[k' v] [-> Hin]].
    apply elem_of_map_to_list in Hin. now exists v.
  - intros j [v Hj]. apply Hmax. apply list_elem_of_fmap.
    exists (j, v). split; [reflexivity|]. now apply elem_of_map_to_list.
Qed.

Lemma dict_max_None {V} (m : gmap Z V) : dict_max m = None -> m = ∅.
Proof.
  unfold dict_max. intros Hk. apply foldr_max_none in Hk.
  apply fmap_nil_inv in Hk. now apply map_to_list_empty_iff.
Qed.

(** ** Character.give_damage and Character.update *)

Lemma hp_kill (c : Character) : hp (kill c) = hp c.
Proof. unfold kill. now destruct (kind c). Qed.

Lemma invincible_tmr_kill (c : Character) : invincible_tmr (kill c) = invincible_tmr c.
Proof. unfold kill. now destruct (kind c). Qed.

Lemma hp_damaged (A : Assets) (c : Character) : hp (damaged A c) = hp c.
Proof. unfold damaged. now destruct (kind c). Qed.

Lemma invincible_tmr_damaged (A : Assets) (c : Character) :
  invincible_tmr (damaged A c) = invincible_tmr c.
Proof. unfold damaged. now destruct (kind c). Qed.

Lemma give_damage_invincible (A : Assets) (dmg : Z) (c : Character) :
  (0 < invincible_tmr c)%Q -> hp (give_damage A dmg c) = hp c.
Proof.
  intros Hpos. unfold give_damage.
  destruct (Qle_bool (invincible_tmr c) 0) eqn:E.
  - apply Qle_bool_iff in E. exfalso. exact (Qlt_not_le _ _ Hpos E).
  - destruct (hp c <=? 0); [apply hp_kill | reflexivity].
Qed.

Lemma give_damage_vulnerable (A : Assets) (dmg : Z) (c : Character) :
  (invincible_tmr c <= 0)%Q ->
  hp (give_damage A dmg c) = hp c - dmg /\
  invincible_tmr (give_damage A dmg c) = max_invincible_tick c.
Proof.
  intros Hle. unfold give_damage.
  apply Qle_bool_iff in Hle. rewrite Hle.
  destruct (hp (damaged A _) <=? 0).
  - rewrite hp_kill, invincible_tmr_kill, hp_damaged, invincible_tmr_damaged.
    now split.
  - rewrite hp_damaged, invincible_tmr_damaged. now split.
Qed.

Lemma kill_fields (c : Character) :
  kind (kill c) = kind c /\ rect (kill c) = rect c /\
  max_invincible_tick (kill c) = max_invincible_tick c /\
  _imgs (kill c) = _imgs c /\ image (kill c) = image c.
Proof. unfold kill. destruct (kind c) eqn:E; simpl; rewrite ?E; tauto. Qed.

Lemma damaged_fields (A : Assets) (c : Character) :
  kind (damaged A c) = kind c /\ rect (damaged A c) = rect c /\
  max_invincible_tick (damaged A c) = max_invincible_tick c /\
  alive (damaged A c) = alive c.
Proof. unfold damaged. destruct (kind c) eqn:E; simpl; rewrite ?E; tauto. Qed.

Lemma give_damage_fields (A : Assets) (dmg : Z) (c : Character) :
  kind (give_damage A dmg c) = kind c /\
  rect (give_damage A dmg c) = rect c /\
  max_invincible_tick (give_damage A dmg c) = max_invincible_tick c.
Proof.
  unfold give_damage.
  destruct (Qle_bool (invincible_tmr c) 0).
  - set (c1 := with_invincible_tmr _ _).
    destruct (kill_fields (damaged A c1)) as (Hk & Hr & Hm & _).
    destruct (damaged_fields A c1) as (Hk' & Hr' & Hm' & _).
    destruct (hp (damaged A c1) <=? 0).
    + rewrite Hk, Hr, Hm, Hk', Hr', Hm'. tauto.
    + rewrite Hk', Hr', Hm'. tauto.
  - destruct (kill_fields c) as (Hk & Hr & Hm & _).
    destruct (hp c <=? 0); [rewrite Hk, Hr, Hm|]; tauto.
Qed.

Lemma Character_update_fields (dt : Q) (c : Character) :
  hp (Character_update dt c) = hp c /\
  kind (Character_update dt c) = kind c /\
  rect (Character_update dt c) = rect c /\
  alive (Character_update dt c) = alive c /\
  max_invincible_tick (Character_update dt c) = max_invincible_tick c /\
  invincible_tmr (Character_update dt c)
  = py_max (invincible_tmr c - dt)%Q (-1)%Q.
Proof.
  unfold Character_update. simpl.
  destruct (dict_max (_imgs c)) as [idx|]; simpl; [|tauto].
  destruct (_imgs c !! idx) as [[img [t|]]|]; simpl; try tauto.
  destruct (Qlt_bool t 0); simpl; tauto.
Qed.

Lemma hp_ticks (dts : list Q) (c : Character) : hp (ticks dts c) = hp c.
Proof.
  revert c. induction dts as [|dt dts IH]; intros c; [reflexivity|].
  unfold ticks in *. simpl. rewrite IH.
  apply Character_update_fields.
Qed.

Lemma invincible_tmr_ticks (dts : list Q) (c : Character) :
  (invincible_tmr c - Qsum dts <= invincible_tmr (ticks dts c))%Q.
Proof.
  revert c. induction dts as [|dt dts IH]; intros c.
  - unfold ticks, Qsum. simpl. lra.
  - unfold ticks in *. simpl. eapply Qle_trans; [|apply IH].
    destruct (Character_update_fields dt c) as (_ & _ & _ & _ & _ & ->).
    pose proof (py_max_left (invincible_tmr c - dt) (-1)) as Hm.
    unfold Qsum in *. simpl. lra.
Qed.

(** C4. [give_damage] while the invincibility timer is positive leaves [hp]
    unchanged; otherwise it subtracts the damage and sets the timer to
    [max_invincible_tick].  Hence a second [give_damage], after ticks that
    together last less than the invincibility duration, does not lower [hp]
    again. *)
Theorem give_damage_once_per_window (A : Assets) (c : Character)
    (d1 d2 : Z) (dts : list Q) :
  ((0 < invincible_tmr c)%Q -> hp (give_damage A d1 c) = hp c) /\
  ((invincible_tmr c <= 0)%Q ->
     hp (give_damage A d1 c) = hp c - d1 /\
     invincible_tmr (give_damage A d1 c) = max_invincible_tick c) /\
  ((invincible_tmr c <= 0)%Q ->
   (Qsum dts < max_invincible_tick c)%Q ->
   hp (give_damage A d2 (ticks dts (give_damage A d1 c))) = hp c - d1).
Proof.
  split; [apply give_damage_invincible|].
  split; [apply give_damage_vulnerable|].
  intros Hle Hsum.
  destruct (give_damage_vulnerable A d1 c Hle) as [Hhp Htmr].
  rewrite give_damage_invincible.
  - now rewrite hp_ticks.
  - pose proof (invincible_tmr_ticks dts (give_damage A d1 c)) as Hge.
    rewrite Htmr in Hge. lra.
Qed.

(** The player of [main] (health 50, two seconds of invincibility) is hit
    for 10, ticked for one second and hit again: health is 40. *)
Lemma give_damage_once_per_window_witness :
  hp (give_damage demo_assets 10
        (ticks [1%Q] (give_damage demo_assets 10
                        (Player_init demo_assets (0, 0))))) = 40.
Proof.
  destruct (give_damage_once_per_window demo_assets
              (Player_init demo_assets (0, 0)) 10 10 [1%Q]) as (_ & _ & H).
  apply H; unfold Qle, Qlt; simpl; lia.
Defined.

(** C2, as stated, fails.  With a base layer, a layer at priority 3 whose
    time has run out and a fresh layer at priority 5, one tick of one second
    neither shortens nor evicts the layer at priority 3; and when the top
    layer is evicted the displayed image is still the evicted one, not the
    highest layer left. *)
Lemma Character_update_all_layers_counterexample :
  _imgs (Character_update 1 layered_character) !! 3
  = Some (demo_surface "stale" 1 1, Some (-1)%Q)
  /\ _imgs (Character_update 1 expiring_character) !! 5 = None
  /\ dict_max (_imgs (Character_update 1 expiring_character)) = Some 0
  /\ image (Character_update 1 expiring_character)
     = Some (demo_surface "top" 1 1).
Proof. vm_compute. repeat split; reflexivity. Qed.

(** C2, amended.  A tick lowers the invincibility timer by [dt] but not
    below -1 and then handles the layer with the largest priority key only:
    that layer's image becomes the displayed image; when its remaining time
    is finite and already negative it is deleted, when finite and not
    negative it is lowered by [dt]; every other layer is left as it was. *)
Theorem Character_update_top_layer_only (dt : Q) (c : Character) :
  (-1 <= invincible_tmr (Character_update dt c))%Q /\
  invincible_tmr (Character_update dt c)
  = py_max (invincible_tmr c - dt)%Q (-1)%Q /\
  match dict_max (_imgs c) with
  | None => _imgs (Character_update dt c) = _imgs c
            /\ image (Character_update dt c) = image c
  | Some k =>
    (forall j, j <> k -> _imgs (Character_update dt c) !! j = _imgs c !! j) /\
    exists img valid_time,
      _imgs c !! k = Some (img, valid_time) /\
      image (Character_update dt c) = Some img /\
      _imgs (Character_update dt c) !! k
      = match valid_time with
        | None => Some (img, None)
        | Some t => if Qlt_bool t 0 then None
                    else Some (img, Some (t - dt)%Q)
        end
  end.
Proof.
  destruct (Character_update_fields dt c) as (_ & _ & _ & _ & _ & Htmr).
  split; [rewrite Htmr; apply py_max_lower|].
  split; [exact Htmr|].
  unfold Character_update. simpl.
  destruct (dict_max (_imgs c)) as [k|] eqn:Hk; [|now split].
  destruct (dict_max_Some _ _ Hk) as [[[img vt] Hlook] _].
  rewrite Hlook. destruct vt as [t|]; simpl.
  - destruct (Qlt_bool t 0) eqn:Ht; simpl.
    + split.
      * intros j Hj. now apply lookup_delete_ne.
      * exists img, (Some t). rewrite Ht, lookup_delete_eq. now repeat split.
    + split.
      * intros j Hj. now apply lookup_insert_ne.
      * exists img, (Some t). rewrite Ht, lookup_insert_eq. now repeat split.
  - split; [reflexivity|]. exists img, None. now repeat split.
Qed.

(** The amended statement at the three-layer character: the layer at
    priority 5 is the only one touched. *)
Lemma Character_update_top_layer_only_witness :
  _imgs (Character_update 1 layered_character) !! 3
  = _imgs layered_character !! 3.
Proof.
  pose proof (Character_update_top_layer_only 1 layered_character)
    as (_ & _ & H).
  change (dict_max (_imgs layered_character)) with (Some 5) in H.
  destruct H as [H _]. apply H. lia.
Defined.

(** ** Bullet.update *)

Lemma score_adds_app (ev1 ev2 : list Event) :
  score_adds (ev1 ++ ev2) = score_adds ev1 + score_adds ev2.
Proof.
  induction ev1 as [|e ev1 IH]; simpl; [lia|].
  destruct e; simpl; lia.
Qed.

Lemma Bullet_hits_spec (A : Assets) (grp : list Character) :
  forall (b : Bullet) (sc : Z),
    (Bullet_hits A b grp sc).1.1.2 = map (hit A b) grp /\
    (Bullet_hits A b grp sc).2 = flat_map (hit_events A b) grp /\
    (Bullet_hits A b grp sc).1.2
    = sc + score_adds (Bullet_hits A b grp sc).2 /\
    (Bullet_hits A b grp sc).1.1.1
    = (if existsb (fun t => colliderect (b_rect b) (rect t)) grp
       then b_kill b else b).
Proof.
  induction grp as [|t rest IH]; intros b sc; simpl.
  - repeat split; lia.
  - unfold hit at 1, hit_events at 1.
    destruct (colliderect (b_rect b) (rect t)) eqn:Hc; simpl.
    + set (t1 := give_damage A (damage b) t).
      destruct ((hp t1 <=? 0) && is_Enemy_Base t1) eqn:Hs.
      * specialize (IH (b_kill b) (sc + get_score t1)).
        destruct (Bullet_hits A (b_kill b) rest (sc + get_score t1))
          as [[[b2 rest'] sc2] ev']. simpl in *.
        destruct IH as (-> & -> & -> & ->). repeat split.
        -- lia.
        -- now destruct (existsb _ rest).
      * specialize (IH (b_kill b) sc).
        destruct (Bullet_hits A (b_kill b) rest sc)
          as [[[b2 rest'] sc2] ev']. simpl in *.
        destruct IH as (-> & -> & -> & ->). repeat split.
        now destruct (existsb _ rest).
    + specialize (IH b sc).
      destruct (Bullet_hits A b rest sc) as [[[b2 rest'] sc2] ev']. simpl in *.
      destruct IH as (-> & -> & -> & ->). now repeat split.
Qed.

Lemma Bullet_advance_fields (dt : Q) (b : Bullet) :
  b_rect (Bullet_advance dt b)
  = move_ip (Surd_trunc (Surd_mul_Q (Surd_mul_Q (vx b) (inject_Z (speed b))) dt))
            (Surd_trunc (Surd_mul_Q (Surd_mul_Q (vy b) (inject_Z (speed b))) dt))
            (b_rect b) /\
  life_tmr (Bullet_advance dt b) = (life_tmr b + dt)%Q /\
  b_alive (Bullet_advance dt b)
  = (if Qlt_bool (max_life_sec b) (life_tmr b) then false else b_alive b) /\
  damage (Bullet_advance dt b) = damage b /\
  attackable_group (Bullet_advance dt b) = attackable_group b /\
  max_life_sec (Bullet_advance dt b) = max_life_sec b.
Proof.
  unfold Bullet_advance. simpl.
  destruct (Qlt_bool (max_life_sec b) (life_tmr b)); simpl; tauto.
Qed.

(** C1, as stated, fails.  The scenario bullet, ticked once, overlaps two
    enemies of health 20; both end the tick with health 10. *)
Lemma Bullet_update_one_target_counterexample :
  map hp [enemy_a; enemy_b] = [20; 20] /\
  map hp (Bullet_update_marked demo_assets (1 # 10) scenario_bullet
            [enemy_a; enemy_b] 0).1.1.2 = [10; 10].
Proof. vm_compute. split; reflexivity. Qed.

(** C1, amended.  In one [Bullet.update], every member of the target group
    whose rectangle overlaps the moved bullet receives
    [give_damage(damage)], in the group's order, and every other member is
    left as it was; the bullet is destroyed when at least one member
    overlaps. *)
Theorem Bullet_update_hits_every_overlap (A : Assets) (dt : Q) (b : Bullet)
    (grp : list Character) (sc : Z) :
  (Bullet_update_marked A dt b grp sc).1.1.2
  = map (hit A (Bullet_advance dt b)) grp /\
  (Bullet_update_marked A dt b grp sc).1.1.1
  = (if existsb (fun t => colliderect (b_rect (Bullet_advance dt b)) (rect t)) grp
     then b_kill (Bullet_advance dt b) else Bullet_advance dt b).
Proof.
  unfold Bullet_update_marked.
  destruct (Bullet_hits_spec A grp (Bullet_advance dt b) sc) as (H1 & _ & _ & H4).
  now split.
Qed.

(** C3, as stated, fails.  The scenario bullet, ticked 51 times with
    dt = 0.1 and nothing to hit, has age 5.1 and is still in its groups.
    And a tick does not advance the position by velocity * dt itself: with
    dt = 0.015 that product is 7.5, and the rectangle moves 7 pixels. *)
Lemma Bullet_lifespan_tick_51_counterexample :
  b_alive (free_flight demo_assets (1 # 10) 51 scenario_bullet) = true /\
  (life_tmr (free_flight demo_assets (1 # 10) 51 scenario_bullet) == 51 # 10)%Q /\
  (Surd_sq (Bullet_step_x (15 # 1000) scenario_bullet) == (15 # 2) * (15 # 2))%Q /\
  rx (b_rect (free_flight demo_assets (15 # 1000) 1 scenario_bullet))
  - rx (b_rect scenario_bullet) = 7.
Proof. repeat split; vm_compute; reflexivity. Qed.

(** C3, amended.  A tick advances the rectangle along speed * velocity * dt
    by a whole number of pixels: on each axis the step points the way of
    the product, is never longer than it and is short of it by at most one
    pixel; the size of the rectangle is kept.  The tick adds exactly [dt] to
    the age.  A bullet that starts a tick with its age above its life span
    is destroyed in that tick, whatever it collides with.  The scenario
    bullet (dt = 0.1, life span 5) is still alive after tick 51 and is
    destroyed in tick 52. *)
Theorem Bullet_update_age_and_expiry (A : Assets) (dt : Q) (b : Bullet)
    (grp : list Character) (sc : Z) :
  (0 <= radicand (vx b))%Q ->
  (0 <= radicand (vy b))%Q ->
  pixel_step (Bullet_step_x dt b)
             (rx (b_rect (Bullet_update_marked A dt b grp sc).1.1.1)
              - rx (b_rect b)) /\
  pixel_step (Bullet_step_y dt b)
             (ry (b_rect (Bullet_update_marked A dt b grp sc).1.1.1)
              - ry (b_rect b)) /\
  rw (b_rect (Bullet_update_marked A dt b grp sc).1.1.1) = rw (b_rect b) /\
  rh (b_rect (Bullet_update_marked A dt b grp sc).1.1.1) = rh (b_rect b) /\
  life_tmr (Bullet_update_marked A dt b grp sc).1.1.1 = (life_tmr b + dt)%Q /\
  ((max_life_sec b < life_tmr b)%Q ->
   b_alive (Bullet_update_marked A dt b grp sc).1.1.1 = false) /\
  b_alive (free_flight demo_assets (1 # 10) 51 scenario_bullet) = true /\
  b_alive (free_flight demo_assets (1 # 10) 52 scenario_bullet) = false.
Proof.
  intros Hrx Hry. unfold Bullet_update_marked.
  destruct (Bullet_hits_spec A grp (Bullet_advance dt b) sc) as (_ & _ & _ & ->).
  destruct (Bullet_advance_fields dt b) as (Hr & Hl & Ha & _).
  assert (Hrect : b_rect (if existsb (fun t => colliderect
                                        (b_rect (Bullet_advance dt b)) (rect t)) grp
                          then b_kill (Bullet_advance dt b)
                          else Bullet_advance dt b)
                  = move_ip (Surd_trunc (Bullet_step_x dt b))
                            (Surd_trunc (Bullet_step_y dt b)) (b_rect b)).
  { destruct (existsb _ grp); simpl; exact Hr. }
  rewrite Hrect. unfold move_ip. cbn [rx ry rw rh].
  replace (rx (b_rect b) + Surd_trunc (Bullet_step_x dt b) - rx (b_rect b))
    with (Surd_trunc (Bullet_step_x dt b)) by ring.
  replace (ry (b_rect b) + Surd_trunc (Bullet_step_y dt b) - ry (b_rect b))
    with (Surd_trunc (Bullet_step_y dt b)) by ring.
  split; [apply Surd_trunc_pixel_step; exact Hrx|].
  split; [apply Surd_trunc_pixel_step; exact Hry|].
  split; [reflexivity|]. split; [reflexivity|].
  split; [|split; [|split]].
  - destruct (existsb _ grp); simpl; exact Hl.
  - intros Hexp. apply Qlt_bool_iff in Hexp.
    destruct (existsb _ grp); [reflexivity|].
    now rewrite Ha, Hexp.
  - vm_compute. reflexivity.
  - vm_compute. reflexivity.
Qed.

(** A bullet aged 5.1 with life span 5, flying right at 500 pixels a
    second: its next tick of a tenth of a second moves it between 49 and 50
    pixels to the right, not up or down, and destroys it. *)
Lemma Bullet_update_age_and_expiry_witness :
  pixel_step (Bullet_step_x (1 # 10)
                (free_flight demo_assets (1 # 10) 51 scenario_bullet))
             (rx (b_rect (free_flight demo_assets (1 # 10) 52 scenario_bullet))
              - rx (b_rect (free_flight demo_assets (1 # 10) 51 scenario_bullet))) /\
  b_alive (free_flight demo_assets (1 # 10) 52 scenario_bullet) = false.
Proof.
  destruct (Bullet_update_age_and_expiry demo_assets (1 # 10)
              (free_flight demo_assets (1 # 10) 51 scenario_bullet) [] 0)
    as (Hx & _ & _ & _ & _ & H & _).
  - vm_compute. discriminate.
  - vm_compute. discriminate.
  - split; [exact Hx|]. apply H. vm_compute. reflexivity.
Defined.

(** C9.  A bullet that starts a tick with its age above its life span
    destroys itself and still runs the collision loop of that tick: a member
    of the target group that overlaps it receives [give_damage(damage)], and
    when that takes an enemy's or boss's health to zero or below the bullet
    calls [score_up] with the member's score. *)
Theorem expired_bullet_still_hits (A : Assets) (dt : Q) (b : Bullet)
    (grp : list Character) (sc : Z) (n : nat) (t : Character) :
  (max_life_sec b < life_tmr b)%Q ->
  grp !! n = Some t ->
  colliderect (b_rect (Bullet_advance dt b)) (rect t) = true ->
  b_alive (Bullet_advance dt b) = false /\
  b_alive (Bullet_update_marked A dt b grp sc).1.1.1 = false /\
  (Bullet_update_marked A dt b grp sc).1.1.2 !! n
  = Some (give_damage A (damage b) t) /\
  (Bullet_update_marked A dt b grp sc).1.2
  = sc + score_adds (Bullet_update_marked A dt b grp sc).2 /\
  (hp (give_damage A (damage b) t) <= 0 ->
   is_Enemy_Base t = true ->
   EvScoreUp t (give_damage A (damage b) t) (get_score t)
   ∈ (Bullet_update_marked A dt b grp sc).2).
Proof.
  intros Hexp Hn Hc. unfold Bullet_update_marked.
  destruct (Bullet_hits_spec A grp (Bullet_advance dt b) sc)
    as (H1 & H2 & H3 & H4).
  destruct (Bullet_advance_fields dt b) as (_ & _ & Ha & Hd & _).
  apply Qlt_bool_iff in Hexp. rewrite Hexp in Ha.
  repeat split.
  - exact Ha.
  - rewrite H4. now destruct (existsb _ grp).
  - rewrite H1, list_lookup_fmap, Hn. simpl. unfold hit.
    now rewrite Hc, Hd.
  - exact H3.
  - intros Hhp Hcls. rewrite H2. apply list_elem_of_In, in_flat_map.
    exists t.
    split; [apply list_elem_of_In; eapply list_elem_of_lookup_2; exact Hn|].
    apply list_elem_of_In. unfold hit_events. rewrite Hc, Hd.
    assert (He : is_Enemy_Base (give_damage A (damage b) t) = true /\
                 get_score (give_damage A (damage b) t) = get_score t).
    { unfold is_Enemy_Base, get_score in *.
      destruct (give_damage_fields A (damage b) t) as (-> & _). now split. }
    destruct He as [-> ->].
    apply Z.leb_le in Hhp. rewrite Hhp. simpl. apply list_elem_of_here.
Qed.

(** The expired bullet overlaps the weakened enemy. *)
Lemma expired_bullet_still_hits_witness :
  b_alive (Bullet_update_marked demo_assets (1 # 10) expired_bullet
             [weak_enemy] 0).1.1.1 = false /\
  hp <$> (Bullet_update_marked demo_assets (1 # 10) expired_bullet
            [weak_enemy] 0).1.1.2 !! 0%nat = Some 0 /\
  (Bullet_update_marked demo_assets (1 # 10) expired_bullet
     [weak_enemy] 0).1.2 = 30.
Proof.
  destruct (expired_bullet_still_hits demo_assets (1 # 10) expired_bullet
              [weak_enemy] 0 0%nat weak_enemy)
    as (_ & H1 & H2 & _).
  - vm_compute. reflexivity.
  - reflexivity.
  - vm_compute. reflexivity.
  - split; [exact H1|]. split; [rewrite H2|]; vm_compute; reflexivity.
Defined.

(** ** Group_support_camera.draw *)

#[export] Instance Character_SpriteLaws : SpriteLaws Character.
Proof. split; intros; try destruct s; reflexivity. Qed.

#[export] Instance Bullet_SpriteLaws : SpriteLaws Bullet.
Proof. split; intros; try destruct s; reflexivity. Qed.

#[export] Instance Background_SpriteLaws : SpriteLaws Background.
Proof. split; intros; try destruct s; reflexivity. Qed.

Lemma Qtrunc_minus_opp (a b : Q) : Qtrunc (a - b) = - Qtrunc (- a + b).
Proof.
  rewrite <- Qtrunc_opp. unfold Qtrunc. destruct a as [an ad], b as [bn bd].
  simpl. f_equal. ring.
Qed.

Lemma move_ip_back (dx dy : Z) (r : Rect) : move_ip (- dx) (- dy) (move_ip dx dy r) = r.
Proof. destruct r. unfold move_ip. simpl. f_equal; lia. Qed.

Section DrawLaws.

Context {S : Type} `{SpriteLaws S}.

Lemma shift_sprites_back (a b c d : Q) (l : list S) :
  shift_sprites (a - b)%Q (c - d)%Q (shift_sprites (- a + b)%Q (- c + d)%Q l) = l.
Proof.
  unfold shift_sprites. rewrite map_map. rewrite <- (map_id l) at 2.
  apply map_ext. intros s.
  rewrite sprite_rect_with_rect, sprite_with_rect_twice.
  unfold move_ip_Q. rewrite !Qtrunc_minus_opp, move_ip_back.
  apply sprite_with_rect_same.
Qed.

Lemma Group_support_camera_draw_restores (cam : Camera) (l : list S) :
  (Group_support_camera_draw cam l).1 = l.
Proof. unfold Group_support_camera_draw. simpl. apply shift_sprites_back. Qed.

Lemma Group_support_camera_draw_blits (cam : Camera) (l : list S) :
  (Group_support_camera_draw cam l).2
  = map (fun s => EvBlit (sprite_image s) (on_screen cam (sprite_rect s))) l.
Proof.
  unfold Group_support_camera_draw, Group_draw, shift_sprites. simpl.
  rewrite map_map. apply map_ext. intros s.
  now rewrite sprite_rect_with_rect, sprite_image_with_rect.
Qed.

End DrawLaws.

(** C7.  [Group_support_camera.draw] leaves every member of the group, of
    whichever sprite class, exactly as it found it, its rectangle included;
    the camera offset shows only in the rectangles the members are blitted
    at during the call. *)
Theorem Group_support_camera_draw_roundtrip (cam : Camera)
    (cs : list Character) (bs : list Bullet) (bgs : list Background) :
  (Group_support_camera_draw cam cs).1 = cs /\
  (Group_support_camera_draw cam bs).1 = bs /\
  (Group_support_camera_draw cam bgs).1 = bgs /\
  (Group_support_camera_draw cam cs).2
  = map (fun c => EvBlit (image c) (on_screen cam (rect c))) cs /\
  (Group_support_camera_draw cam bs).2
  = map (fun b => EvBlit (Some (b_image b)) (on_screen cam (b_rect b))) bs /\
  (Group_support_camera_draw cam bgs).2
  = map (fun b => EvBlit (Some (bg_image b)) (on_screen cam (bg_rect b))) bgs.
Proof.
  split; [apply Group_support_camera_draw_restores|].
  split; [apply Group_support_camera_draw_restores|].
  split; [apply Group_support_camera_draw_restores|].
  split; [exact (Group_support_camera_draw_blits (S := Character) cam cs)|].
  split; [exact (Group_support_camera_draw_blits (S := Bullet) cam bs)|].
  exact (Group_support_camera_draw_blits (S := Background) cam bgs).
Qed.

(** ** The proximity guard of Enemy.update and BOSS.update *)

Lemma calc_norm_lt_50 (org dst : Rect) :
  Surd_lt_bool (calc_norm org dst) 50 = true <->
  (centerx dst - centerx org) * (centerx dst - centerx org)
  + (centery dst - centery org) * (centery dst - centery org) < 2500.
Proof.
  unfold calc_norm, Surd_lt_bool, Surd_sqrt. simpl.
  set (n := _ + _). rewrite Qlt_bool_iff. unfold Qlt. simpl. lia.
Qed.

(** C10.  A boss whose rectangle's centre is less than 50 pixels away from
    its target's centre only runs the base tick: its rectangle and its
    attack timer are unchanged and no bullet is added. *)
Theorem BOSS_update_proximity_guard (A : Assets) (dt : Q)
    (target b : Character) (sc spd : Z) (tmr : Q) :
  kind b = KBOSS sc spd tmr ->
  (centerx (rect target) - centerx (rect b)) * (centerx (rect target) - centerx (rect b))
  + (centery (rect target) - centery (rect b)) * (centery (rect target) - centery (rect b))
  < 2500 ->
  BOSS_update A dt target b = Some (Character_update dt b, []) /\
  rect (Character_update dt b) = rect b /\
  kind (Character_update dt b) = KBOSS sc spd tmr.
Proof.
  intros Hk Hnear.
  destruct (Character_update_fields dt b) as (_ & Hk' & Hr & _).
  unfold BOSS_update. rewrite Hk', Hk, Hr.
  apply calc_norm_lt_50 in Hnear. rewrite Hnear.
  repeat split; congruence.
Qed.

(** A boss 30 pixels to the right of the player. *)
Lemma BOSS_update_proximity_guard_witness :
  BOSS_update demo_assets (1 # 10) near_player near_boss
  = Some (Character_update (1 # 10) near_boss, []).
Proof.
  apply (BOSS_update_proximity_guard demo_assets (1 # 10) near_player
           near_boss 40 100 0).
  - reflexivity.
  - vm_compute. reflexivity.
Defined.

(** ** The unguarded callers of calc_orientation *)

Lemma calc_orientation_same_point (p q : Q * Q) :
  (fst p == fst q)%Q -> (snd p == snd q)%Q -> calc_orientation p q = None.
Proof.
  intros Hx Hy. unfold calc_orientation, Q_div_Surd, Surd_is_zero, Surd_sqrt.
  simpl.
  assert (Hz : Qeq_bool ((fst q - fst p) * (fst q - fst p)
                         + (snd q - snd p) * (snd q - snd p)) 0 = true).
  { apply Qeq_bool_iff. rewrite Hx, Hy. ring. }
  rewrite Hz, ?orb_true_r. reflexivity.
Qed.

(** When the attack block runs with the pointer in the middle of the window
    the aim point is the player's own centre. *)
Lemma fire_pointer_on_player (A : Assets) (i : Input) (p : Character)
    (bs : list Bullet) (clk0 : Q) (d : Z * Z) (s : Z) (ai : Q) (an : Z) :
  kind p = KPlayer d s ai an ->
  (ai < clk0)%Q ->
  mouse_pos i = (800, 450) ->
  fire A i (mkCamera (Zpair_to_Q (center (rect p))) 1600 900) p bs clk0 = None.
Proof.
  intros Hk Hclk Hm. unfold fire. rewrite Hk.
  apply Qlt_bool_iff in Hclk. rewrite Hclk, Hm.
  rewrite calc_orientation_same_point; [reflexivity| |];
    unfold Zpair_to_Q, Qeq; simpl; lia.
Qed.

(** C5: the code at the failing inputs.  Three passes of a quarter of a
    second with the pointer in the middle of the window end [main] in a
    ZeroDivisionError raised by the attack block, which calls
    [calc_orientation] without any distance test.  And the guard of
    [Enemy.update] measures the distance between centres while
    [calc_orientation] subtracts top-left corners: an enemy whose corner
    coincides with its target's, centres 70 pixels apart, passes the guard
    and divides by zero. *)
Theorem calc_orientation_callers_divide_by_zero :
  (run demo_assets [pointer_at_centre; pointer_at_centre; pointer_at_centre]
       (main_init demo_assets)).1 = ZeroDivisionError /\
  Surd_lt_bool (calc_norm (rect corner_enemy) (rect corner_player)) 50 = false /\
  Enemy_update (1 # 10) corner_player corner_enemy = None.
Proof. vm_compute. repeat split; reflexivity. Qed.

(** ** The phases of the game *)

#[local] Arguments Group_support_camera_draw : simpl never.

Lemma Qtrunc_ge_60 (q : Q) : (60 <=? Qtrunc q) = true <-> (60 <= q)%Q.
Proof.
  rewrite Z.leb_le. unfold Qtrunc, Qle. destruct q as [n d]. simpl.
  destruct (Z.lt_ge_cases n 0) as [Hneg|Hpos].
  - split; intros Hq; [|lia].
    pose proof (Z.quot_opp_l n (Z.pos d) ltac:(lia)) as Ho.
    pose proof (Z.quot_pos (- n) (Z.pos d) ltac:(lia) ltac:(lia)). lia.
  - rewrite Z.quot_div_nonneg by lia. split; intros Hq.
    + pose proof (Z.mul_div_le n (Z.pos d) ltac:(lia)). nia.
    + apply Z.div_le_lower_bound; lia.
Qed.

Lemma quiet_not_tick (ev : list Event) :
  Forall quiet ev -> Forall (fun e => ~ entity_tick e) ev.
Proof.
  intros Hq. eapply Forall_impl; [exact Hq|].
  intros [] Hx; simpl in *; tauto.
Qed.

Lemma quiet_no_score_up (ev : list Event) :
  Forall quiet ev -> Forall no_score_up ev.
Proof.
  intros Hq. eapply Forall_impl; [exact Hq|].
  intros [] Hx; simpl in *; tauto.
Qed.

Lemma handle_events_quiet (evs : list PgEvent) (fps : Z) :
  Forall quiet (handle_events evs fps).2.
Proof.
  revert fps. induction evs as [|e evs IH]; intros fps; simpl.
  - constructor.
  - destruct e as [|key|]; simpl; [constructor| |apply IH].
    destruct (key =? K_F1), (key =? K_F2), (key =? K_F3);
      match goal with
      | |- context [handle_events evs ?f] =>
        specialize (IH f); destruct (handle_events evs f) as [r ev4]
      end; simpl in *; repeat (constructor; [exact I|]); exact IH.
Qed.

Lemma draw_quiet {S : Type} `{SpriteLaws S} (cam : Camera) (l : list S) :
  Forall quiet (Group_support_camera_draw cam l).2.
Proof.
  rewrite Group_support_camera_draw_blits. apply Forall_fmap.
  apply Forall_forall. intros s _. exact I.
Qed.

Lemma boss_damage_no_tick (A : Assets) (l : list (Character * bool)) (sc : Z) :
  Forall (fun e => ~ entity_tick e) (boss_damage A l sc).2.
Proof.
  revert sc. induction l as [|[b flag] l IH]; intros sc; simpl; [constructor|].
  destruct flag.
  - destruct (hp (give_damage A 10 b) <=? 0).
    + specialize (IH (sc + 40)).
      destruct (boss_damage A l (sc + 40)) as [[bs sc'] ev]. simpl in *.
      constructor; [tauto | exact IH].
    + specialize (IH sc). destruct (boss_damage A l sc) as [[bs sc'] ev].
      exact IH.
  - specialize (IH sc). destruct (boss_damage A l sc) as [[bs sc'] ev].
    exact IH.
Qed.

Lemma spawn_and_collide_frame (A : Assets) (i : Input) (g : Game) :
  let r := spawn_and_collide A i g in
  max_fps r.1 = max_fps g /\ dtime r.1 = dtime g /\
  gameFlag r.1 = gameFlag g /\ camera r.1 = camera g /\
  background r.1 = background g /\ clk r.1 = clk g /\
  suvivetime r.1 = suvivetime g /\
  Forall (fun e => ~ entity_tick e) r.2.
Proof.
  unfold spawn_and_collide.
  destruct (Qlt_bool (5 # 10) _), (Qlt_bool 3 _);
    destruct (groupcollide_kill_both _ _) as [fl1 bs1];
    match goal with
    | |- context [groupcollide_kill_b ?a ?b] =>
      destruct (groupcollide_kill_b a b) as [crashed bs2]
    end;
    pose proof (boss_damage_no_tick A crashed (score g)) as Hb;
    destruct (boss_damage A crashed (score g)) as [[bo2 sc1] ev1];
    simpl in *; repeat split; try (constructor; [tauto|exact Hb]).
Qed.

Lemma spawn_and_collide_max_fps (A : Assets) (i : Input) (g : Game) (fps : Z) :
  spawn_and_collide A i (with_max_fps fps g)
  = (with_max_fps fps (spawn_and_collide A i g).1, (spawn_and_collide A i g).2).
Proof.
  unfold spawn_and_collide. simpl.
  destruct (Qlt_bool (5 # 10) _), (Qlt_bool 3 _);
    destruct (groupcollide_kill_both _ _) as [fl1 bs1];
    match goal with
    | |- context [groupcollide_kill_b ?a ?b] =>
      destruct (groupcollide_kill_b a b) as [crashed bs2]
    end;
    destruct (boss_damage A crashed (score g)) as [[bo2 sc1] ev1];
    reflexivity.
Qed.

Lemma play_outcome (A : Assets) (i : Input) (g : Game) :
  (play A i g).1 = ZeroDivisionError \/ exists g', (play A i g).1 = Continue g'.
Proof.
  unfold play.
  destruct (fire A i _ _ _ _) as [[bs1 clk1]|]; [|now left].
  destruct (mapM _ (enemies g)) as [es1|]; [|now left].
  destruct (update_boss A _ _ _) as [[bo1 fl]|]; [|now left].
  destruct (update_bullets A _ _ _ bs1) as [[[T1 sc1] ev1] bs2].
  destruct (update_bullets A _ _ _ _) as [[[T2 sc2] ev2] fl2].
  repeat match goal with
         | |- context [Group_support_camera_draw ?c ?l] =>
           destruct (Group_support_camera_draw c l)
         end.
  right. eauto.
Qed.

Lemma final_frame_events (A : Assets) (i : Input) (g : Game) (p : Character)
    (txt : Text) (num : Z) :
  final_frame A i g p txt num
  = (let p' := Player_update A (key_lst i) (dtime g)
                 (change_img A num 10 (Some 250%Q) p) in
     [EvText txt; EvPlayerUpdate;
      EvBlit (image p') (on_screen (camera g) (rect p'));
      EvDisplayUpdate; EvSleep 2]).
Proof.
  unfold final_frame.
  rewrite (Group_support_camera_draw_blits (S := Character)). reflexivity.
Qed.

(** The shape of a pass once the window is open and the background
    scrolled: the phase check runs on the state the collision passes left. *)
Lemma frame_check_phase (A : Assets) (i : Input) (g : Game) (fps : Z)
    (ev0 : list Event) (bg1 : list Background) :
  handle_events (events i) (max_fps g) = (Some fps, ev0) ->
  mapM (Background_update (camera g)) (background g) = Some bg1 ->
  exists g2 pre,
    frame A i g = ((check_phase A i g2).1, pre ++ (check_phase A i g2).2) /\
    Forall (fun e => ~ entity_tick e) pre /\
    player g2 = checked_player A i g /\ dtime g2 = dtime g /\
    camera g2 = camera g /\ gameFlag g2 = gameFlag g /\
    suvivetime g2 = suvivetime g.
Proof.
  intros Hev Hbg. unfold frame. rewrite Hev.
  rewrite spawn_and_collide_max_fps.
  destruct (spawn_and_collide_frame A i g)
    as (_ & Hdt & Hflag & Hcam & Hback & _ & Hsurv & Hquiet).
  unfold checked_player.
  destruct (spawn_and_collide A i g) as [g1 ev1]. simpl in *.
  unfold scroll_background.
  change (camera (with_max_fps fps g1)) with (camera g1).
  change (background (with_max_fps fps g1)) with (background g1).
  rewrite Hcam, Hback, Hbg.
  pose proof (draw_quiet (S := Background) (camera g) bg1) as Hd.
  destruct (Group_support_camera_draw (camera g) bg1) as [bg2 d0].
  simpl in Hd.
  match goal with
  | |- context [check_phase A i ?x] => exists x
  end.
  exists (ev0 ++ ev1 ++ EvGroupUpdate G_background :: d0).
  destruct (check_phase A i _) as [out ev3]. simpl.
  split; [now rewrite <- !app_assoc|].
  split; [|now repeat split].
  apply Forall_app. split.
  - apply quiet_not_tick.
    pose proof (handle_events_quiet (events i) (max_fps g)) as Hq.
    now rewrite Hev in Hq.
  - apply Forall_app. split; [exact Hquiet|].
    constructor; [simpl; tauto | now apply quiet_not_tick].
Qed.

(** C8.  In a pass of the playing phase (window not closed, background
    scrolled), [main] ends in game over exactly when the player's health at
    the check is zero or below, and in game clear exactly when that health
    is positive and the survival time is at least 60 seconds.  In both cases
    the pass closes with the overlay text, one update and one draw of the
    player, the display update and a sleep of two seconds; the pass contains
    no update of a group of entities, and the loop does not run again. *)
Theorem game_phase_transitions (A : Assets) (i : Input) (g : Game) (fps : Z)
    (ev0 : list Event) (bg1 : list Background) (rest : list Input) :
  handle_events (events i) (max_fps g) = (Some fps, ev0) ->
  mapM (Background_update (camera g)) (background g) = Some bg1 ->
  gameFlag g = false ->
  ((frame A i g).1 = GameOver <-> hp (checked_player A i g) <= 0) /\
  ((frame A i g).1 = GameClear <->
   0 < hp (checked_player A i g) /\ (60 <= suvivetime g)%Q) /\
  ((frame A i g).1 = GameOver ->
   exists pre, (frame A i g).2 = pre ++ final_events A i g TGameOver 8) /\
  ((frame A i g).1 = GameClear ->
   exists pre, (frame A i g).2 = pre ++ final_events A i g TGameClear 9) /\
  ((frame A i g).1 = GameOver \/ (frame A i g).1 = GameClear ->
   Forall (fun e => ~ entity_tick e) (frame A i g).2 /\
   run A (i :: rest) g = frame A i g).
Proof.
  intros Hev Hbg Hflag.
  destruct (frame_check_phase A i g fps ev0 bg1 Hev Hbg)
    as (g2 & pre & Hframe & Hpre & Hp & Hdt & Hcam & Hfl & Hsurv).
  assert (Hrun : (frame A i g).1 = GameOver \/ (frame A i g).1 = GameClear ->
                 run A (i :: rest) g = frame A i g).
  { simpl. destruct (frame A i g) as [[] ev]; simpl;
      intros [H|H]; try discriminate; reflexivity. }
  unfold final_events. rewrite <- Hp, <- Hdt, <- Hcam.
  rewrite Hframe in *. simpl in *. clear Hframe.
  unfold check_phase in *. rewrite Hsurv in *.
  destruct (hp (player g2) <=? 0) eqn:Hhp; simpl in *.
  - apply Z.leb_le in Hhp.
    split; [tauto|]. split; [split; [discriminate|lia]|].
    split; [intros _; exists pre; now rewrite final_frame_events|].
    split; [discriminate|].
    intros Ht. split; [|auto].
    apply Forall_app. split; [exact Hpre|].
    rewrite final_frame_events. simpl. repeat constructor; simpl; tauto.
  - apply Z.leb_gt in Hhp.
    destruct (60 <=? Qtrunc (suvivetime g)) eqn:Hsec; simpl in *.
    + apply Qtrunc_ge_60 in Hsec.
      split; [split; [discriminate|lia]|]. split; [tauto|].
      split; [discriminate|].
      split.
      * intros _.
        exists (pre ++ [EvText (TCountdown (Qtrunc (60 - suvivetime g)))]).
        rewrite final_frame_events. simpl. now rewrite <- app_assoc.
      * intros Ht. split; [|auto].
        apply Forall_app. split; [exact Hpre|].
        rewrite final_frame_events. simpl. repeat constructor; simpl; tauto.
    + rewrite Hfl, Hflag in *.
      assert (Hlt : ~ (60 <= suvivetime g)%Q).
      { intros Hge. apply Qtrunc_ge_60 in Hge. congruence. }
      destruct (play_outcome A i g2) as [Ho|[g' Ho]];
        destruct (play A i g2) as [out ev]; simpl in *; subst out;
        (split; [split; [discriminate|lia]|]);
        (split; [split; [discriminate|tauto]|]);
        (split; [discriminate|]); (split; [discriminate|]);
        intros [H|H]; discriminate.
Qed.

(** After 61 seconds with a healthy player the next pass ends in game clear;
    after 18 seconds among the enemies the player's health is 0 and the next
    pass ends in game over. *)
Lemma game_phase_transitions_witness :
  (frame demo_assets long_pass after_61_seconds).1 = GameClear /\
  (frame demo_assets aim_left after_18_seconds).1 = GameOver.
Proof.
  split.
  - edestruct (fun bg Hbg =>
                 game_phase_transitions demo_assets long_pass after_61_seconds
                   60 [] bg [] eq_refl Hbg eq_refl) as (_ & [_ H] & _);
      [vm_compute; reflexivity|].
    apply H. split; vm_compute; [reflexivity | discriminate].
  - edestruct (fun bg Hbg =>
                 game_phase_transitions demo_assets aim_left after_18_seconds
                   60 [] bg [] eq_refl Hbg eq_refl) as ([_ H] & _);
      [vm_compute; reflexivity|].
    apply H. vm_compute. discriminate.
Defined.

(** ** The score *)

#[local] Arguments Bullet_advance : simpl never.
#[local] Arguments give_damage : simpl never.
#[local] Arguments Character_update : simpl never.
#[local] Arguments Player_update : simpl never.
#[local] Arguments Bullet_update : simpl never.

Lemma no_score_up_adds (A : Assets) (ev : list Event) :
  Forall no_score_up ev -> score_adds ev = 0 /\ Forall (kill_event A) ev.
Proof.
  induction 1 as [|e ev He _ [IH1 IH2]]; [now split|].
  destruct e; simpl in *; try tauto; split; try assumption;
    constructor; simpl; auto.
Qed.

Lemma quiet_adds (A : Assets) (ev : list Event) :
  Forall quiet ev -> score_adds ev = 0 /\ Forall (kill_event A) ev.
Proof. intros Hq. now apply no_score_up_adds, quiet_no_score_up. Qed.

Lemma get_score_foe (c : Character) :
  enemy_ok c \/ boss_ok c -> 0 <= get_score c /\ is_Enemy_Base c = true.
Proof.
  unfold get_score, is_Enemy_Base.
  intros [[[spd Hk] _]|[(spd & tmr & Hk) _]]; rewrite Hk; split; (lia || reflexivity).
Qed.

Lemma kill_event_nonneg (A : Assets) (ev : list Event) :
  Forall (kill_event A) ev -> 0 <= score_adds ev.
Proof.
  induction 1 as [|e ev He _ IH]; simpl; [lia|].
  destruct e; try assumption.
  destruct He as (Hfoe & _ & _ & ->).
  pose proof (get_score_foe _ Hfoe). lia.
Qed.

Lemma give_damage_survivor (A : Assets) (dmg : Z) (c : Character) :
  is_Enemy_Base c = true ->
  alive c = true ->
  alive (give_damage A dmg c) = true ->
  0 < hp (give_damage A dmg c).
Proof.
  unfold is_Enemy_Base, give_damage, damaged, kill.
  destruct c as [k h m t im img r a]. simpl.
  destruct k; try discriminate; intros _ ->;
    destruct (Qle_bool t 0); simpl;
    match goal with
    | |- context [?x <=? 0] => destruct (x <=? 0) eqn:E
    end; simpl; try discriminate; intros _; now apply Z.leb_gt in E.
Qed.

Lemma give_damage_alive_player (A : Assets) (dmg : Z) (p : Character) :
  player_ok p -> player_ok (give_damage A dmg p).
Proof.
  intros [(d & s & ai & an & Hk) Ha]. split.
  - destruct (give_damage_fields A dmg p) as (-> & _). eauto.
  - unfold give_damage, damaged, kill, change_img, set_image.
    destruct p as [k h m t im img r a]. simpl in *. subst k a.
    destruct (Qle_bool t 0); simpl; destruct (_ <=? 0); reflexivity.
Qed.

Lemma give_damage_enemy_ok (A : Assets) (dmg : Z) (c : Character) :
  enemy_ok c -> alive (give_damage A dmg c) = true ->
  enemy_ok (give_damage A dmg c).
Proof.
  intros Hok Ha. pose proof (get_score_foe c (or_introl Hok)) as [_ He].
  destruct Hok as ([spd Hk] & _ & Hal).
  split; [|split; [|exact Ha]].
  - destruct (give_damage_fields A dmg c) as (-> & _). eauto.
  - now apply give_damage_survivor.
Qed.

Lemma give_damage_boss_ok (A : Assets) (dmg : Z) (c : Character) :
  boss_ok c -> alive (give_damage A dmg c) = true ->
  boss_ok (give_damage A dmg c).
Proof.
  intros Hok Ha. pose proof (get_score_foe c (or_intror Hok)) as [_ He].
  destruct Hok as ((spd & tmr & Hk) & _ & Hal).
  split; [|split; [|exact Ha]].
  - destruct (give_damage_fields A dmg c) as (-> & _). eauto.
  - now apply give_damage_survivor.
Qed.

Lemma Bullet_update_proj (A : Assets) (dt : Q) (b : Bullet)
    (grp : list Character) (sc : Z) :
  Bullet_update A dt b grp sc
  = ((Bullet_update_marked A dt b grp sc).1.1.1,
     filter (fun t => alive t = true) (Bullet_update_marked A dt b grp sc).1.1.2,
     (Bullet_update_marked A dt b grp sc).1.2,
     (Bullet_update_marked A dt b grp sc).2).
Proof.
  unfold Bullet_update.
  now destruct (Bullet_update_marked A dt b grp sc) as [[[b' grp'] sc'] ev].
Qed.

Lemma Bullet_update_aim (A : Assets) (dt : Q) (b : Bullet)
    (grp : list Character) (sc : Z) (gid : GroupId) :
  aimed_at gid b -> aimed_at gid (Bullet_update A dt b grp sc).1.1.1.
Proof.
  intros [Hg Hd]. rewrite Bullet_update_proj. simpl.
  unfold Bullet_update_marked.
  destruct (Bullet_hits_spec A grp (Bullet_advance dt b) sc) as (_ & _ & _ & ->).
  destruct (Bullet_advance_fields dt b) as (_ & _ & _ & Hd' & Hg' & _).
  unfold aimed_at. destruct (existsb _ grp); cbn; rewrite ?Hd', ?Hg'; now split.
Qed.

Lemma Bullet_update_score (A : Assets) (dt : Q) (b : Bullet)
    (grp : list Character) (sc : Z) :
  (Bullet_update A dt b grp sc).1.2
  = sc + score_adds (Bullet_update A dt b grp sc).2.
Proof.
  rewrite Bullet_update_proj. simpl. unfold Bullet_update_marked.
  now destruct (Bullet_hits_spec A grp (Bullet_advance dt b) sc) as (_ & _ & -> & _).
Qed.

Lemma Bullet_update_enemies (A : Assets) (dt : Q) (b : Bullet)
    (grp : list Character) (sc : Z) :
  damage b = 10 ->
  Forall enemy_ok grp ->
  Forall enemy_ok (Bullet_update A dt b grp sc).1.1.2 /\
  Forall (kill_event A) (Bullet_update A dt b grp sc).2.
Proof.
  intros Hd Hgrp. rewrite Bullet_update_proj. simpl.
  unfold Bullet_update_marked.
  destruct (Bullet_hits_spec A grp (Bullet_advance dt b) sc) as (-> & -> & _ & _).
  destruct (Bullet_advance_fields dt b) as (_ & _ & _ & Hd' & _).
  rewrite Hd in Hd'. split.
  - apply Forall_forall. intros t Ht.
    apply list_elem_of_filter in Ht as [Hal Ht].
    apply list_elem_of_fmap in Ht as (t0 & -> & Ht0).
    rewrite Forall_forall in Hgrp. specialize (Hgrp t0 Ht0).
    unfold hit in *. destruct (colliderect _ _); [|exact Hgrp].
    now apply give_damage_enemy_ok.
  - apply Forall_forall. intros e He.
    apply list_elem_of_In, in_flat_map in He as (t & Ht & He).
    apply list_elem_of_In in Ht.
    rewrite Forall_forall in Hgrp. specialize (Hgrp t Ht).
    unfold hit_events in He. rewrite Hd' in He.
    destruct (colliderect _ _); [|destruct He].
    destruct (hp (give_damage A 10 t) <=? 0) eqn:Hhp; [|destruct He].
    destruct (is_Enemy_Base _); [|destruct He].
    destruct He as [<-|[]]. simpl. apply Z.leb_le in Hhp.
    split; [now left|]. split; [reflexivity|]. split; [exact Hhp|].
    unfold get_score. now destruct (give_damage_fields A 10 t) as (-> & _).
Qed.

Lemma Bullet_update_player (A : Assets) (dt : Q) (b : Bullet)
    (p : Character) (sc : Z) :
  player_ok p ->
  exists p', (Bullet_update A dt b [p] sc).1.1.2 = [p'] /\ player_ok p' /\
             (Bullet_update A dt b [p] sc).2 = [].
Proof.
  intros Hp. rewrite Bullet_update_proj. simpl. unfold Bullet_update_marked.
  destruct (Bullet_hits_spec A [p] (Bullet_advance dt b) sc) as (-> & -> & _ & _).
  simpl.
  assert (Hp' : player_ok (hit A (Bullet_advance dt b) p)).
  { unfold hit. destruct (colliderect _ _); [|exact Hp].
    now apply give_damage_alive_player. }
  exists (hit A (Bullet_advance dt b) p). split; [|split; [exact Hp'|]].
  - destruct Hp' as [_ Ha]. rewrite filter_cons_True by exact Ha. reflexivity.
  - unfold hit_events. destruct (colliderect _ _); [|reflexivity].
    destruct Hp as [(d & s & ai & an & Hk) _].
    unfold is_Enemy_Base.
    destruct (give_damage_fields A (damage (Bullet_advance dt b)) p) as (-> & _).
    rewrite Hk, andb_false_r. reflexivity.
Qed.

Lemma mapM_Forall {X Y : Type} (f : X -> option Y) (P : X -> Prop)
    (R : Y -> Prop) (l : list X) (k : list Y) :
  (forall x y, P x -> f x = Some y -> R y) ->
  Forall P l -> mapM f l = Some k -> Forall R k.
Proof.
  intros Hstep Hl Hm. apply mapM_Some_1 in Hm.
  induction Hm as [|x y l k Hxy _ IH]; [constructor|].
  apply Forall_cons in Hl as [Hx Hl]. constructor; eauto.
Qed.

Lemma bullet_step_proj (A : Assets) (dt : Q) (T : Targets) (sc : Z)
    (ev : list Event) (acc : list Bullet) (b : Bullet) :
  bullet_step A dt (T, sc, ev, acc) b
  = (put_members (attackable_group b)
       (Bullet_update A dt b (members (attackable_group b) T) sc).1.1.2 T,
     (Bullet_update A dt b (members (attackable_group b) T) sc).1.2,
     ev ++ (Bullet_update A dt b (members (attackable_group b) T) sc).2,
     acc ++ [(Bullet_update A dt b (members (attackable_group b) T) sc).1.1.1]).
Proof.
  unfold bullet_step.
  now destruct (Bullet_update A dt b _ sc) as [[[b' grp'] sc'] ev'].
Qed.

Lemma bullet_step_ok (A : Assets) (dt : Q) (gid : GroupId) (T : Targets)
    (sc : Z) (ev : list Event) (acc : list Bullet) (b : Bullet) :
  gid = G_enemies \/ gid = G_player_group ->
  T_ok T -> aimed_at gid b ->
  exists T' new b',
    bullet_step A dt (T, sc, ev, acc) b
    = (T', sc + score_adds new, ev ++ new, acc ++ [b']) /\
    T_ok T' /\ Forall (kill_event A) new /\ aimed_at gid b'.
Proof.
  intros Hgid (Hp & He & Hb) Haim. rewrite bullet_step_proj.
  pose proof (Bullet_update_aim A dt b (members (attackable_group b) T) sc gid Haim)
    as Haim'.
  rewrite Bullet_update_score.
  destruct Haim as [Hg Hd]. rewrite Hg in *.
  eexists _, _, _. split; [reflexivity|].
  destruct Hgid as [-> | ->]; unfold T_ok; simpl.
  - destruct (Bullet_update_enemies A dt b (t_enemies T) sc Hd He) as [He' Hev].
    tauto.
  - destruct (Bullet_update_player A dt b (t_player T) sc Hp)
      as (p' & Hl & Hp' & Hnone).
    rewrite Hl, Hnone. simpl.
    assert (Hnil : Forall (kill_event A) []) by constructor. tauto.
Qed.

Lemma bullet_fold_ok (A : Assets) (dt : Q) (gid : GroupId) (bs : list Bullet) :
  gid = G_enemies \/ gid = G_player_group ->
  forall (T : Targets) (sc : Z) (ev : list Event) (acc : list Bullet),
    T_ok T -> Forall (aimed_at gid) bs -> Forall (aimed_at gid) acc ->
    exists T' new acc',
      foldl (bullet_step A dt) (T, sc, ev, acc) bs
      = (T', sc + score_adds new, ev ++ new, acc') /\
      T_ok T' /\ Forall (kill_event A) new /\ Forall (aimed_at gid) acc'.
Proof.
  intros Hgid. induction bs as [|b bs IH]; intros T sc ev acc HT Hbs Hacc.
  - exists T, [], acc. simpl. rewrite Z.add_0_r, app_nil_r.
    assert (Hnil : Forall (kill_event A) []) by constructor. tauto.
  - apply Forall_cons in Hbs as [Hb Hbs]. cbn [foldl].
    destruct (bullet_step_ok A dt gid T sc ev acc b Hgid HT Hb)
      as (T1 & new1 & b' & -> & HT1 & Hnew1 & Hb').
    destruct (IH T1 (sc + score_adds new1) (ev ++ new1) (acc ++ [b']) HT1 Hbs)
      as (T2 & new2 & acc2 & -> & HT2 & Hnew2 & Hacc2).
    { apply Forall_app. split; [assumption|]. now constructor. }
    exists T2, (new1 ++ new2), acc2.
    rewrite score_adds_app, <- app_assoc, Z.add_assoc.
    assert (Hall : Forall (kill_event A) (new1 ++ new2)) by now apply Forall_app.
    tauto.
Qed.

Lemma update_bullets_ok (A : Assets) (dt : Q) (gid : GroupId) (T : Targets)
    (sc : Z) (bs : list Bullet) :
  gid = G_enemies \/ gid = G_player_group ->
  T_ok T -> Forall (aimed_at gid) bs ->
  exists T' new bs',
    update_bullets A dt T sc bs = (T', sc + score_adds new, new, bs') /\
    T_ok T' /\ Forall (kill_event A) new /\ Forall (aimed_at gid) bs'.
Proof.
  intros Hgid HT Hbs. unfold update_bullets.
  destruct (bullet_fold_ok A dt gid bs Hgid T sc [] [] HT Hbs)
    as (T' & new & acc & -> & HT' & Hnew & Hacc); [constructor|].
  exists T', new, (filter (fun b => b_alive b = true) acc).
  split; [reflexivity|]. split; [exact HT'|]. split; [exact Hnew|].
  apply Forall_forall. intros b Hb.
  apply list_elem_of_filter in Hb as [_ Hb].
  rewrite Forall_forall in Hacc. now apply Hacc.
Qed.

Lemma Character_update_enemy_ok (dt : Q) (c : Character) :
  enemy_ok c -> enemy_ok (Character_update dt c).
Proof.
  unfold enemy_ok.
  destruct (Character_update_fields dt c) as (-> & -> & _ & -> & _). tauto.
Qed.

Lemma Character_update_boss_ok (dt : Q) (c : Character) :
  boss_ok c -> boss_ok (Character_update dt c).
Proof.
  unfold boss_ok.
  destruct (Character_update_fields dt c) as (-> & -> & _ & -> & _). tauto.
Qed.

Lemma pursue_fields (spd : Z) (dt : Q) (target : Rect) (c c' : Character) :
  pursue spd dt target c = Some c' ->
  kind c' = kind c /\ hp c' = hp c /\ alive c' = alive c.
Proof.
  unfold pursue. destruct (calc_orientation _ _) as [[dx dy]|]; [|discriminate].
  intros [= <-]. now repeat split.
Qed.

Lemma Enemy_update_ok (dt : Q) (target e e' : Character) :
  enemy_ok e -> Enemy_update dt target e = Some e' -> enemy_ok e'.
Proof.
  intros Hok. apply (Character_update_enemy_ok dt) in Hok.
  unfold Enemy_update. destruct (kind (Character_update dt e)) eqn:Hk;
    try (intros [= <-]; exact Hok).
  destruct (Surd_lt_bool _ 50); [intros [= <-]; exact Hok|].
  intros Hp. apply pursue_fields in Hp as (Hk' & Hh & Ha).
  unfold enemy_ok in *. rewrite Hk', Hh, Ha. exact Hok.
Qed.

Lemma Bullet_init_aim (A : Assets) (img : Surface) (pos : Z * Z)
    (dir : Surd * Surd) (gid : GroupId) (spd : Z) (life : Q) (fix_img : bool) :
  aimed_at gid (Bullet_init A img pos dir gid spd 10 life fix_img).
Proof. now split. Qed.

Lemma BOSS_update_ok (A : Assets) (dt : Q) (target b b' : Character)
    (fl : list Bullet) :
  boss_ok b -> BOSS_update A dt target b = Some (b', fl) ->
  boss_ok b' /\ Forall (aimed_at G_player_group) fl.
Proof.
  intros Hok. apply (Character_update_boss_ok dt) in Hok.
  unfold BOSS_update.
  destruct (kind (Character_update dt b)) as [| | |sc0 spd0 tmr0] eqn:Hk;
    try (intros [= <- <-]; split; [exact Hok|constructor]).
  destruct (Surd_lt_bool _ 50); [intros [= <- <-]; split; [exact Hok|constructor]|].
  destruct (pursue _ _ _ _) as [b2|] eqn:Hp; [|discriminate].
  apply pursue_fields in Hp as (Hk' & Hh & Ha).
  assert (Hok2 : forall t, boss_ok (with_kind (KBOSS sc0 spd0 t) b2)).
  { intros t. destruct Hok as ((spd & tmr & Hkk) & Hhp & Hal).
    rewrite Hk in Hkk. injection Hkk as -> -> ->.
    split; [simpl; eauto|]. simpl. rewrite Hh, Ha. now split. }
  destruct (Qlt_bool ATTACK_INTERVAL_SEC _).
  - destruct (calc_orientation _ _) as [direction|]; [|discriminate].
    intros [= <- <-]. split; [apply Hok2|].
    constructor; [apply Bullet_init_aim|constructor].
  - intros [= <- <-]. split; [apply Hok2|constructor].
Qed.

Lemma update_boss_ok (A : Assets) (dt : Q) (target : Character)
    (bs bs' : list Character) (fl : list Bullet) :
  Forall boss_ok bs -> update_boss A dt target bs = Some (bs', fl) ->
  Forall boss_ok bs' /\ Forall (aimed_at G_player_group) fl.
Proof.
  intros Hbs. unfold update_boss.
  destruct (mapM _ bs) as [l|] eqn:Hm; [|discriminate].
  intros [= <- <-].
  assert (Hl : Forall (fun r => boss_ok r.1 /\ Forall (aimed_at G_player_group) r.2) l).
  { eapply mapM_Forall; [|exact Hbs|exact Hm].
    intros x [y f] Hx Hy. simpl. eapply BOSS_update_ok; eauto. }
  clear Hm. induction Hl as [|[y f] l [Hy Hf] _ [IH1 IH2]]; simpl.
  - split; constructor.
  - split; [now constructor|]. apply Forall_app. now split.
Qed.

Lemma draw_pair {S : Type} `{SpriteLaws S} (cam : Camera) (l : list S) :
  Group_support_camera_draw cam l
  = (l, map (fun s => EvBlit (sprite_image s) (on_screen cam (sprite_rect s))) l).
Proof.
  pose proof (Group_support_camera_draw_blits cam l) as Hb.
  pose proof (Group_support_camera_draw_restores cam l) as Hr.
  destruct (Group_support_camera_draw cam l) as [l' d]. simpl in *.
  now subst.
Qed.

Lemma blits_quiet {S : Type} `{Sprite S} (cam : Camera) (l : list S) :
  Forall quiet
    (map (fun s => EvBlit (sprite_image s) (on_screen cam (sprite_rect s))) l).
Proof. apply Forall_fmap, Forall_forall. intros s _. exact I. Qed.

Lemma Player_update_ok (A : Assets) (keys : Z -> bool) (dt : Q) (p : Character) :
  player_ok p -> player_ok (Player_update A keys dt p).
Proof.
  intros [(d & s & ai & an & Hk) Ha]. unfold Player_update.
  destruct (Character_update_fields dt p) as (_ & Hk' & _ & Ha' & _).
  rewrite Hk', Hk.
  destruct (foldl _ _ delta) as [r sum_mv].
  destruct (negb _); split; cbn; rewrite ?Hk', ?Ha'; eauto.
Qed.

Lemma difficulty_ok (sc : Z) (p : Character) :
  player_ok p -> player_ok (difficulty sc p).
Proof.
  intros [(d & s & ai & an & Hk) Ha]. unfold difficulty. rewrite Hk.
  destruct (_ && _); [split; cbn; eauto|].
  destruct (1500 <=? sc); split; cbn; eauto.
Qed.

Lemma player_vs_enemies_ok (A : Assets) (p : Character) (es : list Character) :
  player_ok p -> player_ok (player_vs_enemies A p es).
Proof.
  unfold player_vs_enemies. generalize (filter (fun e => colliderect (rect p) (rect e) = true) es).
  intros l. revert p. induction l as [|e l IH]; intros p Hp; [exact Hp|].
  cbn [foldl]. apply IH. now apply give_damage_alive_player.
Qed.

Lemma fire_ok (A : Assets) (i : Input) (cam : Camera) (p : Character)
    (bs bs' : list Bullet) (clk0 clk1 : Q) :
  Forall (aimed_at G_enemies) bs ->
  fire A i cam p bs clk0 = Some (bs', clk1) ->
  Forall (aimed_at G_enemies) bs'.
Proof.
  intros Hbs. unfold fire.
  destruct (kind p); try (intros [= <- _]; exact Hbs).
  destruct (Qlt_bool _ _); [|intros [= <- _]; exact Hbs].
  destruct (calc_orientation _ _) as [direction|]; [|discriminate].
  destruct (_ =? 3); intros [= <- _]; apply Forall_app; (split; [exact Hbs|]).
  - unfold gen_beams. simpl. repeat constructor.
  - repeat constructor.
Qed.

Lemma spritecollide_kill_rest (P : Bullet -> Prop) (r : Rect) (grp : list Bullet) :
  Forall P grp -> Forall P (spritecollide_kill r grp).2.
Proof.
  intros Hg. unfold spritecollide_kill. simpl.
  apply Forall_forall. intros b Hb. apply list_elem_of_filter in Hb as [_ Hb].
  rewrite Forall_forall in Hg. now apply Hg.
Qed.

Lemma groupcollide_kill_both_rest (P R : Bullet -> Prop) (ga : list Bullet) :
  forall gb, Forall P ga -> Forall R gb ->
             Forall P (groupcollide_kill_both ga gb).1 /\
             Forall R (groupcollide_kill_both ga gb).2.
Proof.
  induction ga as [|a ga IH]; intros gb Ha Hb; [now split|].
  cbn [groupcollide_kill_both].
  apply Forall_cons in Ha as [Ha Hga].
  pose proof (spritecollide_kill_rest R (b_rect a) gb Hb) as Hb1.
  destruct (spritecollide_kill (b_rect a) gb) as [hit1 gb1].
  cbn [fst snd] in Hb1.
  destruct (IH gb1 Hga Hb1) as [IH1 IH2].
  destruct (groupcollide_kill_both ga gb1) as [ga' gb2]. cbn [fst snd] in *.
  split; [|exact IH2]. destruct hit1; [now constructor | exact IH1].
Qed.

Lemma groupcollide_kill_b_rest (P : Character -> Prop) (R : Bullet -> Prop)
    (ga : list Character) :
  forall gb, Forall P ga -> Forall R gb ->
             Forall (fun x => P x.1) (groupcollide_kill_b ga gb).1 /\
             Forall R (groupcollide_kill_b ga gb).2.
Proof.
  induction ga as [|a ga IH]; intros gb Ha Hb; [now split|].
  cbn [groupcollide_kill_b].
  apply Forall_cons in Ha as [Ha Hga].
  pose proof (spritecollide_kill_rest R (rect a) gb Hb) as Hb1.
  destruct (spritecollide_kill (rect a) gb) as [hit1 gb1].
  cbn [fst snd] in Hb1.
  destruct (IH gb1 Hga Hb1) as [IH1 IH2].
  destruct (groupcollide_kill_b ga gb1) as [ga' gb2]. cbn [fst snd] in *.
  split; [|exact IH2]. now constructor.
Qed.

Lemma boss_damage_ok (A : Assets) (l : list (Character * bool)) :
  forall sc, Forall (fun x => boss_ok x.1) l ->
             Forall boss_ok (filter (fun b => alive b = true) (boss_damage A l sc).1.1) /\
             (boss_damage A l sc).1.2 = sc + score_adds (boss_damage A l sc).2 /\
             Forall (kill_event A) (boss_damage A l sc).2.
Proof.
  induction l as [|[b flag] l IH]; intros sc Hl; simpl.
  - split; [constructor|]. split; [lia|constructor].
  - apply Forall_cons in Hl as [Hb Hl]. simpl in Hb. destruct flag.
    + destruct (hp (give_damage A 10 b) <=? 0) eqn:Hhp.
      * destruct (IH (sc + 40) Hl) as (IH1 & IH2 & IH3).
        destruct (boss_damage A l (sc + 40)) as [[bs sc'] ev]. simpl in *.
        split; [|split].
        -- destruct (decide (alive (give_damage A 10 b) = true)) as [Hal|Hal].
           ++ rewrite filter_cons_True by exact Hal.
              constructor; [now apply give_damage_boss_ok | exact IH1].
           ++ now rewrite filter_cons_False by exact Hal.
        -- lia.
        -- constructor; [|exact IH3]. simpl. apply Z.leb_le in Hhp.
           split; [now right|]. split; [reflexivity|]. split; [exact Hhp|].
           destruct Hb as ((spd & tmr & Hk) & _). unfold get_score.
           now rewrite Hk.
      * destruct (IH sc Hl) as (IH1 & IH2 & IH3).
        destruct (boss_damage A l sc) as [[bs sc'] ev]. simpl in *.
        split; [|now split].
        destruct (decide (alive (give_damage A 10 b) = true)) as [Hal|Hal].
        -- rewrite filter_cons_True by exact Hal.
           constructor; [now apply give_damage_boss_ok | exact IH1].
        -- now rewrite filter_cons_False by exact Hal.
    + destruct (IH sc Hl) as (IH1 & IH2 & IH3).
      destruct (boss_damage A l sc) as [[bs sc'] ev]. simpl in *.
      split; [|now split].
      destruct Hb as (Hk & Hhp & Hal). rewrite filter_cons_True by exact Hal.
      constructor; [now split | exact IH1].
Qed.

Lemma Enemy_init_ok (img : Surface) (pos : Z * Z) : enemy_ok (Enemy_init img pos).
Proof. split; [now exists 100|]. split; [reflexivity|reflexivity]. Qed.

Lemma BOSS_init_ok (A : Assets) (pos : Z * Z) : boss_ok (BOSS_init A pos).
Proof. split; [now exists 100, 0%Q|]. split; reflexivity. Qed.

Lemma spawn_and_collide_ok (A : Assets) (i : Input) (g : Game) :
  Playing g ->
  Playing (spawn_and_collide A i g).1 /\
  score (spawn_and_collide A i g).1
  = score g + score_adds (spawn_and_collide A i g).2 /\
  Forall (kill_event A) (spawn_and_collide A i g).2.
Proof.
  intros [Hflag Hp He Hb Hbs Hfl]. unfold spawn_and_collide.
  set (p1 := difficulty (score g) (player g)).
  assert (Hes : Forall enemy_ok
                  (if Qlt_bool (5 # 10) (enemy_spawn_interval_tmr g)
                   then (enemies g ++ [Enemy_init (enemy_img i)
                           (spawn_point (camera g) (enemy_spawn_dir i))], 0%Q)
                   else (enemies g, enemy_spawn_interval_tmr g)).1).
  { destruct (Qlt_bool _ _); simpl; [|exact He].
    apply Forall_app. split; [exact He|].
    constructor; [apply Enemy_init_ok|constructor]. }
  destruct (if Qlt_bool (5 # 10) _ then _ else _) as [es1 etmr0].
  assert (Hbo : Forall boss_ok
                  (if Qlt_bool 3 (boss_spawn_interval_tmr g)
                   then (boss g ++ [BOSS_init A
                           (spawn_point (camera g) (boss_spawn_dir i))], 0%Q)
                   else (boss g, boss_spawn_interval_tmr g)).1).
  { destruct (Qlt_bool _ _); simpl; [|exact Hb].
    apply Forall_app. split; [exact Hb|].
    constructor; [apply BOSS_init_ok|constructor]. }
  destruct (if Qlt_bool 3 _ then _ else _) as [bo1 btmr0].
  cbn [fst] in Hes, Hbo.
  destruct (groupcollide_kill_both_rest _ _ (flame g) (bullets g) Hfl Hbs)
    as [Hfl1 Hbs1].
  destruct (groupcollide_kill_both (flame g) (bullets g)) as [fl1 bs1].
  cbn [fst snd] in Hfl1, Hbs1.
  destruct (groupcollide_kill_b_rest _ _ bo1 bs1 Hbo Hbs1) as [Hcr Hbs2].
  destruct (groupcollide_kill_b bo1 bs1) as [crashed bs2].
  cbn [fst snd] in Hcr, Hbs2.
  destruct (boss_damage_ok A crashed (score g) Hcr) as (Hbo2 & Hsc & Hev).
  destruct (boss_damage A crashed (score g)) as [[bo2 sc1] ev1].
  cbn [fst snd] in *.
  split; [|split; [exact Hsc | constructor; [exact I | exact Hev]]].
  constructor; cbn; try assumption.
  apply player_vs_enemies_ok. now apply difficulty_ok.
Qed.

Lemma with_max_fps_Playing (fps : Z) (g : Game) :
  Playing g -> Playing (with_max_fps fps g).
Proof. intros []. now constructor. Qed.

Lemma scroll_background_ok (A : Assets) (g g' : Game) (ev : list Event) :
  scroll_background g = Some (g', ev) ->
  Playing g ->
  Playing g' /\ score g' = score g /\ score_adds ev = 0 /\
  Forall (kill_event A) ev.
Proof.
  unfold scroll_background.
  destruct (mapM _ (background g)) as [bg1|]; [|discriminate].
  rewrite (draw_pair (S := Background)).
  intros [= <- <-] []. split; [now constructor|]. split; [reflexivity|].
  destruct (quiet_adds A _ (blits_quiet (S := Background) (camera g) bg1))
    as [H0 Hk].
  split; [exact H0|]. constructor; [exact I|exact Hk].
Qed.

Lemma final_frame_no_score (A : Assets) (i : Input) (g : Game) (p : Character)
    (txt : Text) (num : Z) :
  score_adds (final_frame A i g p txt num) = 0 /\
  Forall (kill_event A) (final_frame A i g p txt num).
Proof.
  rewrite final_frame_events. simpl. split; [reflexivity|].
  repeat constructor.
Qed.

Lemma play_ok (A : Assets) (i : Input) (g : Game) :
  Playing g ->
  Forall (kill_event A) (play A i g).2 /\
  forall g', (play A i g).1 = Continue g' ->
             Playing g' /\ score g' = score g + score_adds (play A i g).2.
Proof.
  intros [Hflag Hp He Hb Hbs Hfl]. unfold play.
  set (p1 := Player_update A (key_lst i) (dtime g) (player g)).
  assert (Hp1 : player_ok p1) by now apply Player_update_ok.
  set (cam := mkCamera _ _ _).
  destruct (fire A i cam p1 (bullets g) (clk g)) as [[bs1 clk1]|] eqn:Hfire;
    [|split; [repeat constructor | discriminate]].
  apply (fire_ok _ _ _ _ _ _ _ _ Hbs) in Hfire.
  destruct (mapM _ (enemies g)) as [es1|] eqn:Hes;
    [|split; [repeat constructor | discriminate]].
  assert (Hes1 : Forall enemy_ok es1).
  { eapply mapM_Forall; [|exact He|exact Hes].
    intros x y Hx Hy. eapply Enemy_update_ok; eauto. }
  destruct (update_boss A (dtime g) p1 (boss g)) as [[bo1 nf]|] eqn:Hbo;
    [|split; [repeat constructor | discriminate]].
  destruct (update_boss_ok A _ _ _ _ _ Hb Hbo) as [Hbo1 Hnf].
  destruct (update_bullets_ok A (dtime g) G_enemies (mkTargets p1 es1 bo1)
              (score g) bs1 (or_introl eq_refl))
    as (T1 & new1 & bs2 & -> & HT1 & Hnew1 & Hbs2); [now split|exact Hfire|].
  destruct (update_bullets_ok A (dtime g) G_player_group T1
              (score g + score_adds new1) (flame g ++ nf) (or_intror eq_refl) HT1)
    as (T2 & new2 & fl2 & -> & HT2 & Hnew2 & Hfl2);
    [apply Forall_app; now split|].
  rewrite !(draw_pair (S := Character)), !(draw_pair (S := Bullet)).
  cbn [fst snd head default].
  destruct HT2 as (Hp2 & He2 & Hb2).
  destruct (quiet_adds A _ (blits_quiet (S := Character) cam [t_player T2])) as [Z1 K1].
  destruct (quiet_adds A _ (blits_quiet (S := Bullet) cam bs2)) as [Z2 K2].
  destruct (quiet_adds A _ (blits_quiet (S := Character) cam (t_enemies T2))) as [Z3 K3].
  destruct (quiet_adds A _ (blits_quiet (S := Character) cam (t_boss T2))) as [Z4 K4].
  destruct (quiet_adds A _ (blits_quiet (S := Bullet) cam fl2)) as [Z5 K5].
  split.
  - repeat (apply Forall_cons; split; [exact I|]).
    repeat (apply Forall_app; split; [assumption|]).
    apply Forall_cons; split; [exact I|].
    repeat (apply Forall_app; split; [assumption|]).
    repeat constructor.
  - intros g' [= <-]. split; [now constructor|]. cbn [score].
    rewrite !score_adds_app, Z1, Z2, Z3, Z4, Z5. simpl. lia.
Qed.

Lemma check_phase_ok (A : Assets) (i : Input) (g : Game) :
  Playing g ->
  Forall (kill_event A) (check_phase A i g).2 /\
  forall g', (check_phase A i g).1 = Continue g' ->
             Playing g' /\ score g' = score g + score_adds (check_phase A i g).2.
Proof.
  intros Hg. unfold check_phase.
  destruct (hp (player g) <=? 0).
  - split; [apply final_frame_no_score | discriminate].
  - destruct (60 <=? Qtrunc (suvivetime g)); cbn [gameFlag with_gameFlag].
    + split; [|discriminate].
      constructor; [exact I | apply final_frame_no_score].
    + rewrite (playing_flag g Hg).
      destruct (play_ok A i g Hg) as [Hev Hcont].
      destruct (play A i g) as [out ev]. cbn [fst snd] in *.
      split; [constructor; [exact I | exact Hev]|].
      intros g' Hout. destruct (Hcont g' Hout) as [HP Hs].
      split; [exact HP|]. rewrite Hs. reflexivity.
Qed.

Lemma frame_ok (A : Assets) (i : Input) (g : Game) :
  Playing g ->
  Forall (kill_event A) (frame A i g).2 /\
  forall g', (frame A i g).1 = Continue g' ->
             Playing g' /\ score g' = score g + score_adds (frame A i g).2.
Proof.
  intros Hg. unfold frame.
  pose proof (handle_events_quiet (events i) (max_fps g)) as Hq.
  destruct (handle_events (events i) (max_fps g)) as [[fps|] ev0];
    cbn [snd] in Hq; apply (quiet_adds A) in Hq as [Hz0 Hk0];
    [|split; [exact Hk0 | discriminate]].
  destruct (spawn_and_collide_ok A i (with_max_fps fps g)
              (with_max_fps_Playing fps g Hg)) as (Hg1 & Hs1 & Hk1).
  destruct (spawn_and_collide A i (with_max_fps fps g)) as [g1 ev1].
  cbn [fst snd] in *.
  destruct (scroll_background g1) as [[g2 ev2]|] eqn:Hbg.
  - destruct (scroll_background_ok A g1 g2 ev2 Hbg Hg1) as (Hg2 & Hs2 & Hz2 & Hk2).
    destruct (check_phase_ok A i g2 Hg2) as [Hk3 Hcont].
    destruct (check_phase A i g2) as [out ev3]. cbn [fst snd] in *.
    split; [repeat (apply Forall_app; split; [assumption|]); assumption|].
    intros g' Hout. destruct (Hcont g' Hout) as [HP Hs].
    split; [exact HP|].
    change (score (with_max_fps fps g)) with (score g) in Hs1.
    rewrite !score_adds_app. lia.
  - split; [now apply Forall_app | discriminate].
Qed.

Lemma run_ok (A : Assets) (inputs : list Input) :
  forall g, Playing g ->
            Forall (kill_event A) (run A inputs g).2 /\
            forall g', (run A inputs g).1 = Continue g' ->
                       Playing g' /\
                       score g' = score g + score_adds (run A inputs g).2.
Proof.
  induction inputs as [|i inputs IH]; intros g Hg; cbn [run].
  - split; [constructor|]. intros g' [= <-]. split; [exact Hg|]. simpl. lia.
  - destruct (frame_ok A i g Hg) as [Hk Hcont].
    destruct (frame A i g) as [out ev]. cbn [fst snd] in *.
    destruct out as [g1| | | |]; try (split; [exact Hk | discriminate]).
    destruct (Hcont g1 eq_refl) as [Hg1 Hs1].
    destruct (IH g1 Hg1) as [Hk' Hcont'].
    destruct (run A inputs g1) as [out' ev']. cbn [fst snd] in *.
    split; [now apply Forall_app|].
    intros g' Hout. destruct (Hcont' g' Hout) as [HP Hs].
    split; [exact HP|]. rewrite score_adds_app. lia.
Qed.

Lemma main_init_Playing (A : Assets) : Playing (main_init A).
Proof.
  constructor; cbn; try constructor.
  - now exists (1, 0), 500, (2 # 10)%Q, 1.
  - reflexivity.
Qed.

(** C6.  Along every run of [main], from the state any number of passes has
    reached, further passes never lower the score; the score grows by
    exactly the total of the [score_up] calls made, and each such call
    rewards a living enemy or boss of the groups whose health a projectile's
    hit took from above zero to zero or below, by that target's score. *)
Theorem score_only_rewards_kills (A : Assets) (inputs more : list Input)
    (g1 : Game) :
  (run A inputs (main_init A)).1 = Continue g1 ->
  Forall (kill_event A) (run A more g1).2 /\
  0 <= score_adds (run A more g1).2 /\
  forall g2, (run A more g1).1 = Continue g2 ->
             score g1 <= score g2 /\
             score g2 = score g1 + score_adds (run A more g1).2.
Proof.
  intros H1.
  destruct (run_ok A inputs (main_init A) (main_init_Playing A)) as [_ Hc1].
  destruct (Hc1 g1 H1) as [Hg1 _].
  destruct (run_ok A more g1 Hg1) as [Hk Hc2].
  pose proof (kill_event_nonneg A _ Hk) as Hnn.
  split; [exact Hk|]. split; [exact Hnn|].
  intros g2 H2. destruct (Hc2 g2 H2) as [_ Hs]. split; [lia|exact Hs].
Qed.

(** In the second second of a run that keeps firing to the right the first
    enemy is defeated: the score goes from 0 to 30. *)
Lemma score_only_rewards_kills_witness :
  score after_1_second <= score after_2_seconds /\
  score after_1_second = 0 /\ score after_2_seconds = 30.
Proof.
  destruct (score_only_rewards_kills demo_assets (replicate 10 aim_right)
              (replicate 10 aim_right) after_1_second) as (_ & _ & H).
  - vm_compute. reflexivity.
  - destruct (H after_2_seconds) as [Hle _].
    + vm_compute. reflexivity.
    + split; [exact Hle|]. vm_compute. split; reflexivity.
Defined.

(** * Further properties of the code *)

(** ** calc_orientation *)

Lemma Qsquares_zero (x y : Q) : (x * x + y * y == 0)%Q -> (x == 0)%Q /\ (y == 0)%Q.
Proof. intros H. split; nra. Qed.

(** X1.  [calc_orientation] raises ZeroDivisionError exactly when the two
    points are the same point; for any two different points it returns a
    direction. *)
Theorem calc_orientation_fails_iff_same_point (org dst : Q * Q) :
  calc_orientation org dst = None <->
  (fst dst == fst org)%Q /\ (snd dst == snd org)%Q.
Proof.
  unfold calc_orientation, Q_div_Surd, Surd_is_zero, Surd_sqrt. simpl.
  set (x := (fst dst - fst org)%Q). set (y := (snd dst - snd org)%Q).
  destruct (Qeq_bool (x * x + y * y) 0) eqn:E.
  - apply Qeq_bool_iff in E. apply Qsquares_zero in E as [Hx Hy].
    split; [intros _|reflexivity]. unfold x, y in *. split; lra.
  - split; [discriminate|]. intros [Hx Hy].
    apply Qeq_bool_neq in E. exfalso. apply E. unfold x, y.
    rewrite Hx, Hy. ring.
Qed.

Lemma calc_orientation_unit (org dst : Q * Q) (x y : Surd) :
  calc_orientation org dst = Some (x, y) ->
  (Surd_sq x + Surd_sq y == 1)%Q /\
  (0 <= coef x * (fst dst - fst org))%Q /\
  (0 <= coef y * (snd dst - snd org))%Q.
Proof.
  unfold calc_orientation, Q_div_Surd, Surd_is_zero, Surd_sqrt, Surd_sq. simpl.
  set (a := (fst dst - fst org)%Q). set (b := (snd dst - snd org)%Q).
  destruct (Qeq_bool (a * a + b * b) 0) eqn:E; [discriminate|].
  apply Qeq_bool_neq in E. intros [= <- <-]. simpl.
  assert (Hn : (0 < a * a + b * b)%Q).
  { destruct (Qlt_le_dec 0 (a * a + b * b)) as [H|H]; [exact H|].
    exfalso. apply E. nra. }
  set (n := (a * a + b * b)%Q) in *.
  assert (Hi : (0 < / (1 * n))%Q) by (apply Qinv_lt_0_compat; lra).
  split; [unfold n; field; exact E|].
  unfold Qdiv. split.
  - assert (Heq : (a * / (1 * n) * a == (a * a) * / (1 * n))%Q) by ring.
    rewrite Heq. apply Qmult_le_0_compat; [nra | lra].
  - assert (Heq : (b * / (1 * n) * b == (b * b) * / (1 * n))%Q) by ring.
    rewrite Heq. apply Qmult_le_0_compat; [nra | lra].
Qed.

Lemma Qnum_sgn (q : Q) :
  (0 < Z.sgn (Qnum q) <-> (0 < q)%Q) /\ (Z.sgn (Qnum q) < 0 <-> (q < 0)%Q).
Proof. destruct q as [n d]. unfold Qlt. simpl. lia. Qed.

Lemma Qsgn_mul_pos (a k : Q) : (0 < k)%Q -> Qsgn (a * k) = Qsgn a.
Proof.
  intros Hk. unfold Qsgn.
  destruct (Qnum_sgn (a * k)) as [Hp Hn]. destruct (Qnum_sgn a) as [Hp' Hn'].
  destruct (Qlt_le_dec 0 a) as [Ha|Ha].
  - assert (H : (0 < a * k)%Q) by nra. apply Hp in H. apply Hp' in Ha. lia.
  - destruct (Qlt_le_dec a 0) as [Ha'|Ha'].
    + assert (H : (a * k < 0)%Q) by nra. apply Hn in H. apply Hn' in Ha'. lia.
    + assert (H0 : (a == 0)%Q) by lra.
      assert (H1 : (a * k == 0)%Q) by (rewrite H0; ring).
      assert (Hz : forall q : Q, (q == 0)%Q -> Z.sgn (Qnum q) = 0).
      { intros [n d]. unfold Qeq. simpl. lia. }
      now rewrite (Hz _ H0), (Hz _ H1).
Qed.

Lemma calc_orientation_sign (org dst : Q * Q) (x y : Surd) :
  calc_orientation org dst = Some (x, y) ->
  (0 < radicand x)%Q /\ radicand y = radicand x /\
  Surd_sgn x = Qsgn (fst dst - fst org) /\
  Surd_sgn y = Qsgn (snd dst - snd org) /\
  (coef x * (snd dst - snd org) == coef y * (fst dst - fst org))%Q.
Proof.
  unfold calc_orientation, Q_div_Surd, Surd_is_zero, Surd_sqrt, Surd_sgn. simpl.
  set (a := (fst dst - fst org)%Q). set (b := (snd dst - snd org)%Q).
  destruct (Qeq_bool (a * a + b * b) 0) eqn:E; [discriminate|].
  apply Qeq_bool_neq in E. intros [= <- <-]. simpl.
  assert (Hn : (0 < a * a + b * b)%Q).
  { destruct (Qlt_le_dec 0 (a * a + b * b)) as [H|H]; [exact H|].
    exfalso. apply E. nra. }
  set (n := (a * a + b * b)%Q) in *.
  assert (Hi : (0 < / (1 * n))%Q) by (apply Qinv_lt_0_compat; lra).
  split; [exact Hn|]. split; [reflexivity|].
  unfold Qdiv. split; [apply Qsgn_mul_pos; exact Hi|].
  split; [apply Qsgn_mul_pos; exact Hi|]. ring.
Qed.

(** X2.  The pair [calc_orientation] returns is the unit vector that points
    from [org] to [dst]: the squares of its components add up to 1, each
    component is positive, zero or negative exactly when the corresponding
    coordinate difference [dst - org] is, and the pair is parallel to the
    pair of differences.  (Both components are multiples of one square
    root, so signs and proportions can be read off the coefficients.) *)
Theorem calc_orientation_unit_vector (org dst : Q * Q) (x y : Surd) :
  calc_orientation org dst = Some (x, y) ->
  (Surd_sq x + Surd_sq y == 1)%Q /\
  (0 < radicand x)%Q /\ radicand y = radicand x /\
  Surd_sgn x = Qsgn (fst dst - fst org) /\
  Surd_sgn y = Qsgn (snd dst - snd org) /\
  (coef x * (snd dst - snd org) == coef y * (fst dst - fst org))%Q.
Proof.
  intros H. split; [apply (calc_orientation_unit org dst x y H)|].
  apply (calc_orientation_sign org dst x y H).
Qed.

(** From (0,0) toward (3,-4) the direction is (3/5, -4/5): the first
    component is positive and the second negative. *)
Lemma calc_orientation_unit_vector_witness :
  (Surd_sq (mkSurd (3 # 25) 25) + Surd_sq (mkSurd (-4 # 25) 25) == 1)%Q /\
  Surd_sgn (mkSurd (3 # 25) 25) = 1 /\
  Surd_sgn (mkSurd (-4 # 25) 25) = -1.
Proof.
  destruct (calc_orientation_unit_vector (0, 0)%Q (3, -4)%Q
              (mkSurd (3 # 25) 25) (mkSurd (-4 # 25) 25))
    as (Hu & _ & _ & Hx & Hy & _).
  - vm_compute. reflexivity.
  - split; [exact Hu|]. split; [exact Hx | exact Hy].
Defined.

(** ** Enemy.update and BOSS.update *)

Lemma calc_orientation_radicand (org dst : Q * Q) (x y : Surd) :
  calc_orientation org dst = Some (x, y) ->
  (0 <= radicand x)%Q /\ (0 <= radicand y)%Q.
Proof.
  unfold calc_orientation, Q_div_Surd, Surd_is_zero, Surd_sqrt.
  cbn [coef radicand].
  set (a := (fst dst - fst org)%Q). set (b := (snd dst - snd org)%Q).
  destruct (Qeq_bool 1 0 || Qeq_bool (a * a + b * b) 0); [discriminate|].
  intros [= <- <-]. cbn [radicand]. split; nra.
Qed.

Lemma Surd_sq_mul (s : Surd) (p q : Q) :
  (Surd_sq (Surd_mul_Q (Surd_mul_Q s p) q) == Surd_sq s * (p * q) * (p * q))%Q.
Proof. unfold Surd_sq, Surd_mul_Q. simpl. ring. Qed.

Lemma pursue_step (spd : Z) (dt : Q) (target : Rect) (c c' : Character) :
  pursue spd dt target c = Some c' ->
  rw (rect c') = rw (rect c) /\ rh (rect c') = rh (rect c) /\
  (inject_Z ((rx (rect c') - rx (rect c)) * (rx (rect c') - rx (rect c))
             + (ry (rect c') - ry (rect c)) * (ry (rect c') - ry (rect c)))
   <= (inject_Z spd * dt) * (inject_Z spd * dt))%Q.
Proof.
  unfold pursue.
  destruct (calc_orientation _ _) as [[dx dy]|] eqn:Ho; [|discriminate].
  intros [= <-]. simpl. split; [reflexivity|]. split; [reflexivity|].
  destruct (calc_orientation_unit _ _ _ _ Ho) as (Hu & _ & _).
  destruct (calc_orientation_radicand _ _ _ _ Ho) as [Hrx Hry].
  set (sx := Surd_mul_Q (Surd_mul_Q dx (inject_Z spd)) dt).
  set (sy := Surd_mul_Q (Surd_mul_Q dy (inject_Z spd)) dt).
  destruct (Surd_trunc_bounds sx Hrx) as (Hbx & _).
  destruct (Surd_trunc_bounds sy Hry) as (Hby & _).
  fold (Surd_sq sx) in Hbx. fold (Surd_sq sy) in Hby.
  unfold sx in Hbx. unfold sy in Hby. rewrite Surd_sq_mul in Hbx, Hby.
  replace (rx (rect c) + Surd_trunc sx - rx (rect c)) with (Surd_trunc sx) by lia.
  replace (ry (rect c) + Surd_trunc sy - ry (rect c)) with (Surd_trunc sy) by lia.
  rewrite inject_Z_plus. fold sx in Hbx. fold sy in Hby.
  assert (Hsum : (Surd_sq dx * (inject_Z spd * dt) * (inject_Z spd * dt)
                  + Surd_sq dy * (inject_Z spd * dt) * (inject_Z spd * dt)
                  == inject_Z spd * dt * (inject_Z spd * dt))%Q).
  { assert (Hd : (Surd_sq dy == 1 - Surd_sq dx)%Q) by lra.
    rewrite Hd. ring. }
  rewrite <- Hsum. lra.
Qed.

Lemma center_set_center (p : Z * Z) (r : Rect) : center (set_center p r) = p.
Proof.
  destruct p as [x y]. unfold center, centerx, centery, set_center. simpl.
  f_equal; lia.
Qed.

(** X3.  [Enemy.update] never changes the enemy's health, class or group
    membership, keeps the size of its rectangle, and moves it by at most
    speed * |dt| pixels; when the centres are less than 50 pixels apart it
    does not move it at all. *)
Theorem Enemy_update_step (dt : Q) (target e e' : Character) (sc spd : Z) :
  kind e = KEnemy sc spd ->
  Enemy_update dt target e = Some e' ->
  hp e' = hp e /\ alive e' = alive e /\ kind e' = kind e /\
  rw (rect e') = rw (rect e) /\ rh (rect e') = rh (rect e) /\
  (inject_Z (moved2 (rect e) (rect e'))
   <= (inject_Z spd * dt) * (inject_Z spd * dt))%Q /\
  (centre_dist2 (rect e) (rect target) < 2500 -> rect e' = rect e).
Proof.
  intros Hk. unfold Enemy_update.
  destruct (Character_update_fields dt e) as (Hh & Hk' & Hr & Ha & _).
  rewrite Hk', Hk, Hr.
  assert (Hsq : (0 <= inject_Z spd * dt * (inject_Z spd * dt))%Q) by nra.
  destruct (Surd_lt_bool (calc_norm (rect e) (rect target)) 50) eqn:Hn.
  - intros [= <-]. rewrite Hh, Ha, Hk', Hr. unfold moved2.
    replace ((rx (rect e) - rx (rect e)) * (rx (rect e) - rx (rect e))
             + (ry (rect e) - ry (rect e)) * (ry (rect e) - ry (rect e)))
      with 0 by ring.
    repeat split; assumption.
  - intros Hp.
    destruct (pursue_fields _ _ _ _ _ Hp) as (Hk2 & Hh2 & Ha2).
    destruct (pursue_step _ _ _ _ _ Hp) as (Hw & Hhh & Hm).
    rewrite Hr in Hw, Hhh, Hm.
    rewrite Hk2, Hh2, Ha2, Hh, Ha, Hk'. unfold moved2.
    repeat split; try assumption.
    intros Hnear. apply calc_norm_lt_50 in Hnear. congruence.
Qed.

(** An enemy at (300,400), one tenth of a second: it moves 5 left and 8 up. *)
Lemma Enemy_update_step_witness :
  Enemy_update (1 # 10) near_player far_enemy
  = Some (with_rect (mkRect 245 342 100 100) (Character_update (1 # 10) far_enemy))
  /\ (inject_Z (5 * 5 + 8 * 8) <= 100)%Q.
Proof.
  assert (H : Enemy_update (1 # 10) near_player far_enemy
              = Some (with_rect (mkRect 245 342 100 100)
                        (Character_update (1 # 10) far_enemy)))
    by (vm_compute; reflexivity).
  split; [exact H|].
  destruct (Enemy_update_step (1 # 10) near_player far_enemy _ 30 100
              eq_refl H) as (_ & _ & _ & _ & _ & Hm & _).
  vm_compute in Hm. vm_compute. exact Hm.
Defined.

(** X4.  [BOSS.update] never changes the boss's health or group membership
    and moves it by at most speed * |dt| pixels.  It adds at most one bullet
    per call, and adds one exactly when the centres are at least 50 pixels
    apart and the attack timer is above one second; that bullet is centred
    on the middle of the boss's lower edge, is new (age 0), aims at the
    player's group and has damage 10, and the timer restarts from [dt]. *)
Theorem BOSS_update_shot (A : Assets) (dt : Q) (target b b' : Character)
    (fl : list Bullet) (sc spd : Z) (tmr : Q) :
  kind b = KBOSS sc spd tmr ->
  BOSS_update A dt target b = Some (b', fl) ->
  hp b' = hp b /\ alive b' = alive b /\
  (inject_Z (moved2 (rect b) (rect b'))
   <= (inject_Z spd * dt) * (inject_Z spd * dt))%Q /\
  (fl <> [] <->
   2500 <= centre_dist2 (rect b) (rect target) /\ (1 < tmr)%Q) /\
  (fl <> [] ->
   kind b' = KBOSS sc spd (0 + dt)%Q /\
   exists f, fl = [f] /\ center (b_rect f) = midbottom (rect b') /\
             life_tmr f = 0%Q /\ b_alive f = true /\
             aimed_at G_player_group f).
Proof.
  intros Hk. unfold BOSS_update.
  destruct (Character_update_fields dt b) as (Hh & Hk' & Hr & Ha & _).
  rewrite Hk', Hk, Hr.
  assert (Hsq : (0 <= inject_Z spd * dt * (inject_Z spd * dt))%Q) by nra.
  pose proof (calc_norm_lt_50 (rect b) (rect target)) as Hnorm.
  fold (centre_dist2 (rect b) (rect target)) in Hnorm.
  destruct (Surd_lt_bool (calc_norm (rect b) (rect target)) 50) eqn:Hn.
  - intros [= <- <-]. rewrite Hh, Ha, Hr. unfold moved2.
    replace ((rx (rect b) - rx (rect b)) * (rx (rect b) - rx (rect b))
             + (ry (rect b) - ry (rect b)) * (ry (rect b) - ry (rect b)))
      with 0 by ring.
    assert (Hlt : centre_dist2 (rect b) (rect target) < 2500) by now apply Hnorm.
    split; [reflexivity|]. split; [reflexivity|]. split; [exact Hsq|].
    split; [split; [congruence | lia] | congruence].
  - assert (Hge : 2500 <= centre_dist2 (rect b) (rect target)).
    { destruct (Z.lt_ge_cases (centre_dist2 (rect b) (rect target)) 2500) as [H|H];
        [apply Hnorm in H; congruence | exact H]. }
    destruct (pursue _ _ _ _) as [b2|] eqn:Hp; [|discriminate].
    destruct (pursue_fields _ _ _ _ _ Hp) as (Hk2 & Hh2 & Ha2).
    destruct (pursue_step _ _ _ _ _ Hp) as (_ & _ & Hm).
    rewrite Hr in Hm. fold (moved2 (rect b) (rect b2)) in Hm.
    unfold ATTACK_INTERVAL_SEC.
    destruct (Qlt_bool 1 tmr) eqn:Ht.
    + destruct (calc_orientation _ _) as [direction|]; [|discriminate].
      intros [= <- <-]. cbn [hp alive rect with_kind kind].
      rewrite Hh2, Ha2, Hh, Ha. apply Qlt_bool_iff in Ht.
      split; [reflexivity|]. split; [reflexivity|]. split; [exact Hm|].
      split; [split; [intros _; now split | discriminate]|].
      intros _. split; [reflexivity|].
      eexists. split; [reflexivity|].
      split; [apply center_set_center|]. now repeat split.
    + intros [= <- <-]. cbn [hp alive rect with_kind kind].
      rewrite Hh2, Ha2, Hh, Ha. apply Qlt_bool_false_iff in Ht.
      split; [reflexivity|]. split; [reflexivity|]. split; [exact Hm|].
      split; [|congruence].
      split; [congruence|]. intros [_ Hlt]. exfalso. lra.
Qed.

(** A boss 600 pixels below the player with 1.5 s on its attack timer
    shoots. *)
Lemma BOSS_update_shot_witness :
  exists b' f, BOSS_update demo_assets (1 # 10) near_player far_boss
               = Some (b', [f]) /\ hp b' = 50.
Proof.
  destruct (BOSS_update demo_assets (1 # 10) near_player far_boss)
    as [[b' fl]|] eqn:E; [|vm_compute in E; discriminate].
  destruct (BOSS_update_shot demo_assets (1 # 10) near_player far_boss b' fl
              40 100 (3 # 2) eq_refl E) as (Hh & _ & _ & Hiff & Hshot).
  assert (Hne : fl <> []).
  { apply Hiff. split; [vm_compute; discriminate | reflexivity]. }
  destruct (Hshot Hne) as (_ & f & -> & _).
  exists b', f. split; [reflexivity|]. rewrite Hh. reflexivity.
Defined.

(** ** Player.update *)

Lemma Qtrunc_key_step (s m : Z) (dt : Q) :
  Qtrunc (inject_Z s * inject_Z m * dt) = Z.quot (s * m * Qnum dt) (Zpos (Qden dt)).
Proof. unfold Qtrunc. destruct dt as [n d]. simpl. reflexivity. Qed.

Lemma Qtrunc_speed (s : Z) (dt : Q) :
  Qtrunc (inject_Z s * dt) = Z.quot (s * Qnum dt) (Zpos (Qden dt)).
Proof. unfold Qtrunc. destruct dt as [n d]. simpl. reflexivity. Qed.

(** X5.  [Player.update] moves the player's rectangle by one whole-pixel
    step [m] of speed * dt, the same for every key: along each axis the
    rectangle moves [m] times the net direction of the two keys of that
    axis, so opposite keys held together cancel exactly and two axes held
    together both move the full step.  The facing direction becomes the net
    direction when that is not (0,0), with the matching image at priority 0,
    and stays as it was otherwise; health never changes. *)
Theorem Player_update_moves (A : Assets) (keys : Z -> bool) (dt : Q)
    (p : Character) (d : Z * Z) (s : Z) (ai : Q) (an : Z) :
  kind p = KPlayer d s ai an ->
  (exists m : Z,
     pixel_step (Surd_of_Q (inject_Z s * dt)) m /\
     rect (Player_update A keys dt p)
     = move_ip (key_axis (keys K_a) (keys K_d) * m)
               (key_axis (keys K_w) (keys K_s) * m)
               (rect p)) /\
  hp (Player_update A keys dt p) = hp p /\
  get_direction (Player_update A keys dt p)
  = (if (key_axis (keys K_a) (keys K_d) =? 0)
        && (key_axis (keys K_w) (keys K_s) =? 0)
     then d
     else (key_axis (keys K_a) (keys K_d), key_axis (keys K_w) (keys K_s))) /\
  ((key_axis (keys K_a) (keys K_d), key_axis (keys K_w) (keys K_s)) <> (0, 0) ->
   _imgs (Player_update A keys dt p) !! 0
   = Some (move_imgs A (key_axis (keys K_a) (keys K_d),
                        key_axis (keys K_w) (keys K_s)), None)).
Proof.
  intros Hk.
  assert (Hstep : pixel_step (Surd_of_Q (inject_Z s * dt))
                             (Qtrunc (inject_Z s * dt))).
  { rewrite <- Surd_trunc_of_Q. apply Surd_trunc_pixel_step.
    unfold Surd_of_Q, Qle. simpl. lia. }
  unfold Player_update.
  destruct (Character_update_fields dt p) as (Hh & Hk' & Hr & _).
  rewrite Hk', Hk. unfold delta. cbn [foldl]. unfold Player_move.
  rewrite Hr. unfold move_ip_Q, get_direction, key_axis.
  rewrite !Qtrunc_key_step. rewrite Qtrunc_speed in Hstep.
  replace (s * 0 * Qnum dt) with 0 by ring.
  replace (s * -1 * Qnum dt) with (- (s * Qnum dt)) by ring.
  replace (s * 1 * Qnum dt) with (s * Qnum dt) by ring.
  rewrite Z.quot_opp_l by discriminate.
  change (0 ÷ Z.pos (Qden dt)) with 0.
  set (T := (s * Qnum dt) ÷ Z.pos (Qden dt)) in *. clearbody T.
  set (c := Character_update dt p) in *. clearbody c.
  destruct (rect p) as [x y w h].
  destruct (keys K_w), (keys K_s), (keys K_a), (keys K_d);
    simpl; rewrite ?Hh, ?Hk', ?Hk; simpl;
    (split; [exists T; split; [exact Hstep|];
             unfold move_ip; simpl; f_equal; lia|]);
    (split; [reflexivity|]); (split; [reflexivity|]);
    first [ intros Hne; exfalso; apply Hne; reflexivity
          | intros _; apply lookup_insert_eq ].
Qed.

(** Holding [d] for a tenth of a second moves the player to the right by a
    whole-pixel step of 50 and turns it to face right. *)
Lemma Player_update_moves_witness :
  (exists m : Z,
     pixel_step (Surd_of_Q (inject_Z 500 * (1 # 10))) m /\
     rect (Player_update demo_assets only_d (1 # 10)
             (Player_init demo_assets (0, 0)))
     = move_ip (1 * m) (0 * m) (rect (Player_init demo_assets (0, 0)))) /\
  get_direction (Player_update demo_assets only_d (1 # 10)
                   (Player_init demo_assets (0, 0))) = (1, 0).
Proof.
  destruct (Player_update_moves demo_assets only_d (1 # 10)
              (Player_init demo_assets (0, 0)) (1, 0) 500 (2 # 10) 1 eq_refl)
    as (H & _ & Hd & _).
  split; [exact H | exact Hd].
Defined.

(** ** The image layers *)

Lemma dict_max_unique {V} (m : gmap Z V) (k : Z) :
  is_Some (m !! k) -> (forall j, is_Some (m !! j) -> j <= k) ->
  dict_max m = Some k.
Proof.
  intros Hk Hmax. destruct (dict_max m) as [i|] eqn:E.
  - destruct (dict_max_Some m i E) as [Hi Hle].
    specialize (Hmax i Hi). specialize (Hle k Hk). f_equal. lia.
  - apply dict_max_None in E. subst m. rewrite lookup_empty in Hk.
    now destruct Hk.
Qed.

Lemma Character_update_shows_top (dt : Q) (c : Character) (k : Z)
    (img : Surface) (vt : option Q) :
  dict_max (_imgs c) = Some k -> _imgs c !! k = Some (img, vt) ->
  image (Character_update dt c) = Some img.
Proof.
  intros Hmax Hk. unfold Character_update. cbn [_imgs with_invincible_tmr].
  rewrite Hmax, Hk. destruct vt as [t|]; [|reflexivity].
  now destruct (Qlt_bool t 0).
Qed.

(** X6.  A layer set with [set_image] at a priority at least as high as
    every existing layer is the image displayed by the next update; a layer
    set below the current top layer does not change what the next update
    displays. *)
Theorem set_image_then_update (dt : Q) (c : Character) (img : Surface)
    (p : Z) (vt : option Q) :
  ((forall j, is_Some (_imgs c !! j) -> j <= p) ->
   image (Character_update dt (set_image img p vt c)) = Some img) /\
  (forall k, dict_max (_imgs c) = Some k -> p < k ->
             image (Character_update dt (set_image img p vt c))
             = image (Character_update dt c)).
Proof.
  split.
  - intros Htop. apply (Character_update_shows_top dt _ p img vt).
    + apply dict_max_unique; cbn.
      * rewrite lookup_insert_eq. eauto.
      * intros j Hj. destruct (decide (j = p)) as [->|Hne]; [lia|].
        rewrite lookup_insert_ne in Hj by congruence. now apply Htop.
    + cbn. apply lookup_insert_eq.
  - intros k Hmax Hlt.
    destruct (dict_max_Some _ _ Hmax) as [[[img' vt'] Hk] Hle].
    rewrite (Character_update_shows_top dt c k img' vt' Hmax Hk).
    apply (Character_update_shows_top dt _ k img' vt').
    + apply dict_max_unique; cbn.
      * rewrite lookup_insert_ne by lia. eauto.
      * intros j Hj. destruct (decide (j = p)) as [->|Hne]; [lia|].
        rewrite lookup_insert_ne in Hj by congruence. now apply Hle.
    + cbn. rewrite lookup_insert_ne by lia. exact Hk.
Qed.

(** On a fresh player, a layer at priority 7 shows at once; one at
    priority -3 does not. *)
Lemma set_image_then_update_witness :
  image (Character_update 1 (set_image (demo_surface "top" 1 1) 7 None
                               (Player_init demo_assets (0, 0))))
  = Some (demo_surface "top" 1 1) /\
  image (Character_update 1 (set_image (demo_surface "low" 1 1) (-3) None
                               (Player_init demo_assets (0, 0))))
  = image (Character_update 1 (Player_init demo_assets (0, 0))).
Proof.
  split.
  - apply (set_image_then_update 1 (Player_init demo_assets (0, 0))).
    intros j [v Hj]. cbn in Hj.
    destruct (decide (j = 0)) as [->|Hne]; [lia|].
    rewrite lookup_singleton_ne in Hj by congruence. discriminate.
  - apply (set_image_then_update 1 (Player_init demo_assets (0, 0))
             (demo_surface "low" 1 1) (-3) None) with (k := 0).
    + vm_compute. reflexivity.
    + lia.
Defined.

Lemma Character_update_keeps_permanent (dt : Q) (c : Character) (k : Z)
    (img : Surface) :
  _imgs c !! k = Some (img, None) ->
  _imgs (Character_update dt c) !! k = Some (img, None) /\
  is_Some (image (Character_update dt c)).
Proof.
  intros Hk. unfold Character_update. cbn [_imgs with_invincible_tmr].
  destruct (dict_max (_imgs c)) as [idx|] eqn:Hmax.
  - destruct (dict_max_Some _ _ Hmax) as [[[img' vt] Hidx] _].
    rewrite Hidx. destruct vt as [t|].
    + assert (Hne : idx <> k) by (intros ->; congruence).
      destruct (Qlt_bool t 0); cbn.
      * rewrite lookup_delete_ne by exact Hne. eauto.
      * rewrite lookup_insert_ne by exact Hne. eauto.
    + cbn. eauto.
  - apply dict_max_None in Hmax. rewrite Hmax, lookup_empty in Hk. discriminate.
Qed.

(** X7.  A layer without a time limit is never removed or changed by
    [Character.update], however many updates run and whatever other layers
    come and go above or below it; after at least one update the character
    has a displayed image.  In particular the base layer that
    [Character.__init__] installs at priority 0 stays. *)
Theorem permanent_layer_survives (dts : list Q) (c : Character) (k : Z)
    (img : Surface) :
  _imgs c !! k = Some (img, None) ->
  _imgs (ticks dts c) !! k = Some (img, None) /\
  (dts <> [] -> is_Some (image (ticks dts c))).
Proof.
  revert c. induction dts as [|dt dts IH] using rev_ind; intros c Hk.
  - split; [exact Hk|congruence].
  - unfold ticks in *. rewrite foldl_app. cbn [foldl].
    destruct (IH c Hk) as [Hk' _].
    destruct (Character_update_keeps_permanent dt _ k img Hk') as [H1 H2].
    split; [exact H1 | intros _; exact H2].
Qed.

(** The base layer of a fresh enemy after three updates. *)
Lemma permanent_layer_survives_witness :
  _imgs (ticks [1; 2; 3]%Q enemy_a) !! 0
  = Some (demo_surface "zonbi1" 100 100, None).
Proof.
  apply (permanent_layer_survives [1; 2; 3]%Q enemy_a 0).
  reflexivity.
Defined.

(** ** Character.give_damage *)

Lemma give_damage_imgs_player (A : Assets) (dmg : Z) (p : Character)
    (d : Z * Z) (s : Z) (ai : Q) (an : Z) :
  kind p = KPlayer d s ai an ->
  _imgs (give_damage A dmg p)
  = (if Qle_bool (invincible_tmr p) 0
     then <[5 := (fig A 8, Some 2%Q)]> (_imgs p) else _imgs p) /\
  alive (give_damage A dmg p) = alive p.
Proof.
  intros Hk. unfold give_damage, damaged, kill, change_img, set_image.
  destruct p as [k h m t im img r a]. cbn in *. subst k.
  destruct (Qle_bool t 0); cbn; destruct (_ <=? 0); cbn; now split.
Qed.

(** X8.  A hit that lands on a vulnerable player installs the hurt image
    (figure 8) at priority 5 for two seconds, and the next update displays
    it unless a layer of higher priority exists; a hit during invincibility
    leaves the layers alone.  Whatever the damage, the player is never
    removed from its group. *)
Theorem Player_hurt_image (A : Assets) (dmg : Z) (dt : Q) (p : Character)
    (d : Z * Z) (s : Z) (ai : Q) (an : Z) :
  kind p = KPlayer d s ai an ->
  alive (give_damage A dmg p) = alive p /\
  ((0 < invincible_tmr p)%Q -> _imgs (give_damage A dmg p) = _imgs p) /\
  ((invincible_tmr p <= 0)%Q ->
   _imgs (give_damage A dmg p) !! 5 = Some (fig A 8, Some 2%Q) /\
   ((forall j, is_Some (_imgs p !! j) -> j <= 5) ->
    image (Character_update dt (give_damage A dmg p)) = Some (fig A 8))).
Proof.
  intros Hk. destruct (give_damage_imgs_player A dmg p d s ai an Hk) as [Hi Ha].
  split; [exact Ha|]. split.
  - intros Hpos. rewrite Hi.
    destruct (Qle_bool (invincible_tmr p) 0) eqn:E; [|reflexivity].
    apply Qle_bool_iff in E. exfalso. exact (Qlt_not_le _ _ Hpos E).
  - intros Hle. apply Qle_bool_iff in Hle. rewrite Hle in Hi.
    assert (H5 : _imgs (give_damage A dmg p) !! 5 = Some (fig A 8, Some 2%Q))
      by (rewrite Hi; apply lookup_insert_eq).
    split; [exact H5|]. intros Htop.
    apply (Character_update_shows_top dt _ 5 (fig A 8) (Some 2%Q)); [|exact H5].
    apply dict_max_unique; [eauto|].
    intros j Hj. rewrite Hi in Hj.
    destruct (decide (j = 5)) as [->|Hne]; [lia|].
    rewrite lookup_insert_ne in Hj by congruence. now apply Htop.
Qed.

(** The player of [main], hit for 10 and updated, shows the hurt image. *)
Lemma Player_hurt_image_witness :
  image (Character_update (1 # 10)
           (give_damage demo_assets 10 (Player_init demo_assets (0, 0))))
  = Some (fig demo_assets 8).
Proof.
  destruct (Player_hurt_image demo_assets 10 (1 # 10)
              (Player_init demo_assets (0, 0)) (1, 0) 500 (2 # 10) 1 eq_refl)
    as (_ & _ & H).
  destruct H as [_ H]; [unfold Qle; simpl; lia|].
  apply H. intros j [v Hj]. cbn in Hj.
  destruct (decide (j = 0)) as [->|Hne]; [lia|].
  rewrite lookup_singleton_ne in Hj by congruence. discriminate.
Defined.

Lemma invincible_tmr_wears_off (dts : list Q) :
  Forall (fun dt => (0 <= dt)%Q) dts ->
  forall c, (invincible_tmr c <= Qsum dts)%Q ->
            (invincible_tmr (ticks dts c) <= 0)%Q.
Proof.
  induction 1 as [|dt dts Hdt Hdts IH]; intros c Hc.
  - exact Hc.
  - unfold ticks in *. cbn [foldl]. apply IH.
    destruct (Character_update_fields dt c) as (_ & _ & _ & _ & _ & ->).
    assert (Hs : (0 <= Qsum dts)%Q).
    { clear -Hdts. induction Hdts as [|x l Hx _ IHl]; unfold Qsum in *; simpl; lra. }
    unfold Qsum in *. simpl in Hc. unfold py_max.
    destruct (Qlt_bool (invincible_tmr c - dt) (-1)); lra.
Qed.

Lemma Qsum_ms_seconds (ks : list Z) :
  (Qsum (map ms_seconds ks) == inject_Z (total_ms ks) / 1000)%Q.
Proof.
  induction ks as [|k ks IH]; unfold Qsum, total_ms in *; cbn [map foldr].
  - reflexivity.
  - rewrite IH. unfold ms_seconds. rewrite inject_Z_plus. field.
Qed.

(** X9.  Invincibility wears off.  After updates whose time steps are whole
    milliseconds, as [clock.tick() / 1000] gives them, and which together
    last a millisecond or more beyond the remaining invincibility time, the
    timer is at or below zero and the next [give_damage] lowers the health
    by the full damage.  (The margin of one millisecond is far above what
    rounding in the repeated subtraction can add up to.) *)
Theorem invincibility_wears_off (A : Assets) (dmg : Z) (ks : list Z)
    (c : Character) :
  Forall (fun k => 0 <= k) ks ->
  (invincible_tmr c * 1000 + 1 <= inject_Z (total_ms ks))%Q ->
  (invincible_tmr (ticks (map ms_seconds ks) c) <= 0)%Q /\
  hp (give_damage A dmg (ticks (map ms_seconds ks) c)) = hp c - dmg.
Proof.
  intros Hks Hc.
  assert (Hdts : Forall (fun dt => (0 <= dt)%Q) (map ms_seconds ks)).
  { apply Forall_map. eapply Forall_impl; [exact Hks|].
    intros k Hk. cbn. unfold ms_seconds.
    apply Qle_shift_div_l; [reflexivity|].
    rewrite Qmult_0_l. change 0%Q with (inject_Z 0). now rewrite <- Zle_Qle. }
  assert (Hsum : (invincible_tmr c <= Qsum (map ms_seconds ks))%Q).
  { rewrite Qsum_ms_seconds. apply Qle_shift_div_l; [reflexivity|]. lra. }
  pose proof (invincible_tmr_wears_off _ Hdts c Hsum) as Ht.
  split; [exact Ht|].
  destruct (give_damage_vulnerable A dmg (ticks (map ms_seconds ks) c) Ht) as [-> _].
  now rewrite hp_ticks.
Qed.

(** The player of [main], hit, ticked ten times for 200 milliseconds and
    once for one millisecond, and hit again: 30. *)
Lemma invincibility_wears_off_witness :
  hp (give_damage demo_assets 10
        (ticks (map ms_seconds (replicate 10 200 ++ [1]))
           (give_damage demo_assets 10 (Player_init demo_assets (0, 0)))))
  = 30.
Proof.
  destruct (invincibility_wears_off demo_assets 10 (replicate 10 200 ++ [1])
              (give_damage demo_assets 10 (Player_init demo_assets (0, 0))))
    as [_ H].
  - repeat constructor; lia.
  - vm_compute. discriminate.
  - rewrite H. reflexivity.
Defined.

Lemma give_damage_never_heals (A : Assets) (dmg : Z) (c : Character) :
  0 <= dmg -> hp (give_damage A dmg c) <= hp c.
Proof.
  intros Hd. destruct (Qlt_le_dec 0 (invincible_tmr c)) as [Hpos|Hle].
  - rewrite give_damage_invincible by exact Hpos. lia.
  - destruct (give_damage_vulnerable A dmg c Hle) as [-> _]. lia.
Qed.

(** X10.  [give_damage] with a non-negative damage never raises the health.
    A character other than the player is in its groups after the call
    exactly when it was in them before and its health after the call is
    positive: it is removed also when the call did no damage but the health
    already was zero or below. *)
Theorem give_damage_health_and_removal (A : Assets) (dmg : Z) (c : Character) :
  (0 <= dmg -> hp (give_damage A dmg c) <= hp c) /\
  ((forall d s ai an, kind c <> KPlayer d s ai an) ->
   alive (give_damage A dmg c)
   = alive c && (0 <? hp (give_damage A dmg c))).
Proof.
  split.
  - intros Hd. destruct (Qlt_le_dec 0 (invincible_tmr c)) as [Hpos|Hle].
    + rewrite give_damage_invincible by exact Hpos. lia.
    + destruct (give_damage_vulnerable A dmg c Hle) as [-> _]. lia.
  - intros Hnp. unfold give_damage, damaged, kill.
    destruct c as [k h m t im img r a]. cbn in *.
    destruct k as [|d s ai an| |]; try (exfalso; eapply Hnp; reflexivity);
      destruct (Qle_bool t 0); cbn;
      match goal with
      | |- context [?x <=? 0] => destruct (x <=? 0) eqn:E
      end; cbn;
      first [ apply Z.leb_le in E | apply Z.leb_gt in E ];
      destruct a; cbn; try reflexivity;
      symmetry; first [ apply Z.ltb_ge; lia | apply Z.ltb_lt; lia ].
Qed.

(** An enemy with health 10 hit for 10 leaves its group. *)
Lemma give_damage_health_and_removal_witness :
  alive (give_damage demo_assets 10 weak_enemy) = false.
Proof.
  destruct (give_damage_health_and_removal demo_assets 10 weak_enemy) as [_ H].
  rewrite H; [reflexivity|]. intros d s ai an. discriminate.
Defined.

(** ** Bullets leaving the player *)

Lemma Bullet_init_fresh (A : Assets) (img : Surface) (pos : Z * Z)
    (dir : Surd * Surd) (gid : GroupId) (spd : Z) (life : Q) (fix_img : bool) :
  let b := Bullet_init A img pos dir gid spd 10 life fix_img in
  center (b_rect b) = pos /\ life_tmr b = 0%Q /\ b_alive b = true /\
  aimed_at gid b /\ speed b = spd.
Proof.
  cbn. split; [apply center_set_center|]. now repeat split.
Qed.

(** X11.  The attack block of [main] fires only when [clk] is above the
    player's attack interval; otherwise the bullets group and [clk] are
    unchanged.  When it fires, [clk] restarts at 0 and the group gains one
    bullet, or three when the attack number is 3, appended after the
    existing ones.  Each new bullet is centred on the player, has age 0,
    aims at the enemies with damage 10; a single bullet flies at speed 1000,
    the three beams of the spread at speed 500. *)
Theorem fire_adds_bullets (A : Assets) (i : Input) (cam : Camera)
    (p : Character) (bs bs' : list Bullet) (clk0 clk1 : Q)
    (d : Z * Z) (s : Z) (ai : Q) (an : Z) :
  kind p = KPlayer d s ai an ->
  fire A i cam p bs clk0 = Some (bs', clk1) ->
  ((clk0 <= ai)%Q -> bs' = bs /\ clk1 = clk0) /\
  ((ai < clk0)%Q ->
   clk1 = 0%Q /\
   exists new,
     bs' = bs ++ new /\
     length new = (if an =? 3 then 3%nat else 1%nat) /\
     Forall (fun b => center (b_rect b) = center (rect p) /\
                      life_tmr b = 0%Q /\ b_alive b = true /\
                      aimed_at G_enemies b /\
                      speed b = (if an =? 3 then 500 else 1000)) new).
Proof.
  intros Hk. unfold fire. rewrite Hk.
  destruct (Qlt_bool ai clk0) eqn:Hc.
  - apply Qlt_bool_iff in Hc.
    destruct (calc_orientation _ _) as [direction|]; [|discriminate].
    destruct (an =? 3); intros [= <- <-];
      (split; [intros Hle; exfalso; lra|]); intros _;
      (split; [reflexivity|]); eexists; (split; [reflexivity|]);
      (split; [reflexivity|]).
    + unfold gen_beams. cbn [map].
      repeat (constructor; [apply Bullet_init_fresh|]). constructor.
    + constructor; [apply Bullet_init_fresh|constructor].
  - apply Qlt_bool_false_iff in Hc. intros [= <- <-].
    split; [now split|]. intros Hlt. exfalso. lra.
Qed.

(** With 0.25 s on the attack clock the fresh player fires one bullet. *)
Lemma fire_adds_bullets_witness :
  exists b, fire demo_assets aim_right (mkCamera (0, 0)%Q 1600 900)
                 (Player_init demo_assets (0, 0)) [] (1 # 4)
            = Some ([b], 0%Q) /\ speed b = 1000.
Proof.
  destruct (fire demo_assets aim_right (mkCamera (0, 0)%Q 1600 900)
              (Player_init demo_assets (0, 0)) [] (1 # 4))
    as [[bs' clk1]|] eqn:E; [|vm_compute in E; discriminate].
  destruct (fire_adds_bullets demo_assets aim_right
              (mkCamera (0, 0)%Q 1600 900) (Player_init demo_assets (0, 0))
              [] bs' (1 # 4) clk1 (1, 0) 500 (2 # 10) 1 eq_refl E) as [_ H].
  destruct H as (-> & new & -> & Hlen & Hall); [reflexivity|].
  destruct new as [|b [|b' new]]; try discriminate.
  exists b. split; [reflexivity|].
  apply Forall_cons in Hall as [(_ & _ & _ & _ & Hs) _]. exact Hs.
Defined.

(** ** The event loop *)

Lemma handle_events_None_iff (evs : list PgEvent) (fps : Z) :
  (handle_events evs fps).1 = None <-> QUIT ∈ evs.
Proof.
  revert fps. induction evs as [|e evs IH]; intros fps.
  - simpl. split; [discriminate|]. intros H. now apply elem_of_nil in H.
  - destruct e as [|key|].
    + simpl. split; [intros _; apply list_elem_of_here|reflexivity].
    + cbn [handle_events].
      destruct (key =? K_F1), (key =? K_F2), (key =? K_F3);
        match goal with
        | |- context [handle_events evs ?f] =>
          specialize (IH f); destruct (handle_events evs f) as [r ev4]
        end; cbn [fst] in *; rewrite IH, elem_of_cons;
        (split; [now right | intros [H|H]; [discriminate|exact H]]).
    + cbn [handle_events]. rewrite IH, elem_of_cons.
      split; [now right | intros [H|H]; [discriminate|exact H]].
Qed.

Lemma check_phase_not_Quit (A : Assets) (i : Input) (g : Game) :
  (check_phase A i g).1 <> Quit.
Proof.
  unfold check_phase. destruct (hp (player g) <=? 0); [discriminate|].
  destruct (gameFlag _); [discriminate|].
  destruct (play_outcome A i
              (if 60 <=? Qtrunc (suvivetime g) then with_gameFlag true g else g))
    as [H|[g' H]]; destruct (play A i _) as [out ev]; cbn in *; congruence.
Qed.

Lemma handle_events_prints (evs : list PgEvent) (fps : Z) :
  (handle_events evs fps).2 = flat_map fps_messages (keys_before_quit evs).
Proof.
  revert fps. induction evs as [|e evs IH]; intros fps; [reflexivity|].
  destruct e as [|key|].
  - reflexivity.
  - cbn [handle_events keys_before_quit flat_map]. unfold fps_messages at 1.
    destruct (key =? K_F1), (key =? K_F2), (key =? K_F3);
      match goal with
      | |- context [handle_events evs ?f] =>
        specialize (IH f); destruct (handle_events evs f) as [r ev4]
      end; cbn [snd] in *; rewrite IH; reflexivity.
  - cbn [handle_events keys_before_quit]. apply IH.
Qed.

(** X12.  A pass of the loop returns through the QUIT branch exactly when
    the event queue of that pass holds a QUIT event, whatever else the queue
    holds and whatever the state of the game.  All that such a pass does is
    print the frame-rate lines of the key presses that come before the QUIT
    in the queue, in their order: no sound, no spawn, no update, no
    drawing. *)
Theorem frame_Quit_iff (A : Assets) (i : Input) (g : Game) :
  ((frame A i g).1 = Quit <-> QUIT ∈ events i) /\
  ((frame A i g).1 = Quit ->
   (frame A i g).2 = flat_map fps_messages (keys_before_quit (events i))).
Proof.
  pose proof (handle_events_None_iff (events i) (max_fps g)) as Hq.
  pose proof (handle_events_prints (events i) (max_fps g)) as Hpr.
  unfold frame.
  destruct (handle_events (events i) (max_fps g)) as [[fps|] ev0]; cbn [fst snd] in *.
  - assert (Hne : (let '(g1, ev1) := spawn_and_collide A i (with_max_fps fps g) in
                   match scroll_background g1 with
                   | Some (g2, ev2) =>
                     let '(out, ev3) := check_phase A i g2 in
                     (out, ev0 ++ ev1 ++ ev2 ++ ev3)
                   | None => (ZeroDivisionError, ev0 ++ ev1)
                   end).1 <> Quit).
    { destruct (spawn_and_collide A i (with_max_fps fps g)) as [g1 ev1].
      destruct (scroll_background g1) as [[g2 ev2]|]; [|discriminate].
      pose proof (check_phase_not_Quit A i g2).
      now destruct (check_phase A i g2). }
    split; [|intros H; now apply Hne in H].
    split; [intros H; now apply Hne in H|].
    intros H. apply Hq in H. discriminate.
  - split; [|intros _; exact Hpr].
    split; [intros _; now apply Hq | reflexivity].
Qed.

(** Closing the window after pressing F2 ends the first pass at once; the
    pass has printed the line for 30 frames a second and nothing else. *)
Lemma frame_Quit_iff_witness :
  (frame demo_assets closing_input (main_init demo_assets)).1 = Quit /\
  (frame demo_assets closing_input (main_init demo_assets)).2 = [EvPrintFps 30].
Proof.
  destruct (frame_Quit_iff demo_assets closing_input (main_init demo_assets))
    as [[_ H] Hev].
  assert (Hq : (frame demo_assets closing_input (main_init demo_assets)).1 = Quit).
  { apply H. cbn. apply list_elem_of_further, list_elem_of_here. }
  split; [exact Hq|]. rewrite (Hev Hq). reflexivity.
Defined.

(** ** Background.update *)

Lemma Qfloor_div_Z (a b : Z) : 0 < b -> Qfloor (inject_Z a / inject_Z b) = a / b.
Proof.
  intros Hb. destruct b as [|p|p]; try lia.
  unfold Qfloor, Qdiv, Qinv, Qmult, inject_Z. simpl.
  now rewrite Z.mul_1_r.
Qed.

Lemma floordiv_Z (a b : Z) :
  0 < b -> floordiv (inject_Z a) b = Some (inject_Z (a / b)).
Proof.
  intros Hb. unfold floordiv.
  destruct (b =? 0) eqn:E; [apply Z.eqb_eq in E; lia|].
  now rewrite Qfloor_div_Z.
Qed.

Lemma Qtrunc_tile (i k w : Z) :
  Qtrunc ((inject_Z i + inject_Z k) * inject_Z w) = (i + k) * w.
Proof.
  unfold Qtrunc. simpl. rewrite Z.quot_1_r. ring.
Qed.

(** X13.  With the camera centred on an integer point and a background
    image of positive size, [Background.update] succeeds and puts the tile
    of offset (i,j) at the multiple (i + floor(cx / width)) * width,
    (j + floor(cy / height)) * height of the image size, keeping image, size
    and offset; so the tile of offset (0,0) always contains the camera
    centre.  With an image of width 0 and a camera whose x is not 0 the
    update raises ZeroDivisionError. *)
Theorem Background_update_tiles (cam : Camera) (b : Background) (cx cy : Z) :
  center_pos cam = (inject_Z cx, inject_Z cy) ->
  (0 < rw (bg_rect b) -> 0 < rh (bg_rect b) ->
   Background_update cam b
   = Some (mkBackground (bg_image b)
             (mkRect ((fst (offset b) + cx / rw (bg_rect b)) * rw (bg_rect b))
                     ((snd (offset b) + cy / rh (bg_rect b)) * rh (bg_rect b))
                     (rw (bg_rect b)) (rh (bg_rect b)))
             (offset b)) /\
   (offset b = (0, 0) ->
    forall b', Background_update cam b = Some b' ->
               rx (bg_rect b') <= cx < rx (bg_rect b') + rw (bg_rect b') /\
               ry (bg_rect b') <= cy < ry (bg_rect b') + rh (bg_rect b'))) /\
  (rw (bg_rect b) = 0 -> cx <> 0 -> Background_update cam b = None).
Proof.
  intros Hc. split.
  - intros Hw Hh.
    assert (Hup : Background_update cam b
                  = Some (mkBackground (bg_image b)
                            (mkRect ((fst (offset b) + cx / rw (bg_rect b)) * rw (bg_rect b))
                                    ((snd (offset b) + cy / rh (bg_rect b)) * rh (bg_rect b))
                                    (rw (bg_rect b)) (rh (bg_rect b)))
                            (offset b))).
    { unfold Background_update. rewrite Hc. cbn [fst snd].
      rewrite !floordiv_Z by assumption.
      assert (Hx : (if Qeq_bool (inject_Z cx) 0 then Some 0%Q
                    else Some (inject_Z (cx / rw (bg_rect b))))
                   = Some (inject_Z (cx / rw (bg_rect b)))).
      { destruct (Qeq_bool (inject_Z cx) 0) eqn:E; [|reflexivity].
        apply Qeq_bool_iff in E. unfold Qeq in E. simpl in E.
        assert (cx = 0) by lia. subst cx. now rewrite Z.div_0_l by lia. }
      assert (Hy : (if Qeq_bool (inject_Z cy) 0 then Some 0%Q
                    else Some (inject_Z (cy / rh (bg_rect b))))
                   = Some (inject_Z (cy / rh (bg_rect b)))).
      { destruct (Qeq_bool (inject_Z cy) 0) eqn:E; [|reflexivity].
        apply Qeq_bool_iff in E. unfold Qeq in E. simpl in E.
        assert (cy = 0) by lia. subst cy. now rewrite Z.div_0_l by lia. }
      rewrite Hx, Hy, !Qtrunc_tile. reflexivity. }
    split; [exact Hup|].
    intros Ho b' Hb'. rewrite Hup in Hb'. injection Hb' as <-.
    rewrite Ho. cbn.
    pose proof (Z.mul_div_le cx (rw (bg_rect b)) Hw).
    pose proof (Z.mul_succ_div_gt cx (rw (bg_rect b)) Hw).
    pose proof (Z.mul_div_le cy (rh (bg_rect b)) Hh).
    pose proof (Z.mul_succ_div_gt cy (rh (bg_rect b)) Hh).
    lia.
  - intros Hw Hx. unfold Background_update. rewrite Hc, Hw. cbn [fst snd].
    destruct (Qeq_bool (inject_Z cx) 0) eqn:E.
    + apply Qeq_bool_iff in E. unfold Qeq in E. simpl in E. lia.
    + reflexivity.
Qed.

(** With the camera at (2000, -500) the middle tile of a 1600 x 900
    background lies at (1600, -900). *)
Lemma Background_update_tiles_witness :
  Background_update roaming_camera middle_tile
  = Some (mkBackground (background_png demo_assets)
                       (mkRect 1600 (-900) 1600 900) (0, 0)).
Proof.
  destruct (Background_update_tiles roaming_camera middle_tile 2000 (-500)
              eq_refl) as [H _].
  destruct H as [H _]; [reflexivity | reflexivity |].
  rewrite H. reflexivity.
Defined.

(** ** The collision passes of main *)

Lemma spritecollide_kill_spec (r : Rect) (grp : list Bullet) :
  (forall b, b ∈ (spritecollide_kill r grp).2 <->
             b ∈ grp /\ colliderect r (b_rect b) = false) /\
  ((spritecollide_kill r grp).1 = [] ->
   forall b, b ∈ grp -> colliderect r (b_rect b) = false).
Proof.
  unfold spritecollide_kill. cbn [fst snd]. split.
  - intros b. rewrite list_elem_of_filter.
    destruct (colliderect r (b_rect b)); split; intros [H1 H2];
      split; congruence.
  - intros Hnil b Hb. destruct (colliderect r (b_rect b)) eqn:E; [|reflexivity].
    assert (Hin : b ∈ filter (fun b => colliderect r (b_rect b) = true) grp)
      by (apply list_elem_of_filter; now split).
    rewrite Hnil in Hin. now apply elem_of_nil in Hin.
Qed.

Lemma groupcollide_kill_both_spec (ga : list Bullet) :
  forall gb,
    (forall b, b ∈ (groupcollide_kill_both ga gb).2 <->
               b ∈ gb /\ forall a, a ∈ ga ->
                                   colliderect (b_rect a) (b_rect b) = false) /\
    (forall a, a ∈ (groupcollide_kill_both ga gb).1 ->
               a ∈ ga /\ forall b, b ∈ (groupcollide_kill_both ga gb).2 ->
                                   colliderect (b_rect a) (b_rect b) = false).
Proof.
  induction ga as [|a ga IH]; intros gb.
  - cbn. split.
    + intros b. split; [intros H; split; [exact H|]|tauto].
      intros a Ha. now apply elem_of_nil in Ha.
    + intros a Ha. now apply elem_of_nil in Ha.
  - cbn [groupcollide_kill_both].
    destruct (spritecollide_kill_spec (b_rect a) gb) as [Hrest Hnone].
    destruct (spritecollide_kill (b_rect a) gb) as [hit1 gb1].
    cbn [fst snd] in Hrest, Hnone.
    destruct (IH gb1) as [IHb IHa].
    destruct (groupcollide_kill_both ga gb1) as [ga' gb2].
    cbn [fst snd] in *.
    assert (Hb : forall b, b ∈ gb2 <->
                           b ∈ gb /\ forall x, x ∈ a :: ga ->
                                               colliderect (b_rect x) (b_rect b) = false).
    { intros b. rewrite IHb, Hrest. split.
      - intros [[H1 H2] H3]. split; [exact H1|].
        intros x Hx. apply elem_of_cons in Hx as [->|Hx]; auto.
      - intros [H1 H2]. split; [split; [exact H1|]|].
        + apply H2, list_elem_of_here.
        + intros x Hx. apply H2. now apply list_elem_of_further. }
    split; [exact Hb|].
    intros x Hx.
    assert (Hold : x ∈ ga' ->
                   x ∈ a :: ga /\
                   forall b, b ∈ gb2 -> colliderect (b_rect x) (b_rect b) = false).
    { intros Hx'. destruct (IHa x Hx') as [H1 H2].
      split; [now apply list_elem_of_further | exact H2]. }
    destruct hit1 as [|h hit1]; [|now apply Hold].
    apply elem_of_cons in Hx as [->|Hx]; [|now apply Hold].
    split; [apply list_elem_of_here|].
    intros b Hb2. apply Hnone; [reflexivity|]. apply Hb in Hb2. tauto.
Qed.

Lemma groupcollide_kill_b_spec (ga : list Character) :
  forall gb,
    (forall b, b ∈ (groupcollide_kill_b ga gb).2 <->
               b ∈ gb /\ forall a, a ∈ ga ->
                                   colliderect (rect a) (b_rect b) = false) /\
    (groupcollide_kill_b ga gb).1.*1 = ga.
Proof.
  induction ga as [|a ga IH]; intros gb.
  - cbn. split; [|reflexivity].
    intros b. split; [intros H; split; [exact H|]|tauto].
    intros a Ha. now apply elem_of_nil in Ha.
  - cbn [groupcollide_kill_b].
    destruct (spritecollide_kill_spec (rect a) gb) as [Hrest _].
    destruct (spritecollide_kill (rect a) gb) as [hit1 gb1].
    cbn [fst snd] in Hrest.
    destruct (IH gb1) as [IHb IHa].
    destruct (groupcollide_kill_b ga gb1) as [ga' gb2].
    cbn [fst snd] in *. split; [|cbn; now rewrite IHa].
    intros b. rewrite IHb, Hrest. split.
    + intros [[H1 H2] H3]. split; [exact H1|].
      intros x Hx. apply elem_of_cons in Hx as [->|Hx]; auto.
    + intros [H1 H2]. split; [split; [exact H1|]|].
      * apply H2, list_elem_of_here.
      * intros x Hx. apply H2. now apply list_elem_of_further.
Qed.

(** X14.  After [groupcollide(flame, bullets, True, True)] the bullets left
    are exactly those of the group that overlap no flame of the flame group,
    every flame left was in the flame group, and no flame left overlaps a
    bullet left.  After [groupcollide(boss, bullets, False, True)] the
    bullets left are exactly those that overlap no boss, and no boss has
    left its group. *)
Theorem groupcollide_leaves_no_overlap (fl bs : list Bullet)
    (bo : list Character) :
  (forall b, b ∈ (groupcollide_kill_both fl bs).2 <->
             b ∈ bs /\ forall a, a ∈ fl ->
                                 colliderect (b_rect a) (b_rect b) = false) /\
  (forall a, a ∈ (groupcollide_kill_both fl bs).1 ->
             a ∈ fl /\ forall b, b ∈ (groupcollide_kill_both fl bs).2 ->
                                 colliderect (b_rect a) (b_rect b) = false) /\
  (forall b, b ∈ (groupcollide_kill_b bo bs).2 <->
             b ∈ bs /\ forall a, a ∈ bo ->
                                 colliderect (rect a) (b_rect b) = false) /\
  (groupcollide_kill_b bo bs).1.*1 = bo.
Proof.
  destruct (groupcollide_kill_both_spec fl bs) as [H1 H2].
  destruct (groupcollide_kill_b_spec bo bs) as [H3 H4].
  split; [exact H1|]. split; [exact H2|]. split; [exact H3|exact H4].
Qed.

(** A bullet lying on a flame is removed by the first collision pass. *)
Lemma groupcollide_leaves_no_overlap_witness :
  scenario_bullet ∉ (groupcollide_kill_both [expired_bullet] [scenario_bullet]).2.
Proof.
  intros H.
  destruct (groupcollide_leaves_no_overlap [expired_bullet] [scenario_bullet] [])
    as [Hb _].
  apply Hb in H as [_ H].
  specialize (H expired_bullet (list_elem_of_here _ _)).
  vm_compute in H. discriminate.
Defined.

(** ** Bullets that score nothing *)

(** X15.  A [Bullet.update] whose target group holds no enemy or boss, as
    the boss flames aimed at the player's group, leaves the score as it was
    and calls [score_up] not once, whatever it hits.  A [Bullet.update]
    whose moved rectangle overlaps no member of the target group changes no
    member and not the score; the bullet only moves and ages (and is
    destroyed only if it had passed its life span). *)
Theorem Bullet_update_without_reward (A : Assets) (dt : Q) (b : Bullet)
    (grp : list Character) (sc : Z) :
  (Forall (fun t => is_Enemy_Base t = false) grp ->
   (Bullet_update_marked A dt b grp sc).1.2 = sc /\
   (Bullet_update_marked A dt b grp sc).2 = []) /\
  (Forall (fun t => colliderect (b_rect (Bullet_advance dt b)) (rect t) = false)
          grp ->
   Bullet_update_marked A dt b grp sc = (Bullet_advance dt b, grp, sc, [])).
Proof.
  unfold Bullet_update_marked.
  destruct (Bullet_hits_spec A grp (Bullet_advance dt b) sc) as (H1 & H2 & H3 & H4).
  split.
  - intros Hno.
    assert (Hev : flat_map (hit_events A (Bullet_advance dt b)) grp = []).
    { clear -Hno. induction Hno as [|t grp Ht _ IH]; [reflexivity|].
      cbn [flat_map]. rewrite IH, app_nil_r. unfold hit_events.
      destruct (colliderect _ _); [|reflexivity].
      unfold is_Enemy_Base in *.
      destruct (give_damage_fields A (damage (Bullet_advance dt b)) t) as (-> & _).
      now rewrite Ht, andb_false_r. }
    rewrite H3, H2, Hev. split; [simpl; lia | reflexivity].
  - intros Hmiss.
    assert (Hmap : map (hit A (Bullet_advance dt b)) grp = grp).
    { clear -Hmiss. induction Hmiss as [|t grp Ht _ IH]; [reflexivity|].
      cbn [map]. rewrite IH. unfold hit. now rewrite Ht. }
    assert (Hev : flat_map (hit_events A (Bullet_advance dt b)) grp = []).
    { clear -Hmiss. induction Hmiss as [|t grp Ht _ IH]; [reflexivity|].
      cbn [flat_map]. rewrite IH, app_nil_r. unfold hit_events. now rewrite Ht. }
    assert (Hex : existsb (fun t => colliderect (b_rect (Bullet_advance dt b)) (rect t)) grp
                  = false).
    { clear -Hmiss. induction Hmiss as [|t grp Ht _ IH]; [reflexivity|].
      cbn [existsb]. now rewrite Ht, IH. }
    rewrite Hex in H4. rewrite Hmap in H1. rewrite H2, Hev in H3.
    rewrite Hev in H2.
    destruct (Bullet_hits A (Bullet_advance dt b) grp sc) as [[[b' grp'] sc'] ev].
    cbn [fst snd] in *. subst. f_equal. f_equal. simpl. lia.
Qed.

(** The scenario bullet lies on the player: the player is hit, the score
    stays 0. *)
Lemma Bullet_update_without_reward_witness :
  (Bullet_update_marked demo_assets (1 # 10) scenario_bullet
     [Player_init demo_assets (50, 0)] 0).1.2 = 0.
Proof.
  destruct (Bullet_update_without_reward demo_assets (1 # 10) scenario_bullet
              [Player_init demo_assets (50, 0)] 0) as [H _].
  apply H. repeat constructor.
Defined.

(** ** Contact with enemies *)

Lemma give_damage_invincible_tmr (A : Assets) (dmg : Z) (c : Character) :
  (0 < invincible_tmr c)%Q ->
  invincible_tmr (give_damage A dmg c) = invincible_tmr c.
Proof.
  intros Hpos. unfold give_damage.
  destruct (Qle_bool (invincible_tmr c) 0) eqn:E.
  - apply Qle_bool_iff in E. exfalso. exact (Qlt_not_le _ _ Hpos E).
  - destruct (hp c <=? 0); [apply invincible_tmr_kill | reflexivity].
Qed.

Lemma give_damage_repeat_invincible (A : Assets) (X : Type) (l : list X) :
  forall c, (0 < invincible_tmr c)%Q ->
            hp (foldl (fun p' _ => give_damage A 10 p') c l) = hp c.
Proof.
  induction l as [|x l IH]; intros c Hc; [reflexivity|].
  cbn [foldl]. rewrite IH.
  - now apply give_damage_invincible.
  - now rewrite give_damage_invincible_tmr.
Qed.

(** X16.  However many enemies overlap the player in one pass, the contact
    loop of [main] lowers the health of a character with a positive
    invincibility duration by 10 at most, and by exactly 10 when it was
    vulnerable and at least one enemy overlaps; with no overlapping enemy
    nothing changes. *)
Theorem contact_damage_once (A : Assets) (p : Character) (es : list Character) :
  (0 < max_invincible_tick p)%Q ->
  hp p - 10 <= hp (player_vs_enemies A p es) <= hp p /\
  rect (player_vs_enemies A p es) = rect p /\
  ((invincible_tmr p <= 0)%Q ->
   Exists (fun e => colliderect (rect p) (rect e) = true) es ->
   hp (player_vs_enemies A p es) = hp p - 10) /\
  (Forall (fun e => colliderect (rect p) (rect e) = false) es ->
   player_vs_enemies A p es = p).
Proof.
  intros Hm. unfold player_vs_enemies.
  set (l := filter (fun e => colliderect (rect p) (rect e) = true) es).
  assert (Hrect : forall (l : list Character) c,
             rect (foldl (fun p' _ => give_damage A 10 p') c l) = rect c).
  { clear. induction l as [|x l IH]; intros c; [reflexivity|].
    cbn [foldl]. rewrite IH. apply give_damage_fields. }
  assert (Hfirst : forall (e : Character) (l' : list Character),
             (invincible_tmr p <= 0)%Q ->
             hp (foldl (fun p' _ => give_damage A 10 p') p (e :: l')) = hp p - 10).
  { intros e l' Hv. cbn [foldl].
    destruct (give_damage_vulnerable A 10 p Hv) as [Hh Ht].
    rewrite give_damage_repeat_invincible; [exact Hh|]. now rewrite Ht. }
  split; [|split; [apply Hrect|split]].
  - destruct l as [|e l']; [cbn; lia|].
    destruct (Qlt_le_dec 0 (invincible_tmr p)) as [Hpos|Hv].
    + rewrite give_damage_repeat_invincible by exact Hpos. lia.
    + rewrite Hfirst by exact Hv. lia.
  - intros Hv Hex. apply Exists_exists in Hex as (e & He & Hc).
    assert (Hin : e ∈ l) by (apply list_elem_of_filter; now split).
    destruct l as [|e' l']; [now apply elem_of_nil in Hin|].
    now apply Hfirst.
  - intros Hnone. assert (Hl : l = []).
    { unfold l. clear -Hnone. induction Hnone as [|e es He _ IH]; [reflexivity|].
      rewrite filter_cons_False by congruence. exact IH. }
    now rewrite Hl.
Qed.

(** Two enemies on the fresh player: health 50 becomes 40, not 30. *)
Lemma contact_damage_once_witness :
  hp (player_vs_enemies demo_assets (Player_init demo_assets (0, 0))
        [enemy_a; enemy_b]) = 40.
Proof.
  destruct (contact_damage_once demo_assets (Player_init demo_assets (0, 0))
              [enemy_a; enemy_b]) as (_ & _ & H & _); [reflexivity|].
  rewrite H; [reflexivity | unfold Qle; simpl; lia |].
  apply Exists_cons_hd. vm_compute. reflexivity.
Defined.

(** ** The player and the clocks along a run *)

Lemma hit_player_facts (A : Assets) (b : Bullet) (p : Character) :
  0 <= damage b ->
  rect (hit A b p) = rect p /\ hp (hit A b p) <= hp p.
Proof.
  intros Hd. unfold hit. destruct (colliderect _ _); [|split; [reflexivity|lia]].
  destruct (give_damage_fields A (damage b) p) as (_ & Hr & _).
  pose proof (give_damage_never_heals A (damage b) p Hd) as Hh.
  now split.
Qed.

Lemma bullet_step_player (A : Assets) (dt : Q) (T : Targets) (sc : Z)
    (ev : list Event) (acc : list Bullet) (b : Bullet) :
  0 <= damage b ->
  attackable_group b = G_enemies \/ attackable_group b = G_player_group ->
  rect (t_player (bullet_step A dt (T, sc, ev, acc) b).1.1.1) = rect (t_player T) /\
  hp (t_player (bullet_step A dt (T, sc, ev, acc) b).1.1.1) <= hp (t_player T).
Proof.
  intros Hd Hg. rewrite bullet_step_proj. cbn [fst].
  destruct Hg as [-> | ->]; cbn [put_members members t_player].
  - split; [reflexivity|lia].
  - rewrite Bullet_update_proj. cbn [fst snd]. unfold Bullet_update_marked.
    destruct (Bullet_hits_spec A [t_player T] (Bullet_advance dt b) sc)
      as (-> & _).
    cbn [map]. destruct (Bullet_advance_fields dt b) as (_ & _ & _ & Hd' & _).
    assert (Hd2 : 0 <= damage (Bullet_advance dt b)) by lia.
    destruct (hit_player_facts A (Bullet_advance dt b) (t_player T) Hd2)
      as [Hr Hh].
    destruct (decide (alive (hit A (Bullet_advance dt b) (t_player T)) = true))
      as [Ha|Ha].
    + rewrite filter_cons_True by exact Ha. cbn. now split.
    + rewrite filter_cons_False by exact Ha. cbn. split; [reflexivity|lia].
Qed.

Lemma bullet_fold_player (A : Assets) (dt : Q) (gid : GroupId) (bs : list Bullet) :
  gid = G_enemies \/ gid = G_player_group ->
  forall (T : Targets) (sc : Z) (ev : list Event) (acc : list Bullet),
    T_ok T -> Forall (aimed_at gid) bs ->
    rect (t_player (foldl (bullet_step A dt) (T, sc, ev, acc) bs).1.1.1)
    = rect (t_player T) /\
    hp (t_player (foldl (bullet_step A dt) (T, sc, ev, acc) bs).1.1.1)
    <= hp (t_player T).
Proof.
  intros Hgid. induction bs as [|b bs IH]; intros T sc ev acc HT Hbs.
  - cbn. split; [reflexivity|lia].
  - apply Forall_cons in Hbs as [Hb Hbs]. cbn [foldl].
    assert (Hstep := bullet_step_player A dt T sc ev acc b).
    destruct (bullet_step_ok A dt gid T sc ev acc b Hgid HT Hb)
      as (T1 & new1 & b' & Heq & HT1 & _ & _).
    rewrite Heq in *. cbn [fst] in Hstep.
    destruct Hb as [Hg Hd].
    destruct Hstep as [Hr Hh]; [lia | rewrite Hg; exact Hgid |].
    destruct (IH T1 (sc + score_adds new1) (ev ++ new1) (acc ++ [b']) HT1 Hbs)
      as [Hr' Hh'].
    split; [congruence | lia].
Qed.

Lemma update_bullets_facts (A : Assets) (dt : Q) (gid : GroupId) (T : Targets)
    (sc : Z) (bs : list Bullet) :
  gid = G_enemies \/ gid = G_player_group ->
  T_ok T -> Forall (aimed_at gid) bs ->
  T_ok (update_bullets A dt T sc bs).1.1.1 /\
  rect (t_player (update_bullets A dt T sc bs).1.1.1) = rect (t_player T) /\
  hp (t_player (update_bullets A dt T sc bs).1.1.1) <= hp (t_player T).
Proof.
  intros Hgid HT Hbs.
  destruct (update_bullets_ok A dt gid T sc bs Hgid HT Hbs)
    as (T' & new & bs' & Heq & HT' & _).
  destruct (bullet_fold_player A dt gid bs Hgid T sc [] [] HT Hbs) as [Hr Hh].
  rewrite Heq. cbn [fst]. split; [exact HT'|].
  unfold update_bullets in Heq.
  destruct (foldl (bullet_step A dt) (T, sc, [], []) bs) as [[[T0 sc0] ev0] acc0].
  cbn [fst] in *. injection Heq as -> _ _ _. now split.
Qed.

Lemma Player_update_hp (A : Assets) (keys : Z -> bool) (dt : Q) (p : Character) :
  hp (Player_update A keys dt p) = hp p.
Proof.
  unfold Player_update.
  destruct (Character_update_fields dt p) as (Hh & _).
  destruct (kind (Character_update dt p)); try exact Hh.
  destruct (foldl _ _ delta) as [r sum_mv].
  destruct (negb _); cbn; exact Hh.
Qed.

Lemma play_player (A : Assets) (i : Input) (g g' : Game) :
  Playing g ->
  (play A i g).1 = Continue g' ->
  center_pos (camera g') = Zpair_to_Q (center (rect (player g'))) /\
  hp (player g') <= hp (player g) /\
  suvivetime g' = (suvivetime g + dtime g)%Q /\
  dtime g' = (inject_Z (tick_ms i) / 1000)%Q.
Proof.
  intros [Hflag Hp He Hb Hbs Hfl]. unfold play.
  set (p1 := Player_update A (key_lst i) (dtime g) (player g)).
  assert (Hp1 : player_ok p1) by now apply Player_update_ok.
  assert (Hhp1 : hp p1 = hp (player g)) by apply Player_update_hp.
  set (cam := mkCamera _ _ _).
  destruct (fire A i cam p1 (bullets g) (clk g)) as [[bs1 clk1]|] eqn:Hfire;
    [|discriminate].
  apply (fire_ok _ _ _ _ _ _ _ _ Hbs) in Hfire.
  destruct (mapM _ (enemies g)) as [es1|] eqn:Hes; [|discriminate].
  assert (Hes1 : Forall enemy_ok es1).
  { eapply mapM_Forall; [|exact He|exact Hes].
    intros x y Hx Hy. eapply Enemy_update_ok; eauto. }
  destruct (update_boss A (dtime g) p1 (boss g)) as [[bo1 nf]|] eqn:Hbo;
    [|discriminate].
  destruct (update_boss_ok A _ _ _ _ _ Hb Hbo) as [Hbo1 Hnf].
  destruct (update_bullets_facts A (dtime g) G_enemies (mkTargets p1 es1 bo1)
              (score g) bs1 (or_introl eq_refl))
    as (HT1 & Hr1 & Hh1); [now split | exact Hfire |].
  destruct (update_bullets A (dtime g) (mkTargets p1 es1 bo1) (score g) bs1)
    as [[[T1 sc1] ev1] bs2].
  cbn [fst t_player] in HT1, Hr1, Hh1.
  destruct (update_bullets_facts A (dtime g) G_player_group T1 sc1
              (flame g ++ nf) (or_intror eq_refl) HT1)
    as (HT2 & Hr2 & Hh2); [apply Forall_app; now split|].
  destruct (update_bullets A (dtime g) T1 sc1 (flame g ++ nf))
    as [[[T2 sc2] ev2] fl2].
  cbn [fst] in HT2, Hr2, Hh2.
  rewrite !(draw_pair (S := Character)), !(draw_pair (S := Bullet)).
  cbn [fst snd head default]. intros [= <-].
  cbn [camera player suvivetime dtime].
  split; [|split; [lia | now split]].
  unfold cam. cbn [center_pos]. now rewrite Hr2, Hr1.
Qed.

Lemma check_phase_Continue (A : Assets) (i : Input) (g g' : Game) :
  gameFlag g = false ->
  (check_phase A i g).1 = Continue g' ->
  (play A i g).1 = Continue g' /\ 0 < hp (player g) /\
  (suvivetime g < 60)%Q.
Proof.
  intros Hflag. unfold check_phase.
  destruct (hp (player g) <=? 0) eqn:Hhp; [discriminate|].
  apply Z.leb_gt in Hhp.
  destruct (60 <=? Qtrunc (suvivetime g)) eqn:Hs;
    cbn [gameFlag with_gameFlag]; [discriminate|].
  rewrite Hflag. destruct (play A i g) as [out ev]. cbn [fst].
  intros ->. split; [reflexivity|]. split; [exact Hhp|].
  apply Qnot_le_lt. intros Hge. apply Qtrunc_ge_60 in Hge. congruence.
Qed.

Lemma hp_contact_le (A : Assets) (p : Character) (es : list Character) :
  hp (player_vs_enemies A p es) <= hp p.
Proof.
  unfold player_vs_enemies.
  generalize (filter (fun e => colliderect (rect p) (rect e) = true) es).
  intros l. revert p. induction l as [|e l IH]; intros p; [cbn; lia|].
  cbn [foldl]. etransitivity; [apply IH|].
  apply give_damage_never_heals. lia.
Qed.

Lemma spawn_and_collide_player (A : Assets) (i : Input) (g : Game) :
  player (spawn_and_collide A i g).1
  = player_vs_enemies A (difficulty (score g) (player g))
      (enemies (spawn_and_collide A i g).1) /\
  hp (player (spawn_and_collide A i g).1) <= hp (player g).
Proof.
  assert (Hd : hp (difficulty (score g) (player g)) = hp (player g)).
  { unfold difficulty. destruct (kind (player g)); try reflexivity.
    destruct (_ && _); [reflexivity|]. now destruct (1500 <=? score g). }
  unfold spawn_and_collide.
  destruct (if Qlt_bool (5 # 10) _ then _ else _) as [es1 etmr0].
  destruct (if Qlt_bool 3 _ then _ else _) as [bo1 btmr0].
  destruct (groupcollide_kill_both (flame g) (bullets g)) as [fl1 bs1].
  destruct (groupcollide_kill_b bo1 bs1) as [crashed bs2].
  destruct (boss_damage A crashed (score g)) as [[bo2 sc1] ev1].
  cbn [fst player enemies]. split; [reflexivity|].
  rewrite <- Hd. apply hp_contact_le.
Qed.

Lemma scroll_background_fields (g g' : Game) (ev : list Event) :
  scroll_background g = Some (g', ev) ->
  player g' = player g /\ suvivetime g' = suvivetime g /\
  dtime g' = dtime g /\ gameFlag g' = gameFlag g.
Proof.
  unfold scroll_background.
  destruct (mapM _ (background g)) as [bg1|]; [|discriminate].
  destruct (Group_support_camera_draw (camera g) bg1) as [bg2 d0].
  intros [= <- _]. now repeat split.
Qed.

Lemma frame_player (A : Assets) (i : Input) (g g' : Game) :
  Playing g ->
  (frame A i g).1 = Continue g' ->
  center_pos (camera g') = Zpair_to_Q (center (rect (player g'))) /\
  hp (player g') <= hp (player g) /\
  0 < hp (checked_player A i g) /\ (suvivetime g < 60)%Q /\
  suvivetime g' = (suvivetime g + dtime g)%Q /\
  dtime g' = (inject_Z (tick_ms i) / 1000)%Q.
Proof.
  intros Hg. unfold frame, checked_player.
  destruct (handle_events (events i) (max_fps g)) as [[fps|] ev0]; [|discriminate].
  rewrite spawn_and_collide_max_fps.
  destruct (spawn_and_collide_ok A i g Hg) as (Hg1 & _ & _).
  destruct (spawn_and_collide_frame A i g) as (_ & Hdt & Hfl & _ & _ & _ & Hsv & _).
  destruct (spawn_and_collide_player A i g) as [_ Hhp].
  destruct (spawn_and_collide A i g) as [g1 ev1]. cbn [fst snd] in *.
  destruct (scroll_background (with_max_fps fps g1)) as [[g2 ev2]|] eqn:Hbg;
    [|discriminate].
  destruct (scroll_background_fields _ _ _ Hbg) as (Hp2 & Hs2 & Hd2 & Hf2).
  destruct (scroll_background_ok A _ _ _ Hbg (with_max_fps_Playing fps g1 Hg1))
    as (Hg2 & _).
  cbn [player suvivetime dtime gameFlag with_max_fps] in Hp2, Hs2, Hd2, Hf2.
  destruct (check_phase A i g2) as [out ev3] eqn:Hcp. cbn [fst]. intros ->.
  destruct (check_phase_Continue A i g2 g' (playing_flag g2 Hg2)) as (Hplay & Hpos & Hlt);
    [now rewrite Hcp|].
  destruct (play_player A i g2 g' Hg2 Hplay) as (Hcam & Hh & Hs & Hd).
  rewrite Hp2 in Hh, Hpos. rewrite Hs2, Hsv in Hs, Hlt. rewrite Hd2, Hdt in Hs.
  repeat split; try assumption. lia.
Qed.

Lemma run_player (A : Assets) (inputs : list Input) :
  forall g0 g, Playing g0 ->
               (run A inputs g0).1 = Continue g ->
               hp (player g) <= hp (player g0) /\
               (inputs <> [] ->
                center_pos (camera g) = Zpair_to_Q (center (rect (player g)))).
Proof.
  induction inputs as [|i rest IH]; intros g0 g Hg0; cbn [run].
  - intros [= <-]. split; [lia|congruence].
  - destruct (frame_ok A i g0 Hg0) as [_ Hcont].
    pose proof (frame_player A i g0) as Hfp.
    destruct (frame A i g0) as [out ev]. cbn [fst snd] in *.
    destruct out as [g1| | | |]; try discriminate.
    destruct (Hcont g1 eq_refl) as [Hg1 _].
    destruct (Hfp g1 Hg0 eq_refl) as (Hcam & Hhp & _).
    specialize (IH g1 g Hg1).
    destruct (run A rest g1) as [out' ev'] eqn:Hrun. cbn [fst] in *.
    intros ->. destruct (IH eq_refl) as [Hh Hc].
    split; [lia|]. intros _.
    destruct rest as [|i' rest']; [|apply Hc; discriminate].
    cbn in Hrun. injection Hrun as <- _. exact Hcam.
Qed.

(** X17.  In a pass of [main] that falls through to the next one, from any
    state the loop can reach: the player's health at the check was positive
    and the survival time below 60 seconds; at the end of the pass the
    camera is centred on the player's rectangle, the player's health is not
    above what it was at the start of the pass, the survival time has grown
    by the time step of this pass, and the next time step is the clock's
    milliseconds divided by 1000. *)
Theorem pass_player_and_clock (A : Assets) (inputs : list Input) (i : Input)
    (g g' : Game) :
  (run A inputs (main_init A)).1 = Continue g ->
  (frame A i g).1 = Continue g' ->
  center_pos (camera g') = Zpair_to_Q (center (rect (player g'))) /\
  hp (player g') <= hp (player g) /\
  0 < hp (checked_player A i g) /\ (suvivetime g < 60)%Q /\
  suvivetime g' = (suvivetime g + dtime g)%Q /\
  dtime g' = (inject_Z (tick_ms i) / 1000)%Q.
Proof.
  intros Hrun Hframe.
  destruct (run_ok A inputs (main_init A) (main_init_Playing A)) as [_ Hc].
  destruct (Hc g Hrun) as [Hg _].
  now apply frame_player.
Qed.

(** The eleventh pass of the run that fires to the right. *)
Lemma pass_player_and_clock_witness :
  center_pos (camera after_11_passes)
  = Zpair_to_Q (center (rect (player after_11_passes))) /\
  (suvivetime after_1_second < 60)%Q.
Proof.
  destruct (pass_player_and_clock demo_assets (replicate 10 aim_right) aim_right
              after_1_second after_11_passes) as (H1 & _ & _ & H2 & _).
  - vm_compute. reflexivity.
  - vm_compute. reflexivity.
  - split; [exact H1 | exact H2].
Defined.

(** X18.  In every state the loop of [main] reaches, whatever the inputs:
    every enemy and boss in its group is alive with positive health, enemies
    carry score 30 and bosses 40, the player's bullets aim at the enemies
    and the boss flames at the player's group, all with damage 10, and
    [gameFlag] is unset; the player's health is at most the initial 50, the
    score is not negative, and after the first pass the camera is centred
    on the player. *)
Theorem reachable_state_invariant (A : Assets) (inputs : list Input) (g : Game) :
  (run A inputs (main_init A)).1 = Continue g ->
  Playing g /\ hp (player g) <= 50 /\ 0 <= score g /\
  (inputs <> [] ->
   center_pos (camera g) = Zpair_to_Q (center (rect (player g)))).
Proof.
  intros Hrun.
  destruct (run_ok A inputs (main_init A) (main_init_Playing A)) as [Hk Hc].
  destruct (Hc g Hrun) as [Hg Hs].
  destruct (run_player A inputs (main_init A) g (main_init_Playing A) Hrun)
    as [Hh Hcam].
  pose proof (kill_event_nonneg A _ Hk) as Hnn.
  split; [exact Hg|]. split; [exact Hh|]. split; [|exact Hcam].
  rewrite Hs. cbn [score main_init]. lia.
Qed.

(** After two seconds of the run that fires to the right. *)
Lemma reachable_state_invariant_witness :
  Forall enemy_ok (enemies after_2_seconds) /\ hp (player after_2_seconds) <= 50.
Proof.
  destruct (reachable_state_invariant demo_assets (replicate 20 aim_right)
              after_2_seconds) as (Hg & Hh & _).
  - vm_compute. reflexivity.
  - split; [apply (playing_enemies _ Hg) | exact Hh].
Defined.

Lemma frame_GameClear_60 (A : Assets) (i : Input) (g : Game) :
  gameFlag g = false ->
  (frame A i g).1 = GameClear -> (60 <= suvivetime g)%Q.
Proof.
  intros Hflag. unfold frame.
  destruct (handle_events (events i) (max_fps g)) as [[fps|] ev0]; [|discriminate].
  rewrite spawn_and_collide_max_fps.
  destruct (spawn_and_collide_frame A i g) as (_ & _ & Hfl & _ & _ & _ & Hsv & _).
  destruct (spawn_and_collide A i g) as [g1 ev1]. cbn [fst snd] in *.
  destruct (scroll_background (with_max_fps fps g1)) as [[g2 ev2]|] eqn:Hbg;
    [|discriminate].
  destruct (scroll_background_fields _ _ _ Hbg) as (_ & Hs2 & _ & Hf2).
  cbn [suvivetime gameFlag with_max_fps] in Hs2, Hf2.
  unfold check_phase.
  destruct (hp (player g2) <=? 0); [discriminate|].
  destruct (60 <=? Qtrunc (suvivetime g2)) eqn:Hs.
  - intros _. apply Qtrunc_ge_60 in Hs. now rewrite Hs2, Hsv in Hs.
  - rewrite Hf2, Hfl, Hflag.
    pose proof (play_outcome A i g2) as Hp.
    destruct (play A i g2) as [out ev]. cbn [fst] in *. intros ->.
    destruct Hp as [H|[g' H]]; discriminate.
Qed.

Lemma tick_seconds_60 (i : Input) :
  (60 <= tick_seconds i)%Q <-> 60000 <= tick_ms i.
Proof.
  unfold tick_seconds, Qle, Qdiv. simpl. lia.
Qed.

(** X19.  The survival clock lags one pass behind the frame clock: the time
    step a pass measures is added to [suvivetime] by the next pass, not by
    the pass that measured it.  So after the first pass [suvivetime] is
    still 0 and after the second it is the step the first pass measured,
    whatever the second measured; the game is never cleared in its first
    two passes, and the third pass clears or otherwise ends the game when
    the first pass took 60 seconds or more, and does not clear it when the
    first pass took less. *)
Theorem survival_clock_lags (A : Assets) (i1 i2 i3 : Input) :
  (forall inputs g0 g1 g2,
     (run A inputs (main_init A)).1 = Continue g0 ->
     (frame A i1 g0).1 = Continue g1 ->
     (frame A i2 g1).1 = Continue g2 ->
     suvivetime g2 = (suvivetime g1 + tick_seconds i1)%Q) /\
  (frame A i1 (main_init A)).1 <> GameClear /\
  (forall g1,
     (frame A i1 (main_init A)).1 = Continue g1 ->
     (suvivetime g1 == 0)%Q /\
     (frame A i2 g1).1 <> GameClear /\
     forall g2,
       (frame A i2 g1).1 = Continue g2 ->
       (suvivetime g2 == tick_seconds i1)%Q /\
       (60000 <= tick_ms i1 -> forall g3, (frame A i3 g2).1 <> Continue g3) /\
       (tick_ms i1 < 60000 -> (frame A i3 g2).1 <> GameClear)).
Proof.
  assert (Hstep : forall g0 g1 g2,
             Playing g0 ->
             (frame A i1 g0).1 = Continue g1 ->
             (frame A i2 g1).1 = Continue g2 ->
             Playing g1 /\ Playing g2 /\
             suvivetime g1 = (suvivetime g0 + dtime g0)%Q /\
             suvivetime g2 = (suvivetime g1 + tick_seconds i1)%Q).
  { intros g0 g1 g2 Hg0 H1 H2.
    destruct (frame_ok A i1 g0 Hg0) as [_ Hc1].
    destruct (frame A i1 g0) as [out1 ev1] eqn:E1. cbn [fst snd] in *. subst out1.
    destruct (Hc1 g1 eq_refl) as [Hg1 _].
    assert (H1 : (frame A i1 g0).1 = Continue g1) by now rewrite E1.
    destruct (frame_player A i1 g0 g1 Hg0 H1) as (_ & _ & _ & _ & Hs1 & Hd1).
    destruct (frame_ok A i2 g1 Hg1) as [_ Hc2].
    destruct (frame A i2 g1) as [out2 ev2] eqn:E2. cbn [fst snd] in *. subst out2.
    destruct (Hc2 g2 eq_refl) as [Hg2 _].
    assert (H2 : (frame A i2 g1).1 = Continue g2) by now rewrite E2.
    destruct (frame_player A i2 g1 g2 Hg1 H2) as (_ & _ & _ & _ & Hs2 & _).
    split; [exact Hg1|]. split; [exact Hg2|]. split; [exact Hs1|].
    rewrite Hs2, Hd1. reflexivity. }
  pose proof (main_init_Playing A) as Hg0.
  split; [|split].
  - intros inputs g0 g1 g2 Hrun H1 H2.
    destruct (run_ok A inputs (main_init A) Hg0) as [_ Hc].
    destruct (Hc g0 Hrun) as [Hg _].
    now destruct (Hstep g0 g1 g2 Hg H1 H2) as (_ & _ & _ & H).
  - intros H. apply frame_GameClear_60 in H; [|apply Hg0].
    cbn [suvivetime main_init] in H. unfold Qle in H. simpl in H. lia.
  - intros g1 H1.
    destruct (frame_ok A i1 (main_init A) Hg0) as [_ Hc1].
    assert (Hg1 : Playing g1).
    { destruct (frame A i1 (main_init A)) as [out1 ev1]. cbn [fst snd] in *.
      subst out1. now destruct (Hc1 g1 eq_refl). }
    destruct (frame_player A i1 (main_init A) g1 Hg0 H1)
      as (_ & _ & _ & _ & Hs1 & _).
    cbn [suvivetime dtime main_init] in Hs1.
    assert (Hz : (suvivetime g1 == 0)%Q) by (rewrite Hs1; reflexivity).
    split; [exact Hz|]. split.
    + intros H. apply frame_GameClear_60 in H; [|apply Hg1].
      rewrite Hz in H. unfold Qle in H. simpl in H. lia.
    + intros g2 H2.
      destruct (Hstep (main_init A) g1 g2 Hg0 H1 H2) as (_ & Hg2 & _ & Hs2).
      assert (Hv : (suvivetime g2 == tick_seconds i1)%Q).
      { rewrite Hs2, Hz. ring. }
      split; [exact Hv|]. split.
      * intros Hms g3 H3.
        destruct (frame_player A i3 g2 g3 Hg2 H3) as (_ & _ & _ & Hlt & _).
        rewrite Hv in Hlt. apply tick_seconds_60 in Hms. lra.
      * intros Hms H3. apply frame_GameClear_60 in H3; [|apply Hg2].
        rewrite Hv in H3. apply tick_seconds_60 in H3. lia.
Qed.

(** Two passes of a tenth of a second: the second adds the step of the
    first.  Two passes of sixty-one seconds: the third pass does not fall
    through. *)
Lemma survival_clock_lags_witness :
  suvivetime (state_after [aim_right; aim_right])
  = (suvivetime (state_after [aim_right]) + tick_seconds aim_right)%Q /\
  (forall g3,
     (frame demo_assets long_pass (state_after [long_pass; long_pass])).1
     <> Continue g3).
Proof.
  split.
  - destruct (survival_clock_lags demo_assets aim_right aim_right aim_right)
      as (H & _).
    apply (H [] (main_init demo_assets)).
    + reflexivity.
    + vm_compute. reflexivity.
    + vm_compute. reflexivity.
  - destruct (survival_clock_lags demo_assets long_pass long_pass long_pass)
      as (_ & _ & H).
    destruct (H (state_after [long_pass])) as (_ & _ & H2).
    + vm_compute. reflexivity.
    + destruct (H2 (state_after [long_pass; long_pass])) as (_ & H3 & _).
      * vm_compute. reflexivity.
      * apply H3. vm_compute. discriminate.
Defined.

(** ** Spawning *)

(** X20.  A character built by [Character.__init__] has a rectangle of the
    image's size centred exactly on the spawn position, is in its groups,
    has no displayed image until its first update, which displays the image
    it was built with, and is vulnerable at once: the first [give_damage]
    takes the full damage. *)
Theorem Character_init_spawn (A : Assets) (k : Kind) (img : Surface)
    (pos : Z * Z) (hp0 : Z) (m dt : Q) (dmg : Z) :
  center (rect (Character_init k img pos hp0 m)) = pos /\
  rw (rect (Character_init k img pos hp0 m)) = surf_w img /\
  rh (rect (Character_init k img pos hp0 m)) = surf_h img /\
  alive (Character_init k img pos hp0 m) = true /\
  image (Character_init k img pos hp0 m) = None /\
  image (Character_update dt (Character_init k img pos hp0 m)) = Some img /\
  hp (give_damage A dmg (Character_init k img pos hp0 m)) = hp0 - dmg.
Proof.
  split; [apply center_set_center|].
  split; [reflexivity|]. split; [reflexivity|]. split; [reflexivity|].
  split; [reflexivity|]. split.
  - apply (Character_update_shows_top dt _ 0 img None).
    + apply dict_max_unique; cbn.
      * rewrite lookup_singleton_eq. eauto.
      * intros j [v Hj]. destruct (decide (j = 0)) as [->|Hne]; [lia|].
        rewrite lookup_singleton_ne in Hj by congruence. discriminate.
    + cbn. apply lookup_singleton_eq.
  - destruct (give_damage_vulnerable A dmg (Character_init k img pos hp0 m))
      as [H _]; [cbn; unfold Qle; simpl; lia | exact H].
Qed.

(** ** Drawing the player *)

Lemma Qtrunc_half_offset (c hw : Z) :
  Qtrunc (- inject_Z c + inject_Z (2 * hw) / 2) = hw - c.
Proof.
  unfold Qtrunc. cbn.
  change (Z.pos (1 * 2)) with 2. change (Z.pos (1 * (1 * 2))) with 2.
  replace (- c * 2 + 2 * hw * 1 * 1) with ((hw - c) * 2) by ring.
  apply Z.quot_mul. discriminate.
Qed.

(** X21.  When the camera is centred on a sprite's rectangle and the window
    has even width and height, [Group_support_camera.draw] blits that sprite
    with its centre exactly in the middle of the window, at its own size;
    so the player, which the camera follows, is drawn in the middle of the
    1600 x 900 window at (800, 450). *)
Theorem camera_centres_sprite (cam : Camera) (p : Character) (hw hh : Z) :
  center_pos cam = Zpair_to_Q (center (rect p)) ->
  screen_w cam = 2 * hw -> screen_h cam = 2 * hh ->
  exists r, (Group_support_camera_draw cam [p]).2 = [EvBlit (image p) r] /\
            center r = (hw, hh) /\ rw r = rw (rect p) /\ rh r = rh (rect p).
Proof.
  intros Hc Hw Hh. exists (on_screen cam (rect p)).
  split; [now rewrite (Group_support_camera_draw_blits (S := Character))|].
  unfold on_screen. rewrite Hc, Hw, Hh. cbn [fst snd Zpair_to_Q center].
  rewrite !Qtrunc_half_offset.
  unfold center, centerx, centery, move_ip. cbn.
  split; [f_equal; lia|]. now split.
Qed.

(** The player of the state after two seconds is drawn at (800, 450). *)
Lemma camera_centres_sprite_witness :
  exists r, (Group_support_camera_draw (camera after_2_seconds)
               [player after_2_seconds]).2
            = [EvBlit (image (player after_2_seconds)) r] /\
            center r = (800, 450).
Proof.
  destruct (camera_centres_sprite (camera after_2_seconds)
              (player after_2_seconds) 800 450) as (r & H1 & H2 & _).
  - vm_compute. reflexivity.
  - reflexivity.
  - reflexivity.
  - exists r. now split.
Defined.
